(** * BaudLink: the serial-port session layer

    A shallow embedding of [internal/serial] (manager, continuous reader,
    line reader and scanner) and the properties of its specification.

    Conventions of the embedding.
    - Go's [int] and the [uint32]/[uint64] counters are [Z]; the wrap-around
      of the unsigned counters is written out ([uint32], [uint64]).
    - A byte slice is [option (list byte)]: [None] is the [nil] slice.
    - A [*Session] is an address into the store [heap] of the manager; the
      two lookup tables hold addresses, so both tables alias one object.
    - A Go result made of a session pointer and an error, of which exactly
      one is [nil], is a sum: [inl p] for [(p, nil)], [inr err] for
      [(nil, err)].
    - Whatever the transport, the clock, the identifier generator and the
      port enumerator answer is an explicit argument of the operation that
      asks (the records [OpenEnv], [ReadEnv], ...).
    - Calls are taken one at a time, whole: operations are state
      transformers, and a history is a sequence of calls. *)

From stdpp Require Import gmap strings list fin_maps sorting.
From Stdlib Require Import ZArith Lia Sorted Permutation.

Local Open Scope Z_scope.

(** ** Errors *)

(** The package's sentinel errors, the two messages of [Validate], the
    wrapping done with [fmt.Errorf("...: %w", err)], and the errors of the
    transport. Comparison [err == ErrX] in the source is identity of the
    sentinel, here equality of constructors. *)
Inductive error : Type :=
  | ErrPortNotFound
  | ErrPortAlreadyOpen
  | ErrPortNotOpen
  | ErrPortLocked
  | ErrInvalidSession
  | ErrInvalidConfig
  | ErrWriteTimeout
  | ErrReadTimeout
  | ErrPortClosed
  | ErrInvalidBaudRate (baud : Z)
  | ErrInvalidDataBits (bits : Z)
  | ErrWrap (msg : string) (cause : error)
  | ErrHardware (msg : string).

(** A call either returns or panics (Go run-time panic). *)
Inductive outcome (A : Type) : Type :=
  | Returns (a : A)
  | Panics (msg : string).
Arguments Returns {A} a.
Arguments Panics {A} msg.

(** ** Byte slices *)

Definition slice : Type := option (list Byte.byte).

Definition len (s : slice) : Z :=
  match s with
  | None => 0
  | Some l => Z.of_nat (length l)
  end.

Definition elems (s : slice) : list Byte.byte :=
  match s with
  | None => []
  | Some l => l
  end.

(** [append(s, d...)]: appending nothing gives [s] back, [nil] included. *)
Definition append (s d : slice) : slice :=
  match elems d with
  | [] => s
  | _ :: _ => Some (elems s ++ elems d)
  end.

(** ** Unsigned counters *)

Definition uint32 (z : Z) : Z := z mod 2 ^ 32.
Definition uint64 (z : Z) : Z := z mod 2 ^ 64.

(** [atomic.AddUint32(&x, d)] and [atomic.AddUint64(&x, d)]: the new value. *)
Definition AddUint32 (x d : Z) : Z := uint32 (x + d).
Definition AddUint64 (x d : Z) : Z := uint64 (x + d).

(** ** Port configuration *)

Inductive Parity := ParityNone | ParityOdd | ParityEven | ParityMark | ParitySpace.
Inductive StopBits := StopBits1 | StopBits1Half | StopBits2.
Inductive FlowControl := FlowControlNone | FlowControlHardware | FlowControlSoftware.

Record PortConfig : Type := mkPortConfig {
  BaudRate : Z;
  DataBits : Z;
  StopBitsOf : StopBits;
  ParityOf : Parity;
  FlowControlOf : FlowControl;
  ReadTimeoutMs : Z;
  WriteTimeoutMs : Z
}.

Definition DefaultConfig : PortConfig :=
  {| BaudRate := 9600; DataBits := 8; StopBitsOf := StopBits1;
     ParityOf := ParityNone; FlowControlOf := FlowControlNone;
     ReadTimeoutMs := 1000; WriteTimeoutMs := 1000 |}.

Definition Validate (c : PortConfig) : option error :=
  if BaudRate c <? 1 then Some (ErrInvalidBaudRate (BaudRate c))
  else if (DataBits c <? 5) || (DataBits c >? 8) then Some (ErrInvalidDataBits (DataBits c))
  else None.

(** The mode handed to the transport. *)
Inductive serial_StopBits := OneStopBit | OnePointFiveStopBits | TwoStopBits.
Inductive serial_Parity := NoParity | OddParity | EvenParity | MarkParity | SpaceParity.

Record serial_Mode : Type := mkMode {
  mode_BaudRate : Z;
  mode_DataBits : Z;
  mode_Parity : serial_Parity;
  mode_StopBits : serial_StopBits
}.

Definition toSerialMode (c : PortConfig) : serial_Mode :=
  {| mode_BaudRate := BaudRate c;
     mode_DataBits := DataBits c;
     mode_Parity :=
       match ParityOf c with
       | ParityNone => NoParity
       | ParityOdd => OddParity
       | ParityEven => EvenParity
       | ParityMark => MarkParity
       | ParitySpace => SpaceParity
       end;
     mode_StopBits :=
       match StopBitsOf c with
       | StopBits1 => OneStopBit
       | StopBits1Half => OnePointFiveStopBits
       | StopBits2 => TwoStopBits
       end |}.

(** ** Sessions and the manager *)

Record PortStatistics : Type := mkStats {
  BytesSent : Z;
  BytesReceived : Z;
  Errors : Z;
  OpenedAt : Z;
  LastActivity : Z
}.

(** [port] is the handle of the transport; [readers] are the addresses of
    the channels handed out by [SubscribeToReads]. *)
Record Session : Type := mkSession {
  ID : string;
  PortName : string;
  ClientID : string;
  Exclusive : bool;
  Config : PortConfig;
  Statistics : PortStatistics;
  port : nat;
  closed : bool;
  readers : list nat
}.

Definition with_Statistics (s : Session) (st : PortStatistics) : Session :=
  mkSession (ID s) (PortName s) (ClientID s) (Exclusive s) (Config s) st
            (port s) (closed s) (readers s).

Definition with_Config (s : Session) (c : PortConfig) : Session :=
  mkSession (ID s) (PortName s) (ClientID s) (Exclusive s) c (Statistics s)
            (port s) (closed s) (readers s).

Definition with_closed (s : Session) (b : bool) : Session :=
  mkSession (ID s) (PortName s) (ClientID s) (Exclusive s) (Config s)
            (Statistics s) (port s) b (readers s).

Definition with_readers (s : Session) (r : list nat) : Session :=
  mkSession (ID s) (PortName s) (ClientID s) (Exclusive s) (Config s)
            (Statistics s) (port s) (closed s) r.

Definition nilSession : Session :=
  mkSession "" "" "" false DefaultConfig (mkStats 0 0 0 0 0) 0%nat false [].

#[global] Instance Session_inhabited : Inhabited Session := populate nilSession.

(** The manager with the memory its tables point into: [heap] holds the
    [Session] objects, [rchans] the closed flag of every reader channel
    made so far. Go collects garbage, so nothing is ever freed. *)
Record Manager : Type := mkManager {
  heap : gmap nat Session;
  rchans : gmap nat bool;
  sessions : gmap string nat;
  sessionsByID : gmap string nat;
  allowSharedAccess : bool;
  defaultConfig : PortConfig
}.

Definition NewManager (allowShared : bool) (dflt : PortConfig) : Manager :=
  mkManager ∅ ∅ ∅ ∅ allowShared dflt.

Definition with_heap (m : Manager) (h : gmap nat Session) : Manager :=
  mkManager h (rchans m) (sessions m) (sessionsByID m)
            (allowSharedAccess m) (defaultConfig m).

(** [*p] for a session address [p]. An address that was never allocated
    reads as [nilSession]; the tables never hold one (invariant [wf]
    below, kept by every operation). *)
Definition deref (m : Manager) (p : nat) : Session := heap m !!! p.

(** [*p = f( *p )]. *)
Definition update (m : Manager) (p : nat) (f : Session → Session) : Manager :=
  with_heap m (<[p := f (deref m p)]> (heap m)).

(** What the environment answers during [OpenPort]. *)
Record OpenEnv : Type := mkOpenEnv {
  open_err : option error;        (* serial.Open *)
  open_handle : nat;
  set_timeout_err : option error; (* port.SetReadTimeout *)
  new_uuid : string;              (* uuid.New().String() *)
  now_opened : Z;                 (* first time.Now() *)
  now_activity : Z                (* second time.Now() *)
}.

Definition OpenPort (m : Manager) (portName : string) (config : PortConfig)
    (clientID : string) (exclusive : bool) (env : OpenEnv)
    : Manager * (nat + error) :=
  match Validate config with
  | Some err => (m, inr err)
  | None =>
    if match sessions m !! portName with
       | Some existing =>
           Exclusive (deref m existing) || exclusive || negb (allowSharedAccess m)
       | None => false
       end
    then (m, inr ErrPortLocked)
    else
      match open_err env with
      | Some err => (m, inr (ErrWrap "failed to open port" err))
      | None =>
        match (if ReadTimeoutMs config >? 0 then set_timeout_err env else None) with
        | Some err => (m, inr (ErrWrap "failed to set read timeout" err))
        | None =>
          let session :=
            {| ID := new_uuid env; PortName := portName; ClientID := clientID;
               Exclusive := exclusive; Config := config;
               Statistics := mkStats 0 0 0 (now_opened env) (now_activity env);
               port := open_handle env; closed := false; readers := [] |} in
          let p := fresh (dom (heap m)) in
          (mkManager (<[p := session]> (heap m)) (rchans m)
                     (<[portName := p]> (sessions m))
                     (<[ID session := p]> (sessionsByID m))
                     (allowSharedAccess m) (defaultConfig m),
           inl p)
        end
      end
  end.

(** [closeSessionLocked]; [close_err] is what [session.port.Close()]
    returns. The reader channels of a session are closed here and nowhere
    else, once, since [readers] is emptied. *)
Definition closeSessionLocked (m : Manager) (p : nat) (close_err : option error)
    : Manager * option error :=
  let session := deref m p in
  (mkManager (<[p := with_readers (with_closed session true) []]> (heap m))
             (foldr (fun ch rc => <[ch := true]> rc) (rchans m) (readers session))
             (delete (PortName session) (sessions m))
             (delete (ID session) (sessionsByID m))
             (allowSharedAccess m) (defaultConfig m),
   close_err).

Definition ClosePort (m : Manager) (portName sessionID : string)
    (close_err : option error) : Manager * option error :=
  match sessions m !! portName with
  | None => (m, Some ErrPortNotOpen)
  | Some p =>
    if decide (ID (deref m p) ≠ sessionID) then (m, Some ErrInvalidSession)
    else closeSessionLocked m p close_err
  end.

Definition GetSession (m : Manager) (portName : string) : option nat :=
  sessions m !! portName.

Definition GetSessionByID (m : Manager) (sessionID : string) : option nat :=
  sessionsByID m !! sessionID.

Definition ValidateSession (m : Manager) (portName sessionID : string)
    : nat + error :=
  match sessions m !! portName with
  | None => inr ErrPortNotOpen
  | Some p =>
    if decide (ID (deref m p) ≠ sessionID) then inr ErrInvalidSession
    else if closed (deref m p) then inr ErrPortClosed
    else inl p
  end.

(** What the transport and the clock answer during [Write]. *)
Record WriteEnv : Type := mkWriteEnv {
  wr_n : Z;
  wr_err : option error;
  wr_now : Z
}.

Definition Write (m : Manager) (portName sessionID : string) (data : slice)
    (env : WriteEnv) : Manager * (Z * option error) :=
  match ValidateSession m portName sessionID with
  | inr err => (m, (0, Some err))
  | inl p =>
    let n := wr_n env in
    match wr_err env with
    | Some err =>
      (update m p (fun s =>
         let st := Statistics s in
         with_Statistics s
           (mkStats (BytesSent st) (BytesReceived st) (AddUint64 (Errors st) 1)
                    (OpenedAt st) (LastActivity st))),
       (n, Some err))
    | None =>
      (update m p (fun s =>
         let st := Statistics s in
         with_Statistics s
           (mkStats (AddUint64 (BytesSent st) (uint64 n)) (BytesReceived st)
                    (Errors st) (OpenedAt st) (wr_now env))),
       (n, None))
    end
  end.

(** What the transport and the clock answer during [Read]: the bytes the
    port has ready, the error it reports, the time. *)
Record ReadEnv : Type := mkReadEnv {
  rd_data : list Byte.byte;
  rd_err : option error;
  rd_now : Z
}.

(** [session.port.Read(buffer)]: at most [len(buffer)] bytes are stored at
    the front of the buffer; the count and the error are returned. *)
Definition port_Read (env : ReadEnv) (buffer : list Byte.byte)
    : list Byte.byte * Z * option error :=
  let got := take (length buffer) (rd_data env) in
  (got ++ drop (length got) buffer, Z.of_nat (length got), rd_err env).

Definition Read (m : Manager) (portName sessionID : string) (maxBytes : Z)
    (env : ReadEnv) : Manager * outcome (slice * option error) :=
  match ValidateSession m portName sessionID with
  | inr err => (m, Returns (None, Some err))
  | inl p =>
    if maxBytes <? 0 then (m, Panics "makeslice: len out of range")
    else
      let buffer := replicate (Z.to_nat maxBytes) Byte.x00 in
      let '(buffer, n, err) := port_Read env buffer in
      match err with
      | Some err =>
        (update m p (fun s =>
           let st := Statistics s in
           with_Statistics s
             (mkStats (BytesSent st) (BytesReceived st) (AddUint64 (Errors st) 1)
                      (OpenedAt st) (LastActivity st))),
         Returns (None, Some err))
      | None =>
        (update m p (fun s =>
           let st := Statistics s in
           with_Statistics s
             (mkStats (BytesSent st) (AddUint64 (BytesReceived st) (uint64 n))
                      (Errors st) (OpenedAt st) (rd_now env))),
         Returns (Some (take (Z.to_nat n) buffer), None))
      end
  end.

(** What the transport answers during [Configure]. *)
Record ConfigureEnv : Type := mkConfigureEnv {
  set_mode_err : option error;    (* port.SetMode *)
  cfg_timeout_err : option error  (* port.SetReadTimeout *)
}.

Definition Configure (m : Manager) (portName sessionID : string)
    (config : PortConfig) (env : ConfigureEnv) : Manager * option error :=
  match ValidateSession m portName sessionID with
  | inr err => (m, Some err)
  | inl p =>
    match Validate config with
    | Some err => (m, Some err)
    | None =>
      match set_mode_err env with
      | Some err => (m, Some (ErrWrap "failed to configure port" err))
      | None =>
        match (if ReadTimeoutMs config >? 0 then cfg_timeout_err env else None) with
        | Some err => (m, Some (ErrWrap "failed to set read timeout" err))
        | None => (update m p (fun s => with_Config s config), None)
        end
      end
    end
  end.

Definition GetStatus (m : Manager) (portName : string) : nat + error :=
  match sessions m !! portName with
  | None => inr ErrPortNotOpen
  | Some p => inl p
  end.

(** The order of a [range] over a map is unspecified; [map_to_list] fixes one. *)
Definition ListOpenPorts (m : Manager) : list string :=
  (map_to_list (sessions m)).*1.

(** [CloseAll]: the loop ranges over the table while [closeSessionLocked]
    deletes from it; an entry deleted before it is reached is not visited.
    [close_errs] gives the answer of [port.Close()] for every handle. *)
Definition CloseAll (m : Manager) (close_errs : nat → option error) : Manager :=
  foldl (fun acc entry =>
           if decide (sessions acc !! entry.1 = Some entry.2)
           then (closeSessionLocked acc entry.2 (close_errs (port (deref acc entry.2)))).1
           else acc)
        m (map_to_list (sessions m)).

Definition SubscribeToReads (m : Manager) (portName sessionID : string)
    : Manager * (nat + error) :=
  match ValidateSession m portName sessionID with
  | inr err => (m, inr err)
  | inl p =>
    let ch := fresh (dom (rchans m)) in
    (mkManager (<[p := with_readers (deref m p) (readers (deref m p) ++ [ch])]> (heap m))
               (<[ch := false]> (rchans m))
               (sessions m) (sessionsByID m)
               (allowSharedAccess m) (defaultConfig m),
     inl ch)
  end.

(** [reset_err] is what [port.ResetInputBuffer()] returns. *)
Definition Flush (m : Manager) (portName sessionID : string)
    (reset_err : option error) : option error :=
  match ValidateSession m portName sessionID with
  | inr err => Some err
  | inl _ => reset_err
  end.

(** The session registered under a port name, if any. *)
Definition session_at (m : Manager) (portName : string) : option Session :=
  match sessions m !! portName with
  | Some p => heap m !! p
  | None => None
  end.

(** Every operation that changes the manager, with the answers of its
    environment: the calls clients make over time. *)
Inductive mgr_op : Type :=
  | OpOpenPort (portName : string) (config : PortConfig) (clientID : string)
               (exclusive : bool) (env : OpenEnv)
  | OpClosePort (portName sessionID : string) (close_err : option error)
  | OpWrite (portName sessionID : string) (data : slice) (env : WriteEnv)
  | OpRead (portName sessionID : string) (maxBytes : Z) (env : ReadEnv)
  | OpConfigure (portName sessionID : string) (config : PortConfig)
                (env : ConfigureEnv)
  | OpCloseAll (close_errs : nat → option error)
  | OpSubscribeToReads (portName sessionID : string).

Definition apply_op (m : Manager) (op : mgr_op) : Manager :=
  match op with
  | OpOpenPort portName config clientID exclusive env =>
      (OpenPort m portName config clientID exclusive env).1
  | OpClosePort portName sessionID close_err =>
      (ClosePort m portName sessionID close_err).1
  | OpWrite portName sessionID data env => (Write m portName sessionID data env).1
  | OpRead portName sessionID maxBytes env => (Read m portName sessionID maxBytes env).1
  | OpConfigure portName sessionID config env =>
      (Configure m portName sessionID config env).1
  | OpCloseAll close_errs => CloseAll m close_errs
  | OpSubscribeToReads portName sessionID => (SubscribeToReads m portName sessionID).1
  end.

Definition apply_ops (m : Manager) (ops : list mgr_op) : Manager :=
  foldl apply_op m ops.

(** The identifier [uuid.New()] hands to an operation, when it asks for one. *)
Definition op_uuid (op : mgr_op) : option string :=
  match op with
  | OpOpenPort _ _ _ _ env => Some (new_uuid env)
  | _ => None
  end.

(** ** Continuous reader *)

Record DataEvent : Type := mkEvent {
  Data : slice;
  Timestamp : Z;
  Sequence : Z;
  Error : option error
}.

(** A subscriber channel, [make(chan DataEvent, 100)]: the events waiting in
    its buffer, oldest first, and whether it has been closed. *)
Record EventChan : Type := mkChan {
  queue : list DataEvent;
  ch_closed : bool
}.

Definition subscriberCap : Z := 100.

(** The reader; [stopChan] is [true] once the stop channel is closed and
    [subscribers] holds channel addresses. Its [manager] is the shared
    manager of the [World] below. *)
Record Reader : Type := mkReader {
  r_portName : string;
  r_sessionID : string;
  bufferSize : Z;
  running : bool;
  stopChan : bool;
  subscribers : list nat
}.

Definition NewReader (portName sessionID : string) (bufSize : Z) : Reader :=
  mkReader portName sessionID (if bufSize <=? 0 then 1024 else bufSize)
           false false [].

Definition bind {A B : Type} (x : outcome A) (k : A → outcome B) : outcome B :=
  match x with
  | Returns a => k a
  | Panics msg => Panics msg
  end.

(** [close(ch)] *)
Definition close_chan (ec : gmap nat EventChan) (ch : nat)
    : outcome (gmap nat EventChan) :=
  match ec !! ch with
  | None => Panics "close of nil channel"
  | Some c =>
    if ch_closed c then Panics "close of closed channel"
    else Returns (<[ch := mkChan (queue c) true]> ec)
  end.

Fixpoint close_chans (ec : gmap nat EventChan) (chs : list nat)
    : outcome (gmap nat EventChan) :=
  match chs with
  | [] => Returns ec
  | ch :: rest => bind (close_chan ec ch) (fun ec' => close_chans ec' rest)
  end.

(** [select { case ch <- event: default: }]: the send goes through when the
    buffer has room, is dropped when it is full or the channel is [nil],
    and panics on a closed channel. *)
Definition try_send (event : DataEvent) (ec : gmap nat EventChan) (ch : nat)
    : outcome (gmap nat EventChan) :=
  match ec !! ch with
  | None => Returns ec
  | Some c =>
    if ch_closed c then Panics "send on closed channel"
    else if Z.of_nat (length (queue c)) <? subscriberCap
         then Returns (<[ch := mkChan (queue c ++ [event]) false]> ec)
         else Returns ec
  end.

Fixpoint broadcast_to (event : DataEvent) (ec : gmap nat EventChan)
    (chs : list nat) : outcome (gmap nat EventChan) :=
  match chs with
  | [] => Returns ec
  | ch :: rest => bind (try_send event ec ch) (fun ec' => broadcast_to event ec' rest)
  end.

Definition broadcast (r : Reader) (event : DataEvent) (ec : gmap nat EventChan)
    : outcome (gmap nat EventChan) :=
  broadcast_to event ec (subscribers r).

Definition Stop (r : Reader) (ec : gmap nat EventChan)
    : outcome (Reader * gmap nat EventChan) :=
  if negb (running r) then Returns (r, ec)
  else if stopChan r then Panics "close of closed channel"
  else bind (close_chans ec (subscribers r)) (fun ec' =>
         Returns (mkReader (r_portName r) (r_sessionID r) (bufferSize r)
                           false true [], ec')).

Definition Subscribe (r : Reader) (ec : gmap nat EventChan)
    : Reader * gmap nat EventChan * nat :=
  let ch := fresh (dom ec) in
  (mkReader (r_portName r) (r_sessionID r) (bufferSize r) (running r)
            (stopChan r) (subscribers r ++ [ch]),
   <[ch := mkChan [] false]> ec, ch).

(** The subscribers left by [Unsubscribe]: the first occurrence is removed. *)
Fixpoint remove_first (ch : nat) (subs : list nat) : option (list nat) :=
  match subs with
  | [] => None
  | sub :: rest =>
    if decide (sub = ch) then Some rest
    else match remove_first ch rest with
         | Some rest' => Some (sub :: rest')
         | None => None
         end
  end.

Definition Unsubscribe (r : Reader) (ec : gmap nat EventChan) (ch : nat)
    : outcome (Reader * gmap nat EventChan) :=
  match remove_first ch (subscribers r) with
  | None => Returns (r, ec)
  | Some subs =>
    bind (close_chan ec ch) (fun ec' =>
      Returns (mkReader (r_portName r) (r_sessionID r) (bufferSize r)
                        (running r) (stopChan r) subs, ec'))
  end.

Definition IsRunning (r : Reader) : bool := running r.

(** The goroutine that runs [readLoop]. *)
Inductive LoopStatus : Type :=
  | NotStarted
  | Looping
  | Exited.

(** What [time.Sleep] was asked for, in nanoseconds. *)
Definition Millisecond : Z := 1000000.

(** One reader with what it shares with its environment: the manager, the
    subscriber channels [echans], the context ([ctx_done] once
    [ctx.Done()] is closed); the goroutine of [readLoop] with its local
    [sequence]; and, for the statements, the pauses taken ([slept], latest
    first), the events handed to [broadcast] ([broadcasts], in order), what
    each subscriber took from its channel ([received], in order of receipt)
    and the panic that ended the process, if any. *)
Record World : Type := mkWorld {
  mgr : Manager;
  rdr : Reader;
  echans : gmap nat EventChan;
  ctx_done : bool;
  loop : LoopStatus;
  sequence : Z;
  slept : list Z;
  broadcasts : list DataEvent;
  received : list (nat * DataEvent);
  panicked : option string
}.

Definition NewWorld (m : Manager) (r : Reader) : World :=
  mkWorld m r ∅ false NotStarted 0 [] [] [] None.

Definition crash (w : World) (msg : string) : World :=
  mkWorld (mgr w) (rdr w) (echans w) (ctx_done w) (loop w) (sequence w)
          (slept w) (broadcasts w) (received w) (Some msg).

Definition with_mgr (w : World) (m : Manager) : World :=
  mkWorld m (rdr w) (echans w) (ctx_done w) (loop w) (sequence w)
          (slept w) (broadcasts w) (received w) (panicked w).

Definition with_reader (w : World) (r : Reader) (ec : gmap nat EventChan) : World :=
  mkWorld (mgr w) r ec (ctx_done w) (loop w) (sequence w)
          (slept w) (broadcasts w) (received w) (panicked w).

Definition with_loop (w : World) (l : LoopStatus) : World :=
  mkWorld (mgr w) (rdr w) (echans w) (ctx_done w) l (sequence w)
          (slept w) (broadcasts w) (received w) (panicked w).

(** [Start]: spawns the goroutine with [sequence] at zero. *)
Definition Start (w : World) : World * option error :=
  if running (rdr w) then (w, None)
  else match ValidateSession (mgr w) (r_portName (rdr w)) (r_sessionID (rdr w)) with
       | inr err => (w, Some err)
       | inl _ =>
         let r := rdr w in
         (mkWorld (mgr w)
                  (mkReader (r_portName r) (r_sessionID r) (bufferSize r) true
                            (stopChan r) (subscribers r))
                  (echans w) (ctx_done w) Looping 0 (slept w) (broadcasts w) (received w)
                  (panicked w),
          None)
       end.

(** [r.Stop(); return] inside the loop. *)
Definition stop_and_return (w : World) : World :=
  match Stop (rdr w) (echans w) with
  | Panics msg => crash w msg
  | Returns (r, ec) => with_loop (with_reader w r ec) Exited
  end.

Definition is_fatal (err : error) : bool :=
  match err with
  | ErrPortClosed | ErrInvalidSession => true
  | _ => false
  end.

(** One turn of the [for r.running.Load()] loop of [readLoop]: the test,
    the [select] and, in its [default] case, the read. [pick_ctx] is the
    choice [select] makes when both channels are ready, [env] what the
    transport answers to the read, [now] the clock. *)
Definition readLoop_turn (w : World) (pick_ctx : bool) (env : ReadEnv) (now : Z)
    : World :=
  if negb (running (rdr w)) then with_loop w Exited
  else if ctx_done w && (negb (stopChan (rdr w)) || pick_ctx) then stop_and_return w
  else if stopChan (rdr w) then with_loop w Exited
  else
    match Read (mgr w) (r_portName (rdr w)) (r_sessionID (rdr w))
               (bufferSize (rdr w)) env with
    | (_, Panics msg) => crash w msg
    | (m, Returns (data, err)) =>
      let w := with_mgr w m in
      if match err with None => true | Some _ => false end && (len data =? 0) then w
      else
        let sequence' := AddUint32 (sequence w) 1 in
        let event := mkEvent data now sequence' err in
        match broadcast (rdr w) event (echans w) with
        | Panics msg => crash w msg
        | Returns ec =>
          let w := mkWorld (mgr w) (rdr w) ec (ctx_done w) (loop w) sequence'
                           (slept w) (broadcasts w ++ [event]) (received w)
                           (panicked w) in
          match err with
          | None => w
          | Some err =>
            if is_fatal err then stop_and_return w
            else mkWorld (mgr w) (rdr w) (echans w) (ctx_done w) (loop w)
                         (sequence w) (10 * Millisecond :: slept w)
                         (broadcasts w)
                         (received w) (panicked w)
          end
        end
    end.

(** [event, ok := <-ch] by the subscriber holding [ch]: the oldest waiting
    event is taken; nothing is taken from an empty channel. *)
Definition receive (w : World) (ch : nat) : World :=
  match echans w !! ch with
  | Some (mkChan (event :: rest) cl) =>
    mkWorld (mgr w) (rdr w) (<[ch := mkChan rest cl]> (echans w)) (ctx_done w)
            (loop w) (sequence w) (slept w) (broadcasts w) (received w ++ [(ch, event)])
            (panicked w)
  | _ => w
  end.

(** What happens during a run of the reader, that is during the life of the
    goroutine spawned by one [Start]: turns of its loop, calls on the
    reader by its clients ([Start] on a running reader returns at once and
    is left out), the cancellation of its context, receipts by the
    subscribers, and calls on the shared manager. A turn of the loop is
    taken as one step. *)
Inductive happening : Type :=
  | Turn (pick_ctx : bool) (env : ReadEnv) (now : Z)
  | DoSubscribe
  | DoUnsubscribe (ch : nat)
  | DoStop
  | Cancel
  | Receive (ch : nat)
  | ManagerCall (op : mgr_op).

Definition step (w : World) (h : happening) : World :=
  match panicked w with
  | Some _ => w
  | None =>
    match h with
    | Turn pick_ctx env now =>
      match loop w with
      | Looping => readLoop_turn w pick_ctx env now
      | _ => w
      end
    | DoSubscribe =>
      let '(r, ec, _) := Subscribe (rdr w) (echans w) in with_reader w r ec
    | DoUnsubscribe ch =>
      match Unsubscribe (rdr w) (echans w) ch with
      | Panics msg => crash w msg
      | Returns (r, ec) => with_reader w r ec
      end
    | DoStop =>
      match Stop (rdr w) (echans w) with
      | Panics msg => crash w msg
      | Returns (r, ec) => with_reader w r ec
      end
    | Cancel =>
      mkWorld (mgr w) (rdr w) (echans w) true (loop w) (sequence w)
              (slept w) (broadcasts w) (received w) (panicked w)
    | Receive ch => receive w ch
    | ManagerCall op => with_mgr w (apply_op (mgr w) op)
    end
  end.

Definition run (w : World) (hs : list happening) : World := foldl step w hs.

(** The sequence numbers a subscriber has received, in order of receipt. *)
Definition received_by (ch : nat) (w : World) : list Z :=
  (fun x => Sequence x.2) <$> filter (fun x => x.1 = ch) (received w).

(** ** Line reader *)

Record LineReader : Type := mkLineReader {
  lr_reader : Reader;
  delimiter : Byte.byte;
  buffer : slice;
  maxLine : Z
}.

Definition NewLineReader (reader : Reader) (delim : Byte.byte) (maxLineSize : Z)
    : LineReader :=
  mkLineReader reader delim (Some [])
               (if maxLineSize <=? 0 then 4096 else maxLineSize).

Definition with_buffer (lr : LineReader) (b : slice) : LineReader :=
  mkLineReader (lr_reader lr) (delimiter lr) b (maxLine lr).

(** The first [i] with [buf[i] == delim], as found by the [range] loop. *)
Fixpoint index_of (delim : Byte.byte) (buf : list Byte.byte) : option nat :=
  match buf with
  | [] => None
  | b :: rest =>
    if Byte.eqb b delim then Some 0%nat
    else match index_of delim rest with
         | Some i => Some (S i)
         | None => None
         end
  end.

(** The [return] statement by which [ReadLine] left. *)
Inductive exit_point : Type :=
  | AtDelimiter   (* a complete line, the normal path *)
  | AtClose       (* the channel reported closed *)
  | AtError       (* an event carried an error *)
  | AtOverflow.   (* the buffer outgrew [maxLine] *)

(** [ReadLine]: [pending] are the events the channel will deliver, in
    order, and [chan_closed] tells whether it is closed behind them. The
    result is the reader, the events not yet taken, and what was returned;
    [None] when the receive blocks on an empty open channel. *)
Fixpoint ReadLine (lr : LineReader) (pending : list DataEvent) (chan_closed : bool)
    : LineReader * list DataEvent * option (slice * option error * exit_point) :=
  match index_of (delimiter lr) (elems (buffer lr)) with
  | Some i =>
    (with_buffer lr (Some (drop (S i) (elems (buffer lr)))), pending,
     Some (Some (take i (elems (buffer lr))), None, AtDelimiter))
  | None =>
    match pending with
    | [] =>
      if chan_closed then
        if len (buffer lr) >? 0
        then (with_buffer lr None, [], Some (buffer lr, None, AtClose))
        else (lr, [], Some (None, Some ErrPortClosed, AtClose))
      else (lr, [], None)
    | event :: rest =>
      match Error event with
      | Some err => (lr, rest, Some (None, Some err, AtError))
      | None =>
        let buf := append (buffer lr) (Data event) in
        if len buf >? maxLine lr
        then (with_buffer lr None, rest, Some (buf, None, AtOverflow))
        else ReadLine (with_buffer lr buf) rest chan_closed
      end
    end
  end.

(** ** Scanner *)

Inductive PortType : Type :=
  | PortTypeUnknown
  | PortTypeUSB
  | PortTypeNative
  | PortTypeBluetooth
  | PortTypeVirtual.

Definition PortType_String (p : PortType) : string :=
  match p with
  | PortTypeUSB => "USB"
  | PortTypeNative => "Native"
  | PortTypeBluetooth => "Bluetooth"
  | PortTypeVirtual => "Virtual"
  | PortTypeUnknown => "Unknown"
  end.

Record PortInfo : Type := mkPortInfo {
  Name : string;
  Description : string;
  HardwareID : string;
  Manufacturer : string;
  Product : string;
  SerialNumber : string;
  VID : string;
  PID : string;
  PortTypeOf : PortType;
  IsOpen : bool;
  LockedBy : string
}.

#[global] Instance PortInfo_inhabited : Inhabited PortInfo :=
  populate (mkPortInfo "" "" "" "" "" "" "" "" PortTypeUnknown false "").

(** A descriptor of [enumerator.GetDetailedPortsList]. *)
Record PortDetails : Type := mkPortDetails {
  pd_Name : string;
  pd_IsUSB : bool;
  pd_VID : string;
  pd_PID : string;
  pd_SerialNumber : string;
  pd_Product : string
}.

(** The scanner; a compiled pattern is kept as its source text. Its
    [manager] pointer is an argument of [Scan] ([None] for [nil]). *)
Record Scanner : Type := mkScanner {
  excludePatterns : list string;
  cachedPorts : list PortInfo
}.

(** [sort.Slice]'s [less] in [Scan], and Go's [<] on strings: byte-wise
    lexicographic. *)
Definition less_by_name (a b : PortInfo) : bool := String.ltb (Name a) (Name b).

(** [portsEqual] *)
Definition portsEqual (a b : list PortInfo) : bool :=
  if negb (length a =? length b)%nat then false
  else forallb (fun i =>
                  negb (negb (String.eqb (Name (a !!! i)) (Name (b !!! i)))
                        || negb (Bool.eqb (IsOpen (a !!! i)) (IsOpen (b !!! i)))))
               (seq 0 (length a)).

Section Scanner.
(** The platform: [runtime.GOOS], [regexp] ([Compile] fails on some
    patterns, [MatchString] decides a match) and [sort.Slice]. *)
Variable GOOS : string.
Variable regexp_Compile : string → option error.
Variable regexp_MatchString : string → string → bool.
Variable sort_Slice : (PortInfo → PortInfo → bool) → list PortInfo → list PortInfo.

Fixpoint compile_all (patterns : list string) : list string + error :=
  match patterns with
  | [] => inl []
  | pattern :: rest =>
    match regexp_Compile pattern with
    | Some err => inr err
    | None => match compile_all rest with
              | inr err => inr err
              | inl res => inl (pattern :: res)
              end
    end
  end.

Definition NewScanner (patterns : list string) : Scanner + error :=
  match compile_all patterns with
  | inr err => inr err
  | inl res => inl (mkScanner res [])
  end.

Definition isExcluded (s : Scanner) (name : string) : bool :=
  existsb (fun pattern => regexp_MatchString pattern name) (excludePatterns s).

Definition detectPortType (port : PortDetails) : PortType :=
  if pd_IsUSB port then PortTypeUSB
  else if
    (if String.eqb GOOS "windows"
     then regexp_MatchString "(?i)bluetooth|bth" (pd_Name port)
     else if String.eqb GOOS "linux"
     then regexp_MatchString "/dev/rfcomm" (pd_Name port)
     else if String.eqb GOOS "darwin"
     then regexp_MatchString "/dev/.*Bluetooth" (pd_Name port)
     else false)
  then PortTypeBluetooth
  else if String.eqb GOOS "linux"
          && regexp_MatchString "/dev/pts/|/dev/pty" (pd_Name port)
  then PortTypeVirtual
  else PortTypeNative.

Definition buildDescription (port : PortDetails) : string :=
  if negb (String.eqb (pd_Product port) "") then pd_Product port
  else if pd_IsUSB port then "USB Serial Device"
  else "Serial Port".

(** The [PortInfo] built for one descriptor in the loop of [Scan]. *)
Definition port_info (m : option Manager) (port : PortDetails) : PortInfo :=
  let session :=
    match m with
    | None => None
    | Some mg => GetSession mg (pd_Name port)
    end in
  {| Name := pd_Name port;
     Description := buildDescription port;
     HardwareID :=
       if negb (String.eqb (pd_VID port) "") && negb (String.eqb (pd_PID port) "")
       then "USB\VID_" +:+ pd_VID port +:+ "&PID_" +:+ pd_PID port
       else "";
     Manufacturer := "";
     Product := pd_Product port;
     SerialNumber := pd_SerialNumber port;
     VID := pd_VID port;
     PID := pd_PID port;
     PortTypeOf := detectPortType port;
     IsOpen := match session with Some _ => true | None => false end;
     LockedBy :=
       match m, session with
       | Some mg, Some p => ClientID (deref mg p)
       | _, _ => ""
       end |}.

(** [Scan]; [enum] is what [enumerator.GetDetailedPortsList()] returns.
    A [nil] and an empty result slice are both the empty list. *)
Definition Scan (s : Scanner) (m : option Manager)
    (enum : list PortDetails + error) : Scanner * (list PortInfo + error) :=
  match enum with
  | inr err => (s, inr err)
  | inl ports =>
    let result :=
      port_info m <$> filter (fun port => isExcluded s (pd_Name port) = false) ports in
    let result := sort_Slice less_by_name result in
    (mkScanner (excludePatterns s) result, inl result)
  end.

Definition GetCached (s : Scanner) : list PortInfo := cachedPorts s.

Definition GetPort (s : Scanner) (m : option Manager)
    (enum : list PortDetails + error) (name : string)
    : Scanner * (PortInfo + error) :=
  match Scan s m enum with
  | (s', inr err) => (s', inr err)
  | (s', inl ports) =>
    match find (fun port => String.eqb (Name port) name) ports with
    | Some port => (s', inl port)
    | None => (s', inr ErrPortNotFound)
    end
  end.

(** *** Watching for changes *)

(** A goroutine started by [WatchPorts]: its stop channel, the interval
    of its ticker, its [lastPorts], and whether it has returned. *)
Record Watcher : Type := mkWatcher {
  w_stop : nat;
  w_interval : Z;
  lastPorts : list PortInfo;
  w_returned : bool
}.

(** The scanner, the manager it consults, the stop channels made so far
    (with their closed flag), the goroutines started so far, and for the
    statements the scans made and the callbacks invoked, each under the
    stop channel of the [WatchPorts] call it belongs to. *)
Record ScanWorld : Type := mkScanWorld {
  scanner : Scanner;
  smanager : option Manager;
  stops : gmap nat bool;
  watchers : list Watcher;
  scanned : list nat;
  called : list (nat * list PortInfo)
}.

Definition NewScanWorld (s : Scanner) (m : option Manager) : ScanWorld :=
  mkScanWorld s m ∅ [] [] [].

Definition WatchPorts (sw : ScanWorld) (interval : Z) : ScanWorld * nat :=
  let stop := fresh (dom (stops sw)) in
  if interval <=? 0
  then (mkScanWorld (scanner sw) (smanager sw) (<[stop := false]> (stops sw))
                    (watchers sw) (scanned sw) (called sw), stop)
  else (mkScanWorld (scanner sw) (smanager sw) (<[stop := false]> (stops sw))
                    (watchers sw ++ [mkWatcher stop interval [] false])
                    (scanned sw) (called sw), stop).

(** One pass of the [select] of watcher [i]. [tick] tells whether the
    ticker has fired, [pick_stop] is the choice made when both cases
    are ready, [enum] what the enumerator answers to the scan. *)
Definition watch_turn (sw : ScanWorld) (i : nat) (tick pick_stop : bool)
    (enum : list PortDetails + error) : ScanWorld :=
  match watchers sw !! i with
  | None => sw
  | Some wt =>
    if w_returned wt then sw
    else
      let stop_ready := default false (stops sw !! w_stop wt) in
      if stop_ready && (negb tick || pick_stop) then
        mkScanWorld (scanner sw) (smanager sw) (stops sw)
                    (<[i := mkWatcher (w_stop wt) (w_interval wt) (lastPorts wt) true]>
                       (watchers sw))
                    (scanned sw) (called sw)
      else if negb tick then sw
      else
        match Scan (scanner sw) (smanager sw) enum with
        | (s, inr _) =>
          mkScanWorld s (smanager sw) (stops sw) (watchers sw)
                      (scanned sw ++ [w_stop wt]) (called sw)
        | (s, inl ports) =>
          if negb (portsEqual (lastPorts wt) ports) then
            mkScanWorld s (smanager sw) (stops sw)
                        (<[i := mkWatcher (w_stop wt) (w_interval wt) ports false]>
                           (watchers sw))
                        (scanned sw ++ [w_stop wt])
                        (called sw ++ [(w_stop wt, ports)])
          else
            mkScanWorld s (smanager sw) (stops sw) (watchers sw)
                        (scanned sw ++ [w_stop wt]) (called sw)
        end
  end.

(** What happens around a scanner. *)
Inductive scan_happening : Type :=
  | WatchTurn (i : nat) (tick pick_stop : bool) (enum : list PortDetails + error)
  | CloseStop (stop : nat)
  | CallWatchPorts (interval : Z)
  | CallScan (enum : list PortDetails + error)
  | ScanManagerCall (op : mgr_op).

Definition scan_step (sw : ScanWorld) (h : scan_happening) : ScanWorld :=
  match h with
  | WatchTurn i tick pick_stop enum => watch_turn sw i tick pick_stop enum
  | CloseStop stop =>
    mkScanWorld (scanner sw) (smanager sw) (<[stop := true]> (stops sw))
                (watchers sw) (scanned sw) (called sw)
  | CallWatchPorts interval => (WatchPorts sw interval).1
  | CallScan enum =>
    mkScanWorld (Scan (scanner sw) (smanager sw) enum).1 (smanager sw)
                (stops sw) (watchers sw) (scanned sw) (called sw)
  | ScanManagerCall op =>
    mkScanWorld (scanner sw) ((fun m => apply_op m op) <$> smanager sw) (stops sw)
                (watchers sw) (scanned sw) (called sw)
  end.

Definition scan_run (sw : ScanWorld) (hs : list scan_happening) : ScanWorld :=
  foldl scan_step sw hs.

(** Every goroutine, scan and callback recorded so far belongs to a stop
    channel made so far. *)
Definition tagged (sw : ScanWorld) : Prop :=
  Forall (fun wt => w_stop wt ∈ dom (stops sw)) (watchers sw)
  ∧ Forall (fun t => t ∈ dom (stops sw)) (scanned sw)
  ∧ Forall (fun c => c.1 ∈ dom (stops sw)) (called sw).

(** Nothing recorded belongs to the stop channel [stop], which exists. *)
Definition silent (stop : nat) (sw : ScanWorld) : Prop :=
  stop ∈ dom (stops sw)
  ∧ Forall (fun wt => w_stop wt ≠ stop) (watchers sw)
  ∧ Forall (fun t => t ≠ stop) (scanned sw)
  ∧ Forall (fun c => c.1 ≠ stop) (called sw).
End Scanner.

(** ** The contract of [sort.Slice] *)

(** What [sort.Slice] asks of [less]: a strict weak ordering. *)
Record strict_weak_order {A : Type} (less : A → A → bool) : Prop := {
  swo_irrefl : ∀ a, less a a = false;
  swo_trans : ∀ a b c, less a b = true → less b c = true → less a c = true;
  swo_incomparable :
    ∀ a b c, less a b = false → less b c = false → less a c = false
}.

(** The order in which a sorted slice stands: no element is less than one
    before it. *)
Definition not_after {A : Type} (less : A → A → bool) (a b : A) : Prop :=
  less b a = false.

#[global] Instance not_after_dec {A : Type} (less : A → A → bool) (a b : A) :
  Decision (not_after less a b) := bool_eq_dec (less b a) false.

(** One sorting function that meets the contract (merge sort). *)
Definition sort_by (less : PortInfo → PortInfo → bool) (l : list PortInfo)
    : list PortInfo :=
  merge_sort (not_after less) l.

(** Ascending by name: [a] stands before [b] only if [a.Name <= b.Name]. *)
Definition name_le (a b : PortInfo) : Prop := String.leb (Name a) (Name b) = true.

(** What [portsEqual] looks at. *)
Definition watch_key (p : PortInfo) : string * bool := (Name p, IsOpen p).

(** Two ports as the enumerator may list them, in either order. *)
Definition com1 : PortDetails := mkPortDetails "COM1" false "" "" "" "".
Definition com3 : PortDetails := mkPortDetails "COM3" true "0403" "6001" "A1" "FT232R".
Definition no_match (pattern name : string) : bool := false.
Definition compiles (pattern : string) : option error := None.

(** Whether the manager (if any) has a session under a name. *)
Definition is_open (m : option Manager) (name : string) : bool :=
  match m with
  | None => false
  | Some mg => match GetSession mg name with Some _ => true | None => false end
  end.

(** ** Invariants of the registry *)

(** Every entry of the table by name points to an allocated session that
    carries that name. *)
Definition wf (m : Manager) : Prop :=
  ∀ name p, sessions m !! name = Some p →
    ∃ s, heap m !! p = Some s ∧ PortName s = name.

(** The identifiers of all sessions ever made are among [issued] and
    pairwise distinct. *)
Definition ids_issued (issued : list string) (m : Manager) : Prop :=
  ∀ p s, heap m !! p = Some s → ID s ∈ issued.

Definition ids_distinct (m : Manager) : Prop :=
  ∀ p q s t, heap m !! p = Some s → heap m !! q = Some t → ID s = ID t → p = q.

(** No session registered under any name has identifier [sessionID]. *)
Definition stale (sessionID : string) (m : Manager) : Prop :=
  ∀ name p, sessions m !! name = Some p → ID (deref m p) ≠ sessionID.

(** What never changes in a session. *)
Definition key (s : Session) : string * string := (ID s, PortName s).

(** A transition that allocates no session and registers none. *)
Definition quiet (m m' : Manager) : Prop :=
  (∀ p, key <$> heap m' !! p = key <$> heap m !! p)
  ∧ sessions m' ⊆ sessions m.

(** The identifiers the generator hands out during [ops]. *)
Definition uuids (ops : list mgr_op) : list string := omap op_uuid ops.

(** ** Invariants of a reader *)

(** The closed flag of a channel, if the channel exists. *)
Definition flag (ec : gmap nat EventChan) (ch : nat) : option bool :=
  ch_closed <$> ec !! ch.

(** The reader lists no channel twice and only open channels. *)
Definition subscribers_open (w : World) : Prop :=
  NoDup (subscribers (rdr w))
  ∧ ∀ ch, ch ∈ subscribers (rdr w) → flag (echans w) ch = Some false.

(** The turns of the loop among some happenings. *)
Definition is_turn (h : happening) : bool :=
  match h with
  | Turn _ _ _ => true
  | _ => false
  end.

Definition turns (hs : list happening) : Z :=
  Z.of_nat (length (filter (fun h => is_turn h = true) hs)).

(** The sequence numbers waiting in a channel, oldest first. *)
Definition waiting (w : World) (ch : nat) : list Z :=
  Sequence <$> default [] (queue <$> echans w !! ch).

(** All the sequence numbers ever put into a channel and not dropped: those
    its subscriber has received, then those still waiting. *)
Definition stream (w : World) (ch : nat) : list Z :=
  received_by ch w ++ waiting w ch.

(** Every such stream increases strictly and stays below the counter. *)
Definition ordered (w : World) : Prop :=
  ∀ ch, StronglySorted Z.lt (stream w ch)
        ∧ Forall (fun x => x ≤ sequence w) (stream w ch).

(** The sequence number of the [k]-th event of a run. *)
Definition nth_sequence (k : nat) : Z := uint32 (Z.of_nat k).

(** [n] times: the loop reads one byte, then the subscriber of channel 0
    takes the event. *)
Fixpoint cycles (n : nat) (env : ReadEnv) (now : Z) : list happening :=
  match n with
  | O => []
  | S n' => Turn false env now :: Receive 0%nat :: cycles n' env now
  end.

(** ** Sample states *)

Definition env_ok (uuid : string) (t : Z) : OpenEnv :=
  mkOpenEnv None 3%nat None uuid t t.

(** A manager with one exclusive session [s-1] of [alice] on [COM1]. *)
Definition m_excl : Manager :=
  (OpenPort (NewManager true DefaultConfig) "COM1" DefaultConfig "alice" true
            (env_ok "s-1" 100)).1.

(** A manager with one shared session [s-1] of [alice] on [COM1]. *)
Definition m_shared : Manager :=
  (OpenPort (NewManager true DefaultConfig) "COM1" DefaultConfig "alice" false
            (env_ok "s-1" 100)).1.

Definition bad_baud : PortConfig :=
  mkPortConfig 0 8 StopBits1 ParityNone FlowControlNone 1000 1000.

(** ** Sample runs *)

(** A reader on the session [s-1] of [m_excl] with one subscriber (channel
    0), started. *)
Definition w_started : World :=
  (Start (step (NewWorld m_excl (NewReader "COM1" "s-1" 0)) DoSubscribe)).1.

(** The same after the port was closed and opened again by [bob]: the
    identifier of the reader is no longer the one of the port. *)
Definition w_reopened : World :=
  run w_started
      [ManagerCall (OpClosePort "COM1" "s-1" None);
       ManagerCall (OpOpenPort "COM1" DefaultConfig "bob" true
                               (mkOpenEnv None 4%nat None "s-2" 200 200))].

(** The same after the port was closed and not opened again. *)
Definition w_closed : World :=
  run w_started [ManagerCall (OpClosePort "COM1" "s-1" None)].

Definition nothing_read : ReadEnv := mkReadEnv [] None 300.
Definition one_byte : ReadEnv := mkReadEnv [Byte.x41] None 300.
Definition glitch : ReadEnv := mkReadEnv [] (Some (ErrHardware "framing error")) 300.

(** The events of a run carry the numbers 1, 2, 3, ... modulo 2^32, and
    the counter holds the last one. *)
Definition numbered (w : World) : Prop :=
  sequence w = nth_sequence (length (broadcasts w))
  ∧ Sequence <$> broadcasts w = nth_sequence <$> seq 1 (length (broadcasts w)).

(** The run that takes the counter once around: 2^32 reads of one byte,
    each event taken by the subscriber before the next read. *)
Definition once_around : list happening :=
  cycles (Z.to_nat (2 ^ 32)) one_byte 300.

(** A line reader that holds two lines, [ab] and [cd], with a line feed
    between them. *)
Definition lr_two_lines : LineReader :=
  mkLineReader (NewReader "COM1" "s-1" 0) Byte.x0a
               (Some [Byte.x61; Byte.x62; Byte.x0a; Byte.x63; Byte.x64]) 4096.

(** A line reader that holds the unfinished line [cd]. *)
Definition lr_partial : LineReader :=
  mkLineReader (NewReader "COM1" "s-1" 0) Byte.x0a (Some [Byte.x63; Byte.x64]) 4096.

Definition fast_config : PortConfig :=
  mkPortConfig 115200 8 StopBits1 ParityNone FlowControlNone 500 500.

(** The state in which the run of [once_around] finds itself before each
    read: the reader of [w_started] at work, its one channel empty. *)
Definition cycling (w : World) : Prop :=
  panicked w = None ∧ loop w = Looping ∧ rdr w = rdr w_started
  ∧ ctx_done w = false ∧ echans w = {[0%nat := mkChan [] false]}
  ∧ ValidateSession (mgr w) "COM1" "s-1" = inl 0%nat.

(** ** Elementary changes of the registry *)

(** What one call can do to the registry: rewrite the statistics, the
    configuration or the reader list of the session it validated, close
    and unregister the session under a name, or open a session.
    [CloseAll] is a sequence of such changes. *)
Inductive alters : Manager → Manager → Prop :=
  | alters_statistics (m : Manager) (portName sessionID : string) (p : nat)
        (st : PortStatistics) :
      ValidateSession m portName sessionID = inl p →
      OpenedAt st = OpenedAt (Statistics (deref m p)) →
      alters m (update m p (fun s => with_Statistics s st))
  | alters_config (m : Manager) (portName sessionID : string) (p : nat)
        (config : PortConfig) :
      ValidateSession m portName sessionID = inl p →
      Validate config = None →
      alters m (update m p (fun s => with_Config s config))
  | alters_readers (m : Manager) (portName sessionID : string) (p : nat) :
      ValidateSession m portName sessionID = inl p →
      alters m (SubscribeToReads m portName sessionID).1
  | alters_closed (m : Manager) (portName : string) (p : nat)
        (close_err : option error) :
      sessions m !! portName = Some p →
      alters m (closeSessionLocked m p close_err).1
  | alters_opened (m : Manager) (portName : string) (config : PortConfig)
        (clientID : string) (exclusive : bool) (env : OpenEnv) (m' : Manager)
        (p : nat) :
      OpenPort m portName config clientID exclusive env = (m', inl p) →
      alters m m'.

(** No session registered under a name has been closed. *)
Definition registered_open (m : Manager) : Prop :=
  ∀ name p, sessions m !! name = Some p → closed (deref m p) = false.

(** No name leads to the session at [p]. *)
Definition unregistered (p : nat) (m : Manager) : Prop :=
  ∀ name, sessions m !! name ≠ Some p.

(** The table by identifier holds every session the table by name holds,
    and only open sessions, each under its own identifier. *)
Definition by_id_ok (m : Manager) : Prop :=
  (∀ name p, sessions m !! name = Some p →
     sessionsByID m !! ID (deref m p) = Some p)
  ∧ (∀ id p, sessionsByID m !! id = Some p →
       ∃ s, heap m !! p = Some s ∧ ID s = id ∧ closed s = false).

(** What is fixed when a session is made. *)
Definition identity (s : Session) : string * string * string * bool * nat * Z :=
  (ID s, PortName s, ClientID s, Exclusive s, port s, OpenedAt (Statistics s)).

(** Every stored configuration passes [Validate]. *)
Definition configs_valid (m : Manager) : Prop :=
  ∀ p s, heap m !! p = Some s → Validate (Config s) = None.

(** The port an operation is addressed to; [CloseAll] has none. *)
Definition op_port (op : mgr_op) : option string :=
  match op with
  | OpOpenPort portName _ _ _ _ => Some portName
  | OpClosePort portName _ _ => Some portName
  | OpWrite portName _ _ _ => Some portName
  | OpRead portName _ _ _ => Some portName
  | OpConfigure portName _ _ _ => Some portName
  | OpCloseAll _ => None
  | OpSubscribeToReads portName _ => Some portName
  end.

(** The reader channels of the sessions: every channel listed by a session
    is open and listed once, and no two sessions list the same channel. *)
Definition readers_ok (m : Manager) : Prop :=
  (∀ p s, heap m !! p = Some s →
     NoDup (readers s) ∧ ∀ ch, ch ∈ readers s → rchans m !! ch = Some false)
  ∧ (∀ p q s t ch, heap m !! p = Some s → heap m !! q = Some t →
       ch ∈ readers s → ch ∈ readers t → p = q).

(** The channel [ch] belongs to the session at [p]: it is closed exactly
    if the session is, and listed by the session until then. *)
Definition channel_of (ch p : nat) (m : Manager) : Prop :=
  ∃ s, heap m !! p = Some s ∧ rchans m !! ch = Some (closed s)
       ∧ (closed s = false → ch ∈ readers s).


(** ** Further invariants of a reader *)

(** What keeps a reader from panicking: its subscribers are open channels,
    its buffer size is positive, and its stop channel is closed only once
    it no longer runs; before [Start] the stop channel is open. *)
Definition sound (w : World) : Prop :=
  panicked w = None ∧ subscribers_open w ∧ 0 < bufferSize (rdr w)
  ∧ (stopChan (rdr w) = true → running (rdr w) = false)
  ∧ (loop w = NotStarted → stopChan (rdr w) = false ∧ running (rdr w) = false).

(** The events waiting in a channel, oldest first. *)
Definition queue_of (w : World) (ch : nat) : list DataEvent :=
  default [] (queue <$> echans w !! ch).

(** The events a subscriber has taken from its channel, in order. *)
Definition taken_by (ch : nat) (w : World) : list DataEvent :=
  (filter (fun x => x.1 = ch) (received w)).*2.

(** All the events that went into a channel: taken, then waiting. *)
Definition events_of (w : World) (ch : nat) : list DataEvent :=
  taken_by ch w ++ queue_of w ch.

(** The bytes carried by some events, in order. *)
Definition bytes_of (events : list DataEvent) : list Byte.byte :=
  concat ((fun event => elems (Data event)) <$> events).

(** What a return of [ReadLine] accounts for, given the bytes that came in
    ([stream]: the buffer, then the data of the events taken) and the
    buffer left behind. *)
Definition accounted (delim : Byte.byte) (stream left : list Byte.byte)
    (res : option (slice * option error * exit_point)) : Prop :=
  match res with
  | Some (line, None, AtDelimiter) =>
      stream = elems line ++ delim :: left ∧ delim ∉ elems line
  | Some (line, None, _) => stream = elems line ∧ left = []
  | Some (line, Some _, _) => line = None ∧ stream = left
  | None => stream = left
  end.

(** The lists handed to the callback under a stop channel, in order. *)
Definition calls_of (stop : nat) (called : list (nat * list PortInfo))
    : list (list PortInfo) :=
  (filter (fun c => c.1 = stop) called).*2.

(** Each list differs, for [portsEqual], from the one before it, the
    first from [prev]. *)
Fixpoint changes (prev : list PortInfo) (calls : list (list PortInfo)) : Prop :=
  match calls with
  | [] => True
  | ports :: rest => portsEqual prev ports = false ∧ changes ports rest
  end.

(** What the watch loops keep: the goroutines have stop channels of their
    own, each holds in [lastPorts] the list of its latest callback (none
    yet: the [nil] list), and the callbacks under one stop channel each
    report a change. *)
Definition watching (sw : ScanWorld) : Prop :=
  NoDup (w_stop <$> watchers sw)
  ∧ (∀ wt, wt ∈ watchers sw →
       lastPorts wt = default [] (last (calls_of (w_stop wt) (called sw))))
  ∧ ∀ stop, changes [] (calls_of stop (called sw)).

(** A serial port of a Linux machine that a scanner may exclude. *)
Definition ttyS0 : PortDetails := mkPortDetails "/dev/ttyS0" false "" "" "" "".

(** A compiler that accepts every pattern but the empty one. *)
Definition rejects_empty (pattern : string) : option error :=
  if String.eqb pattern "" then Some (ErrHardware "empty pattern") else None.

(** A matcher that takes a pattern for a prefix. *)
Definition prefix_match (pattern name : string) : bool :=
  String.prefix pattern name.

(** * Properties *)


(** ** Opening a port *)

Lemma deref_allocated (m : Manager) (p : nat) (s : Session) :
  heap m !! p = Some s → deref m p = s.
Proof. intros H. unfold deref. by apply lookup_total_correct. Qed.

Lemma session_at_Some (m : Manager) (portName : string) (s : Session) :
  session_at m portName = Some s →
  ∃ p, sessions m !! portName = Some p ∧ heap m !! p = Some s ∧ deref m p = s.
Proof.
  unfold session_at. destruct (sessions m !! portName) as [p|] eqn:E; [|done].
  intros H. exists p. auto using deref_allocated.
Qed.

(** When everything goes well [OpenPort] registers the new session. *)
Lemma OpenPort_success (m : Manager) (portName : string) (config : PortConfig)
    (clientID : string) (exclusive : bool) (env : OpenEnv) (m' : Manager) (p : nat) :
  OpenPort m portName config clientID exclusive env = (m', inl p) →
  Validate config = None
  ∧ p = fresh (dom (heap m))
  ∧ heap m' = <[p := mkSession (new_uuid env) portName clientID exclusive config
                       (mkStats 0 0 0 (now_opened env) (now_activity env))
                       (open_handle env) false []]> (heap m)
  ∧ sessions m' = <[portName := p]> (sessions m)
  ∧ sessionsByID m' = <[new_uuid env := p]> (sessionsByID m)
  ∧ rchans m' = rchans m
  ∧ allowSharedAccess m' = allowSharedAccess m
  ∧ match sessions m !! portName with
    | Some existing =>
        Exclusive (deref m existing) = false ∧ exclusive = false
        ∧ allowSharedAccess m = true
    | None => True
    end.
Proof.
  unfold OpenPort. destruct (Validate config); [done|].
  destruct (sessions m !! portName) as [existing|] eqn:Hex.
  - destruct (Exclusive (deref m existing)) eqn:E1; [done|].
    destruct exclusive; [done|]. destruct (allowSharedAccess m) eqn:E3; [|done].
    simpl. destruct (open_err env); [done|].
    destruct (if ReadTimeoutMs config >? 0 then set_timeout_err env else None); [done|].
    intros [= <- <-]. repeat split; done.
  - destruct (open_err env); [done|].
    destruct (if ReadTimeoutMs config >? 0 then set_timeout_err env else None); [done|].
    intros [= <- <-]. repeat split; done.
Qed.

(** C1, as the code has it: [Validate] comes first, so the lock is only
    reported for a configuration that passes it. For every manager state in
    which a session exists for the port name and every call of [OpenPort]
    on that name with a valid configuration: the call fails with
    [ErrPortLocked] if the existing session is exclusive, or the request is
    exclusive, or shared access is not enabled; in particular an exclusive
    request fails with [ErrPortLocked] whatever the shared-access setting;
    and the call succeeds only when shared access is enabled and neither
    side is exclusive. *)
Theorem OpenPort_locked_when_valid (m : Manager) (portName : string)
    (config : PortConfig) (clientID : string) (exclusive : bool) (env : OpenEnv)
    (existing : Session) :
  session_at m portName = Some existing →
  Validate config = None →
  (Exclusive existing = true ∨ exclusive = true ∨ allowSharedAccess m = false →
     OpenPort m portName config clientID exclusive env = (m, inr ErrPortLocked))
  ∧ (exclusive = true →
     OpenPort m portName config clientID exclusive env = (m, inr ErrPortLocked))
  ∧ (∀ m' p, OpenPort m portName config clientID exclusive env = (m', inl p) →
     allowSharedAccess m = true ∧ Exclusive existing = false ∧ exclusive = false).
Proof.
  intros Hex Hvalid. apply session_at_Some in Hex as (q & Hq & _ & Hderef).
  assert (Hlocked : Exclusive existing = true ∨ exclusive = true
                    ∨ allowSharedAccess m = false →
                    OpenPort m portName config clientID exclusive env
                    = (m, inr ErrPortLocked)).
  { intros Hcond. unfold OpenPort. rewrite Hvalid, Hq, Hderef.
    destruct Hcond as [-> | [-> | ->]]; simpl; [done| |].
    - by rewrite orb_true_r.
    - by rewrite orb_true_r. }
  split; [exact Hlocked|]. split; [auto|].
  intros m' p Hopen. apply OpenPort_success in Hopen as (_ & _ & _ & _ & _ & _ & _ & H).
  rewrite Hq, Hderef in H. tauto.
Qed.

Lemma OpenPort_locked_when_valid_witness :
  session_at m_excl "COM1" <> None
  ∧ OpenPort m_excl "COM1" DefaultConfig "bob" true (env_ok "s-2" 200)
    = (m_excl, inr ErrPortLocked).
Proof.
  split; [by vm_compute|].
  eapply (OpenPort_locked_when_valid m_excl "COM1" DefaultConfig "bob" true
            (env_ok "s-2" 200)).
  - vm_compute. reflexivity.
  - reflexivity.
  - reflexivity.
Defined.

(** C1 as stated fails: on [COM1], held by an exclusive session, an
    exclusive request with baud rate 0 is turned down by [Validate] with
    the baud-rate error, not with [ErrPortLocked]. *)
Lemma OpenPort_locked_counterexample :
  (∃ existing, session_at m_excl "COM1" = Some existing ∧ Exclusive existing = true)
  ∧ (OpenPort m_excl "COM1" bad_baud "bob" true (env_ok "s-2" 200)).2
    = inr (ErrInvalidBaudRate 0)
  ∧ (OpenPort m_excl "COM1" bad_baud "bob" true (env_ok "s-2" 200)).2
    <> inr ErrPortLocked.
Proof.
  split; [|split].
  - eexists. split; [by vm_compute|done].
  - by vm_compute.
  - by vm_compute.
Qed.

(** C2. After a successful [OpenPort], [ValidateSession] with the port name
    and the identifier of the returned session succeeds and returns that
    very session; with any other identifier it fails with
    [ErrInvalidSession]. (A successful open implies a valid configuration.) *)
Theorem OpenPort_then_ValidateSession (m : Manager) (portName : string)
    (config : PortConfig) (clientID : string) (exclusive : bool) (env : OpenEnv)
    (m' : Manager) (p : nat) :
  Validate config = None →
  OpenPort m portName config clientID exclusive env = (m', inl p) →
  ID (deref m' p) = new_uuid env
  ∧ ValidateSession m' portName (ID (deref m' p)) = inl p
  ∧ ∀ other, other ≠ ID (deref m' p) →
      ValidateSession m' portName other = inr ErrInvalidSession.
Proof.
  intros _ Hopen.
  apply OpenPort_success in Hopen as (_ & _ & Hheap & Hsess & _).
  assert (Hd : deref m' p = mkSession (new_uuid env) portName clientID exclusive config
                 (mkStats 0 0 0 (now_opened env) (now_activity env))
                 (open_handle env) false []).
  { apply deref_allocated. rewrite Hheap. apply lookup_insert_eq. }
  unfold ValidateSession. rewrite Hsess, lookup_insert_eq, Hd. simpl.
  split; [done|]. split.
  - by rewrite decide_False by auto.
  - intros other Hne. by rewrite decide_True by auto.
Qed.

Lemma OpenPort_then_ValidateSession_witness :
  ValidateSession m_excl "COM1" "s-1" = inl 0%nat
  ∧ ValidateSession m_excl "COM1" "s-2" = inr ErrInvalidSession.
Proof.
  destruct (OpenPort_then_ValidateSession (NewManager true DefaultConfig) "COM1"
              DefaultConfig "alice" true (env_ok "s-1" 100) m_excl 0%nat)
    as (Hid & Hok & Hother).
  - reflexivity.
  - by vm_compute.
  - split.
    + rewrite Hid in Hok. exact Hok.
    + apply Hother. rewrite Hid. simpl. discriminate.
Defined.

(** ** Preservation of the registry invariants *)

Lemma quiet_refl (m : Manager) : quiet m m.
Proof. split; done. Qed.

Lemma quiet_trans (m1 m2 m3 : Manager) : quiet m1 m2 → quiet m2 m3 → quiet m1 m3.
Proof.
  intros [H1 S1] [H2 S2]. split.
  - intros p. by rewrite H2, H1.
  - by etrans.
Qed.

Lemma quiet_allocated (m m' : Manager) (p : nat) (s : Session) :
  quiet m m' → heap m !! p = Some s →
  ∃ s', heap m' !! p = Some s' ∧ ID s' = ID s ∧ PortName s' = PortName s.
Proof.
  intros [Hk _] Hp. specialize (Hk p). rewrite Hp in Hk.
  destruct (heap m' !! p) as [s'|]; [|done]. exists s'.
  simpl in Hk. unfold key in Hk. injection Hk as H1 H2. done.
Qed.

Lemma quiet_allocated_rev (m m' : Manager) (p : nat) (s' : Session) :
  quiet m m' → heap m' !! p = Some s' →
  ∃ s, heap m !! p = Some s ∧ ID s' = ID s ∧ PortName s' = PortName s.
Proof.
  intros [Hk _] Hp. specialize (Hk p). rewrite Hp in Hk.
  destruct (heap m !! p) as [s|]; [|done]. exists s.
  simpl in Hk. unfold key in Hk. injection Hk as H1 H2. done.
Qed.

Lemma quiet_wf (m m' : Manager) : quiet m m' → wf m → wf m'.
Proof.
  intros Hq Hwf name p Hp.
  destruct (Hwf name p) as (s & Hs & Hn).
  { destruct Hq as [_ Hsub]. eapply lookup_weaken; eauto. }
  destruct (quiet_allocated _ _ _ _ Hq Hs) as (s' & ? & _ & ?).
  exists s'. split; congruence.
Qed.

Lemma quiet_ids_issued (issued : list string) (m m' : Manager) :
  quiet m m' → ids_issued issued m → ids_issued issued m'.
Proof.
  intros Hq Hi p s' Hp.
  destruct (quiet_allocated_rev _ _ _ _ Hq Hp) as (s & Hs & -> & _). eauto.
Qed.

Lemma quiet_ids_distinct (m m' : Manager) :
  quiet m m' → ids_distinct m → ids_distinct m'.
Proof.
  intros Hq Hd p q s' t' Hp Hq' Heq.
  destruct (quiet_allocated_rev _ _ _ _ Hq Hp) as (s & Hs & Es & _).
  destruct (quiet_allocated_rev _ _ _ _ Hq Hq') as (t & Ht & Et & _).
  eapply Hd; eauto. congruence.
Qed.

Lemma quiet_stale (sessionID : string) (m m' : Manager) :
  quiet m m' → wf m → stale sessionID m → stale sessionID m'.
Proof.
  intros Hq Hwf Hst name p Hp.
  assert (Hp0 : sessions m !! name = Some p).
  { destruct Hq as [_ Hsub]. eapply lookup_weaken; eauto. }
  destruct (Hwf name p Hp0) as (s & Hs & _).
  destruct (quiet_allocated _ _ _ _ Hq Hs) as (s' & Hs' & Hid & _).
  rewrite (deref_allocated _ _ _ Hs'), Hid.
  rewrite <- (deref_allocated _ _ _ Hs). eauto.
Qed.

Lemma update_quiet (m : Manager) (p : nat) (f : Session → Session) (s : Session) :
  heap m !! p = Some s → key (f s) = key s → quiet m (update m p f).
Proof.
  intros Hp Hk. split; [|done]. intros q. unfold update. simpl.
  rewrite (deref_allocated _ _ _ Hp).
  destruct (decide (p = q)) as [->|Hne].
  - rewrite lookup_insert_eq, Hp. simpl. by rewrite Hk.
  - by rewrite lookup_insert_ne.
Qed.

Lemma closeSessionLocked_quiet (m : Manager) (p : nat) (e : option error) (s : Session) :
  heap m !! p = Some s → quiet m (closeSessionLocked m p e).1.
Proof.
  intros Hp. split.
  - intros q. simpl. rewrite (deref_allocated _ _ _ Hp).
    destruct (decide (p = q)) as [->|Hne].
    + by rewrite lookup_insert_eq, Hp.
    + by rewrite lookup_insert_ne.
  - simpl. apply delete_subseteq.
Qed.

Lemma ValidateSession_inl (m : Manager) (portName sessionID : string) (p : nat) :
  ValidateSession m portName sessionID = inl p →
  sessions m !! portName = Some p ∧ ID (deref m p) = sessionID
  ∧ closed (deref m p) = false.
Proof.
  unfold ValidateSession. destruct (sessions m !! portName) as [q|]; [|done].
  destruct (decide (ID (deref m q) ≠ sessionID)) as [|Heq]; [done|].
  destruct (closed (deref m q)) eqn:E; [done|].
  intros [= <-]. split; [done|]. split; [|done].
  by destruct (decide (ID (deref m q) = sessionID)).
Qed.

Lemma ValidateSession_allocated (m : Manager) (portName sessionID : string) (p : nat) :
  wf m → ValidateSession m portName sessionID = inl p →
  ∃ s, heap m !! p = Some s ∧ ID s = sessionID ∧ PortName s = portName.
Proof.
  intros Hwf Hv. apply ValidateSession_inl in Hv as (Hp & Hid & _).
  destruct (Hwf _ _ Hp) as (s & Hs & Hn). exists s.
  rewrite (deref_allocated _ _ _ Hs) in Hid. done.
Qed.

Lemma CloseAll_quiet (m : Manager) (close_errs : nat → option error) :
  wf m → quiet m (CloseAll m close_errs).
Proof.
  intros Hwf. unfold CloseAll.
  assert (H : ∀ entries acc, wf acc → quiet m acc →
            quiet m (foldl (fun acc entry =>
              if decide (sessions acc !! entry.1 = Some entry.2)
              then (closeSessionLocked acc entry.2
                      (close_errs (port (deref acc entry.2)))).1
              else acc) acc entries)).
  { induction entries as [|[name p] entries IH]; intros acc Hacc Hq; [done|].
    simpl. destruct (decide (sessions acc !! name = Some p)) as [Hp|]; [|by apply IH].
    destruct (Hacc _ _ Hp) as (s & Hs & _).
    pose proof (closeSessionLocked_quiet acc p (close_errs (port (deref acc p))) s Hs) as Hc.
    apply IH; [by eapply quiet_wf|by eapply quiet_trans]. }
  apply H; [done|apply quiet_refl].
Qed.

(** Every operation is quiet, except an [OpenPort] that succeeds. *)
Lemma apply_op_cases (m : Manager) (op : mgr_op) :
  wf m →
  quiet m (apply_op m op)
  ∨ ∃ portName config clientID exclusive env p,
      op = OpOpenPort portName config clientID exclusive env
      ∧ OpenPort m portName config clientID exclusive env = (apply_op m op, inl p).
Proof.
  intros Hwf. destruct op as [portName config clientID exclusive env
    | portName sessionID close_err | portName sessionID data env
    | portName sessionID maxBytes env | portName sessionID config env
    | close_errs | portName sessionID]; simpl.
  - destruct (OpenPort m portName config clientID exclusive env) as [m' [p|err]] eqn:E.
    + right. by exists portName, config, clientID, exclusive, env, p.
    + left. assert (m' = m) as ->; [|apply quiet_refl].
      revert E. unfold OpenPort.
      repeat (case_match; try done); by intros [= <-].
  - left. unfold ClosePort. destruct (sessions m !! portName) as [p|] eqn:Hp;
      [|apply quiet_refl].
    case_decide; [apply quiet_refl|].
    destruct (Hwf _ _ Hp) as (s & Hs & _). by eapply closeSessionLocked_quiet.
  - left. unfold Write.
    destruct (ValidateSession m portName sessionID) as [p|] eqn:Hv; [|apply quiet_refl].
    destruct (ValidateSession_allocated _ _ _ _ Hwf Hv) as (s & Hs & _).
    destruct (wr_err env); simpl; by eapply update_quiet.
  - left. unfold Read.
    destruct (ValidateSession m portName sessionID) as [p|] eqn:Hv; [|apply quiet_refl].
    destruct (ValidateSession_allocated _ _ _ _ Hwf Hv) as (s & Hs & _).
    destruct (maxBytes <? 0); [apply quiet_refl|].
    unfold port_Read. destruct (rd_err env); simpl; by eapply update_quiet.
  - left. unfold Configure.
    destruct (ValidateSession m portName sessionID) as [p|] eqn:Hv; [|apply quiet_refl].
    destruct (ValidateSession_allocated _ _ _ _ Hwf Hv) as (s & Hs & _).
    repeat (case_match; try apply quiet_refl); simpl; by eapply update_quiet.
  - left. by apply CloseAll_quiet.
  - left. unfold SubscribeToReads.
    destruct (ValidateSession m portName sessionID) as [p|] eqn:Hv; [|apply quiet_refl].
    destruct (ValidateSession_allocated _ _ _ _ Hwf Hv) as (s & Hs & _).
    split; [|done]. intros q. simpl. rewrite (deref_allocated _ _ _ Hs).
    destruct (decide (p = q)) as [->|Hne].
    + by rewrite lookup_insert_eq, Hs.
    + by rewrite lookup_insert_ne.
Qed.

Lemma fresh_not_allocated (m : Manager) : heap m !! fresh (dom (heap m)) = None.
Proof. apply not_elem_of_dom, is_fresh. Qed.

Lemma NewManager_wf (allowShared : bool) (dflt : PortConfig) :
  wf (NewManager allowShared dflt).
Proof. intros name p H. simpl in H. by rewrite lookup_empty in H. Qed.

(** A successful [OpenPort] keeps the table well formed. *)
Lemma OpenPort_wf (m m' : Manager) (portName : string) (config : PortConfig)
    (clientID : string) (exclusive : bool) (env : OpenEnv) (p : nat) :
  wf m → OpenPort m portName config clientID exclusive env = (m', inl p) → wf m'.
Proof.
  intros Hwf Hopen.
  apply OpenPort_success in Hopen as (_ & -> & Hheap & Hsess & _).
  intros name q. rewrite Hsess, Hheap.
  destruct (decide (portName = name)) as [->|Hne].
  - rewrite lookup_insert_eq. intros [= <-]. rewrite lookup_insert_eq. eauto.
  - rewrite lookup_insert_ne by done. intros Hq.
    destruct (Hwf _ _ Hq) as (s & Hs & Hn). exists s. split; [|done].
    rewrite lookup_insert_ne; [done|]. intros <-.
    by rewrite fresh_not_allocated in Hs.
Qed.

Lemma apply_op_wf (m : Manager) (op : mgr_op) : wf m → wf (apply_op m op).
Proof.
  intros Hwf. destruct (apply_op_cases m op Hwf) as [Hq|(?&?&?&?&?&?&_&Hopen)].
  - by eapply quiet_wf.
  - by eapply OpenPort_wf.
Qed.

(** With a generator that never repeats itself, identifiers stay distinct. *)
Lemma apply_op_ids (issued : list string) (m : Manager) (op : mgr_op) :
  wf m → ids_issued issued m → ids_distinct m →
  (∀ u, op_uuid op = Some u → u ∉ issued) →
  ids_issued (issued ++ uuids [op]) (apply_op m op) ∧ ids_distinct (apply_op m op).
Proof.
  intros Hwf Hi Hd Hfresh.
  destruct (apply_op_cases m op Hwf)
    as [Hq|(portName&config&clientID&exclusive&env&p&->&Hopen)].
  - split; [|by eapply quiet_ids_distinct].
    intros p s Hp. apply elem_of_app. left.
    by eapply (quiet_ids_issued issued m).
  - apply OpenPort_success in Hopen as (_ & -> & Hheap & _).
    set (p := fresh (dom (heap m))) in *.
    assert (Hnew : new_uuid env ∉ issued) by (by apply Hfresh).
    split.
    + intros q s. rewrite Hheap. unfold uuids. simpl.
      destruct (decide (p = q)) as [<-|Hne].
      * rewrite lookup_insert_eq. intros [= <-]. simpl. set_solver.
      * rewrite lookup_insert_ne by done. intros Hq. apply elem_of_app. left. eauto.
    + intros q1 q2 s t. rewrite Hheap.
      destruct (decide (p = q1)) as [<-|Hne1]; destruct (decide (p = q2)) as [<-|Hne2];
        [done| | |].
      * rewrite lookup_insert_eq, lookup_insert_ne by done.
        intros [= <-] Ht Heq. simpl in Heq. exfalso. apply Hnew. rewrite Heq. eauto.
      * rewrite lookup_insert_eq, lookup_insert_ne by done.
        intros Hs [= <-] Heq. simpl in Heq. exfalso. apply Hnew. rewrite <- Heq. eauto.
      * rewrite !lookup_insert_ne by done. apply Hd.
Qed.

Lemma apply_ops_inv (ops : list mgr_op) (issued : list string) (m : Manager) :
  wf m → ids_issued issued m → ids_distinct m → NoDup (issued ++ uuids ops) →
  wf (apply_ops m ops) ∧ ids_issued (issued ++ uuids ops) (apply_ops m ops)
  ∧ ids_distinct (apply_ops m ops).
Proof.
  revert issued m. induction ops as [|op ops IH]; intros issued m Hwf Hi Hd Hnd.
  - unfold uuids. simpl. by rewrite app_nil_r.
  - assert (Hsplit : uuids (op :: ops) = uuids [op] ++ uuids ops).
    { unfold uuids. simpl. by destruct (op_uuid op). }
    rewrite Hsplit, app_assoc in *.
    destruct (apply_op_ids issued m op Hwf Hi Hd) as [Hi' Hd'].
    { intros u Hu Hin. apply NoDup_app in Hnd as (Hnd & _ & _).
      apply NoDup_app in Hnd as (_ & Hnd & _). apply (Hnd u Hin).
      unfold uuids. simpl. rewrite Hu. apply list_elem_of_here. }
    apply (IH _ (apply_op m op)); auto using apply_op_wf.
Qed.

(** An identifier that is registered nowhere stays so, as long as the
    generator does not hand it out again. *)
Lemma apply_op_stale (sessionID : string) (m : Manager) (op : mgr_op) :
  wf m → stale sessionID m → op_uuid op ≠ Some sessionID →
  stale sessionID (apply_op m op).
Proof.
  intros Hwf Hst Hne.
  destruct (apply_op_cases m op Hwf)
    as [Hq|(portName&config&clientID&exclusive&env&p&->&Hopen)].
  - by eapply quiet_stale.
  - apply OpenPort_success in Hopen as (_ & -> & Hheap & Hsess & _).
    intros name q. rewrite Hsess. unfold deref. rewrite Hheap.
    destruct (decide (portName = name)) as [->|Hn].
    + rewrite lookup_insert_eq. intros [= <-].
      rewrite lookup_total_insert_eq. simpl. simpl in Hne. congruence.
    + rewrite lookup_insert_ne by done. intros Hq.
      destruct (Hwf _ _ Hq) as (s & Hs & _).
      rewrite lookup_total_insert_ne.
      * by apply Hst in Hq.
      * intros <-. by rewrite fresh_not_allocated in Hs.
Qed.

Lemma apply_ops_stale (sessionID : string) (ops : list mgr_op) (m : Manager) :
  wf m → stale sessionID m → sessionID ∉ uuids ops →
  wf (apply_ops m ops) ∧ stale sessionID (apply_ops m ops).
Proof.
  revert m. induction ops as [|op ops IH]; intros m Hwf Hst Hnot; [done|].
  simpl. apply IH.
  - by apply apply_op_wf.
  - apply apply_op_stale; [done..|]. intros Hu. apply Hnot.
    unfold uuids. simpl. rewrite Hu. apply list_elem_of_here.
  - intros Hin. apply Hnot. unfold uuids in *. simpl.
    destruct (op_uuid op); [by apply list_elem_of_further|done].
Qed.

(** With a stale identifier validation fails, whatever the port name. *)
Lemma stale_ValidateSession (sessionID : string) (m : Manager) (name : string) :
  stale sessionID m →
  ValidateSession m name sessionID = inr ErrPortNotOpen
  ∨ ValidateSession m name sessionID = inr ErrInvalidSession.
Proof.
  intros Hst. unfold ValidateSession.
  destruct (sessions m !! name) as [p|] eqn:Hp; [right|by left].
  rewrite decide_True; [done|]. by eapply Hst.
Qed.

(** ** Closing a port *)

Lemma NewManager_inv (allowShared : bool) (dflt : PortConfig) (ops : list mgr_op) :
  NoDup (uuids ops) →
  let m := apply_ops (NewManager allowShared dflt) ops in
  wf m ∧ ids_issued (uuids ops) m ∧ ids_distinct m.
Proof.
  intros Hnd. apply (apply_ops_inv ops [] (NewManager allowShared dflt)).
  - apply NewManager_wf.
  - intros p s H. simpl in H. by rewrite lookup_empty in H.
  - intros p q s t H. simpl in H. by rewrite lookup_empty in H.
  - done.
Qed.

(** What [ClosePort] does once its validation has passed. *)
Lemma ClosePort_validated (m : Manager) (portName sessionID : string)
    (close_err : option error) (p : nat) (s : Session) :
  wf m → ids_distinct m →
  sessions m !! portName = Some p → heap m !! p = Some s → ID s = sessionID →
  let r := ClosePort m portName sessionID close_err in
  r.2 = close_err
  ∧ sessions r.1 = delete portName (sessions m)
  ∧ sessionsByID r.1 = delete sessionID (sessionsByID m)
  ∧ closed (deref r.1 p) = true
  ∧ wf r.1 ∧ stale sessionID r.1.
Proof.
  intros Hwf Hd Hp Hs Hid. unfold ClosePort. rewrite Hp.
  pose proof (deref_allocated _ _ _ Hs) as Hderef.
  rewrite decide_False by (rewrite Hderef; auto).
  destruct (Hwf _ _ Hp) as (s0 & Hs0 & Hname).
  assert (s0 = s) as -> by congruence.
  cbn zeta. unfold closeSessionLocked. rewrite Hderef, Hname, Hid. simpl.
  split; [done|]. split; [done|]. split; [done|]. split.
  { unfold deref. simpl. by rewrite lookup_total_insert_eq. }
  split.
  { eapply quiet_wf; [|exact Hwf].
    pose proof (closeSessionLocked_quiet m p close_err s Hs) as Hq.
    unfold closeSessionLocked in Hq. by rewrite Hderef, Hname, Hid in Hq. }
  intros name q. simpl. intros Hq.
  apply lookup_delete_Some in Hq as [Hne Hq].
  destruct (Hwf _ _ Hq) as (t & Ht & Htn).
  assert (q ≠ p) as Hqp.
  { intros ->. apply Hne. congruence. }
  unfold deref. simpl. rewrite lookup_total_insert_ne by done.
  fold (deref m q). rewrite (deref_allocated _ _ _ Ht).
  intros Heq. apply Hqp. eapply Hd; eauto. congruence.
Qed.

(** C3. After any history of calls, once [ClosePort] has passed its
    validation (the port is open and the identifier matches): what
    [port.Close()] answered is returned, error or not; the session is
    marked closed and is gone from both tables; and after any further calls
    every [Read], [Write] and [Configure] with the old identifier, on any
    port name, fails with [ErrPortNotOpen] or [ErrInvalidSession] and
    changes nothing. The identifier generator is taken never to repeat an
    identifier ([NoDup]). *)
Theorem ClosePort_retires_session (allowShared : bool) (dflt : PortConfig)
    (before after : list mgr_op) (portName sessionID : string)
    (close_err : option error) (p : nat) :
  let m := apply_ops (NewManager allowShared dflt) before in
  NoDup (uuids (before ++ after)) →
  sessions m !! portName = Some p →
  ID (deref m p) = sessionID →
  let r := ClosePort m portName sessionID close_err in
  r.2 = close_err
  ∧ sessions r.1 !! portName = None
  ∧ sessionsByID r.1 !! sessionID = None
  ∧ closed (deref r.1 p) = true
  ∧ let m2 := apply_ops r.1 after in
    ∀ name, ∃ err,
      (err = ErrPortNotOpen ∨ err = ErrInvalidSession)
      ∧ (∀ maxBytes env,
           Read m2 name sessionID maxBytes env = (m2, Returns (None, Some err)))
      ∧ (∀ data env, Write m2 name sessionID data env = (m2, (0, Some err)))
      ∧ (∀ config env, Configure m2 name sessionID config env = (m2, Some err)).
Proof.
  intros m Hnd Hp Hid r.
  assert (Huu : uuids (before ++ after) = uuids before ++ uuids after).
  { unfold uuids. apply omap_app. }
  rewrite Huu in Hnd. apply NoDup_app in Hnd as (Hnd1 & Hdisj & _).
  destruct (NewManager_inv allowShared dflt before Hnd1) as (Hwf & Hissued & Hdist).
  fold m in Hwf, Hissued, Hdist.
  destruct (Hwf _ _ Hp) as (s & Hs & Hname).
  rewrite (deref_allocated _ _ _ Hs) in Hid.
  destruct (ClosePort_validated m portName sessionID close_err p s Hwf Hdist Hp Hs Hid)
    as (Herr & Hsess & Hby & Hcl & Hwf1 & Hstale1).
  fold r in Herr, Hsess, Hby, Hcl, Hwf1, Hstale1.
  split; [done|]. split; [by rewrite Hsess, lookup_delete_eq|].
  split; [by rewrite Hby, lookup_delete_eq|]. split; [done|].
  intros m2 name.
  assert (Hnot : sessionID ∉ uuids after).
  { apply Hdisj. rewrite <- Hid. by eapply Hissued. }
  destruct (apply_ops_stale sessionID after r.1 Hwf1 Hstale1 Hnot) as [_ Hstale2].
  fold m2 in Hstale2.
  destruct (stale_ValidateSession sessionID m2 name Hstale2) as [Hv|Hv].
  - exists ErrPortNotOpen. split; [by left|].
    unfold Read, Write, Configure. by rewrite Hv.
  - exists ErrInvalidSession. split; [by right|].
    unfold Read, Write, Configure. by rewrite Hv.
Qed.

Lemma ClosePort_retires_session_witness :
  let before := [OpOpenPort "COM1" DefaultConfig "alice" true (env_ok "s-1" 100)] in
  let after := [OpOpenPort "COM1" DefaultConfig "bob" true (env_ok "s-2" 200)] in
  let m := apply_ops (NewManager true DefaultConfig) before in
  let r := ClosePort m "COM1" "s-1" (Some (ErrHardware "i/o error")) in
  r.2 = Some (ErrHardware "i/o error")
  ∧ sessions r.1 !! "COM1" = None
  ∧ sessionsByID r.1 !! "s-1" = None.
Proof.
  intros before after m r.
  destruct (ClosePort_retires_session true DefaultConfig before after "COM1" "s-1"
              (Some (ErrHardware "i/o error")) 0%nat)
    as (H1 & H2 & H3 & _).
  - apply (bool_decide_unpack _). by vm_compute.
  - by vm_compute.
  - by vm_compute.
  - auto.
Defined.

(** ** Statistics and last activity *)

Lemma deref_update (m : Manager) (p : nat) (f : Session → Session) :
  deref (update m p f) p = f (deref m p).
Proof. unfold deref, update. simpl. by rewrite lookup_total_insert_eq. Qed.

Lemma port_Read_count (env : ReadEnv) (buffer : list Byte.byte) :
  let '(buffer', n, _) := port_Read env buffer in
  0 ≤ n ≤ Z.of_nat (length buffer)
  ∧ take (Z.to_nat n) buffer' = take (length buffer) (rd_data env).
Proof.
  unfold port_Read. set (got := take (length buffer) (rd_data env)).
  assert (length got ≤ length buffer)%nat.
  { unfold got. rewrite length_take. lia. }
  split; [lia|]. rewrite Nat2Z.id. by rewrite take_app_length.
Qed.

(** C7, as the code has it. A successful [Write] adds the count to the
    bytes sent (modulo 2^64) and sets the last activity to the current
    time; a successful [Read] does the same for the bytes received; a
    successful [Configure] stores the new configuration and leaves the
    statistics, last activity included, as they were. *)
Theorem success_updates_session (m : Manager) (portName sessionID : string) :
  (∀ data env m' n,
     Write m portName sessionID data env = (m', (n, None)) →
     ∃ p, ValidateSession m portName sessionID = inl p
       ∧ Statistics (deref m' p)
         = mkStats (AddUint64 (BytesSent (Statistics (deref m p))) (uint64 n))
                   (BytesReceived (Statistics (deref m p)))
                   (Errors (Statistics (deref m p)))
                   (OpenedAt (Statistics (deref m p)))
                   (wr_now env))
  ∧ (∀ maxBytes env m' data,
     Read m portName sessionID maxBytes env = (m', Returns (data, None)) →
     ∃ p, ValidateSession m portName sessionID = inl p
       ∧ Statistics (deref m' p)
         = mkStats (BytesSent (Statistics (deref m p)))
                   (AddUint64 (BytesReceived (Statistics (deref m p)))
                              (uint64 (len data)))
                   (Errors (Statistics (deref m p)))
                   (OpenedAt (Statistics (deref m p)))
                   (rd_now env))
  ∧ (∀ config env m',
     Configure m portName sessionID config env = (m', None) →
     ∃ p, ValidateSession m portName sessionID = inl p
       ∧ Config (deref m' p) = config
       ∧ Statistics (deref m' p) = Statistics (deref m p)).
Proof.
  split; [|split].
  - intros data env m' n. unfold Write.
    destruct (ValidateSession m portName sessionID) as [p|]; [|done].
    destruct (wr_err env); [done|]. intros [= <- <-].
    exists p. split; [done|]. by rewrite deref_update.
  - intros maxBytes env m' data. unfold Read.
    destruct (ValidateSession m portName sessionID) as [p|]; [|done].
    destruct (maxBytes <? 0); [done|].
    pose proof (port_Read_count env (replicate (Z.to_nat maxBytes) Byte.x00)) as Hc.
    destruct (port_Read env (replicate (Z.to_nat maxBytes) Byte.x00))
      as [[buffer' n] err] eqn:E.
    assert (err = rd_err env) as -> by (unfold port_Read in E; congruence).
    destruct (rd_err env); [done|]. intros [= <- <-].
    exists p. split; [done|]. rewrite deref_update. simpl.
    destruct Hc as [Hn _]. rewrite length_replicate in Hn.
    assert (Z.of_nat (length (take (Z.to_nat n) buffer')) = n) as ->; [|done].
    rewrite length_take.
    assert (length buffer' = Z.to_nat maxBytes).
    { unfold port_Read in E. injection E as <- _ _.
      rewrite length_app, length_drop, length_take, length_replicate. lia. }
    lia.
  - intros config env m'. unfold Configure.
    destruct (ValidateSession m portName sessionID) as [p|]; [|done].
    destruct (Validate config); [done|]. destruct (set_mode_err env); [done|].
    destruct (if ReadTimeoutMs config >? 0 then cfg_timeout_err env else None); [done|].
    intros [= <-]. exists p. split; [done|]. by rewrite deref_update.
Qed.

(** C7 as stated fails for [Configure]: the session opened at time 100 is
    reconfigured with success, which changes its configuration but neither
    its statistics nor its last activity. *)
Lemma Configure_counterexample :
  let r := Configure m_excl "COM1" "s-1" fast_config (mkConfigureEnv None None) in
  r.2 = None
  ∧ Config (deref r.1 0%nat) = fast_config
  ∧ Config (deref m_excl 0%nat) = DefaultConfig
  ∧ Statistics (deref r.1 0%nat) = Statistics (deref m_excl 0%nat)
  ∧ LastActivity (Statistics (deref r.1 0%nat)) = 100.
Proof. by vm_compute. Qed.

(** For contrast, a read and a write at time 250 on the same session. *)
Example Write_sets_last_activity :
  let r := Write m_excl "COM1" "s-1" (Some [Byte.x68; Byte.x69])
                 (mkWriteEnv 2 None 250) in
  r.2 = (2, None)
  ∧ Statistics (deref r.1 0%nat) = mkStats 2 0 0 100 250.
Proof. by vm_compute. Qed.

Example Read_sets_last_activity :
  let r := Read m_excl "COM1" "s-1" 16 (mkReadEnv [Byte.x6f; Byte.x6b] None 250) in
  r.2 = Returns (Some [Byte.x6f; Byte.x6b], None)
  ∧ Statistics (deref r.1 0%nat) = mkStats 0 2 0 100 250.
Proof. by vm_compute. Qed.

(** ** Channels of the continuous reader *)

Lemma try_send_flag (event : DataEvent) (ec ec' : gmap nat EventChan) (ch : nat) :
  try_send event ec ch = Returns ec' → ∀ c, flag ec' c = flag ec c.
Proof.
  unfold try_send, flag. destruct (ec !! ch) as [x|] eqn:E; [|by intros [= <-]].
  destruct (ch_closed x) eqn:Ecl; [done|].
  destruct (Z.of_nat (length (queue x)) <? subscriberCap); [|by intros [= <-]].
  intros [= <-] c. destruct (decide (ch = c)) as [<-|Hne].
  - by rewrite lookup_insert_eq, E; simpl; rewrite Ecl.
  - by rewrite lookup_insert_ne.
Qed.

Lemma try_send_open (event : DataEvent) (ec : gmap nat EventChan) (ch : nat) :
  flag ec ch = Some false → ∃ ec', try_send event ec ch = Returns ec'.
Proof.
  unfold try_send, flag. destruct (ec !! ch) as [x|]; [|done]. simpl.
  intros [= ->]. destruct (Z.of_nat (length (queue x)) <? subscriberCap); eauto.
Qed.

Lemma broadcast_to_flag (event : DataEvent) (chs : list nat)
    (ec ec' : gmap nat EventChan) :
  broadcast_to event ec chs = Returns ec' → ∀ c, flag ec' c = flag ec c.
Proof.
  revert ec. induction chs as [|ch chs IH]; intros ec; simpl.
  - by intros [= <-].
  - destruct (try_send event ec ch) as [ec1|] eqn:E; [|done]. simpl.
    intros H c. rewrite (IH _ H c). by eapply try_send_flag.
Qed.

Lemma broadcast_to_open (event : DataEvent) (chs : list nat) (ec : gmap nat EventChan) :
  (∀ ch, ch ∈ chs → flag ec ch = Some false) →
  ∃ ec', broadcast_to event ec chs = Returns ec'.
Proof.
  revert ec. induction chs as [|ch chs IH]; intros ec Hopen; simpl; [eauto|].
  destruct (try_send_open event ec ch) as [ec1 E]; [apply Hopen; set_solver|].
  rewrite E. simpl. apply IH. intros c Hc.
  rewrite (try_send_flag _ _ _ _ E). apply Hopen. set_solver.
Qed.

Lemma close_chan_open (ec : gmap nat EventChan) (ch : nat) :
  flag ec ch = Some false →
  ∃ ec', close_chan ec ch = Returns ec'
       ∧ flag ec' ch = Some true
       ∧ ∀ c, c ≠ ch → ec' !! c = ec !! c.
Proof.
  unfold close_chan, flag. destruct (ec !! ch) as [x|]; [|done]. simpl.
  intros [= ->]. eexists. split; [done|]. split.
  - by rewrite lookup_insert_eq.
  - intros c Hne. by rewrite lookup_insert_ne.
Qed.

Lemma close_chans_open (chs : list nat) (ec : gmap nat EventChan) :
  NoDup chs → (∀ ch, ch ∈ chs → flag ec ch = Some false) →
  ∃ ec', close_chans ec chs = Returns ec'
       ∧ (∀ ch, ch ∈ chs → flag ec' ch = Some true)
       ∧ ∀ c, c ∉ chs → ec' !! c = ec !! c.
Proof.
  revert ec. induction chs as [|ch chs IH]; intros ec Hnd Hopen; simpl.
  - exists ec. split; [done|]. split; [|done]. intros ch H. by apply elem_of_nil in H.
  - apply NoDup_cons in Hnd as [Hnotin Hnd].
    destruct (close_chan_open ec ch) as (ec1 & E & Hch & Hother);
      [apply Hopen; set_solver|].
    rewrite E. simpl.
    destruct (IH ec1 Hnd) as (ec' & E' & Hclosed & Hrest).
    { intros c Hc. unfold flag. rewrite Hother; [apply Hopen; set_solver|].
      intros ->. done. }
    exists ec'. split; [done|]. split.
    + intros c Hc. apply elem_of_cons in Hc as [->|Hc]; [|by apply Hclosed].
      unfold flag. rewrite Hrest by done. exact Hch.
    + intros c Hc. apply not_elem_of_cons in Hc as [Hne Hc].
      rewrite Hrest by done. by apply Hother.
Qed.

(** [Stop] on a running reader whose stop channel is still open. *)
Lemma Stop_running (r : Reader) (ec : gmap nat EventChan) :
  running r = true → stopChan r = false →
  NoDup (subscribers r) → (∀ ch, ch ∈ subscribers r → flag ec ch = Some false) →
  ∃ ec', Stop r ec = Returns (mkReader (r_portName r) (r_sessionID r)
                                       (bufferSize r) false true [], ec')
       ∧ (∀ ch, ch ∈ subscribers r → flag ec' ch = Some true)
       ∧ ∀ c, c ∉ subscribers r → ec' !! c = ec !! c.
Proof.
  intros Hrun Hstop Hnd Hopen. unfold Stop. rewrite Hrun, Hstop. simpl.
  destruct (close_chans_open _ ec Hnd Hopen) as (ec' & E & H1 & H2).
  exists ec'. by rewrite E.
Qed.

(** ** A turn of the loop that gets an error *)

Lemma is_fatal_spec (err : error) :
  is_fatal err = true ↔ err = ErrPortClosed ∨ err = ErrInvalidSession.
Proof.
  split.
  - destruct err; simpl; try done; auto.
  - by intros [-> | ->].
Qed.

(** One turn that reaches the read and gets an error. *)
Lemma readLoop_turn_on_error (w : World) (pick_ctx : bool) (env : ReadEnv)
    (now : Z) (m : Manager) (data : slice) (err : error) :
  subscribers_open w →
  panicked w = None → loop w = Looping →
  running (rdr w) = true → ctx_done w = false → stopChan (rdr w) = false →
  Read (mgr w) (r_portName (rdr w)) (r_sessionID (rdr w)) (bufferSize (rdr w)) env
    = (m, Returns (data, Some err)) →
  let w' := step w (Turn pick_ctx env now) in
  panicked w' = None
  ∧ broadcasts w'
    = broadcasts w ++ [mkEvent data now (AddUint32 (sequence w) 1) (Some err)]
  ∧ (err = ErrPortClosed ∨ err = ErrInvalidSession →
       loop w' = Exited ∧ running (rdr w') = false ∧ subscribers (rdr w') = []
       ∧ ∀ ch, ch ∈ subscribers (rdr w) → flag (echans w') ch = Some true)
  ∧ (err ≠ ErrPortClosed → err ≠ ErrInvalidSession →
       loop w' = Looping ∧ running (rdr w') = true
       ∧ slept w' = 10 * Millisecond :: slept w
       ∧ subscribers (rdr w') = subscribers (rdr w)
       ∧ ∀ ch, ch ∈ subscribers (rdr w) → flag (echans w') ch = Some false).
Proof.
  intros [Hnd Hopen] Hpan Hloop Hrun Hctx Hstop Hread w'.
  unfold w', step. rewrite Hpan, Hloop. unfold readLoop_turn.
  rewrite Hrun, Hctx, Hstop, Hread. cbn [negb andb orb].
  destruct (broadcast_to_open
              (mkEvent data now (AddUint32 (sequence w) 1) (Some err))
              (subscribers (rdr w)) (echans w) Hopen) as [ec Hec].
  pose proof (broadcast_to_flag _ _ _ _ Hec) as Hflag.
  cbn. unfold broadcast. rewrite Hec.
  destruct (is_fatal err) eqn:Hfatal.
  - unfold stop_and_return. cbn.
    destruct (Stop_running (rdr w) ec Hrun Hstop Hnd) as (ec' & E & Hclosed & _).
    { intros ch Hch. rewrite Hflag. by apply Hopen. }
    rewrite E. cbn. split; [done|]. split; [done|]. split; [done|].
    intros Hn1 Hn2. apply is_fatal_spec in Hfatal. tauto.
  - cbn. split; [done|]. split; [done|]. split.
    + intros H. apply is_fatal_spec in H. congruence.
    + intros _ _. repeat split; try done.
      intros ch Hch. rewrite Hflag. by apply Hopen.
Qed.

(** ** Reads that bring nothing *)

(** The shape of a turn that reaches the read. *)
Lemma readLoop_turn_default (w : World) (pick_ctx : bool) (env : ReadEnv) (now : Z)
    (m : Manager) (data : slice) (err : option error) :
  panicked w = None → loop w = Looping →
  running (rdr w) = true → ctx_done w = false → stopChan (rdr w) = false →
  Read (mgr w) (r_portName (rdr w)) (r_sessionID (rdr w)) (bufferSize (rdr w)) env
    = (m, Returns (data, err)) →
  step w (Turn pick_ctx env now)
  = if match err with None => true | Some _ => false end && (len data =? 0)
    then with_mgr w m
    else
      let event := mkEvent data now (AddUint32 (sequence w) 1) err in
      match broadcast_to event (echans w) (subscribers (rdr w)) with
      | Panics msg => crash (with_mgr w m) msg
      | Returns ec =>
        let w1 := mkWorld m (rdr w) ec (ctx_done w) (loop w)
                          (AddUint32 (sequence w) 1) (slept w)
                          (broadcasts w ++ [event]) (received w) (panicked w) in
        match err with
        | None => w1
        | Some e =>
          if is_fatal e then stop_and_return w1
          else mkWorld m (rdr w) ec (ctx_done w) (loop w)
                       (AddUint32 (sequence w) 1) (10 * Millisecond :: slept w)
                       (broadcasts w ++ [event]) (received w) (panicked w)
        end
      end.
Proof.
  intros Hpan Hloop Hrun Hctx Hstop Hread.
  unfold step. rewrite Hpan, Hloop. unfold readLoop_turn.
  rewrite Hrun, Hctx, Hstop, Hread. cbn [negb andb orb].
  destruct (match err with None => true | Some _ => false end && (len data =? 0));
    [done|].
  cbn. unfold broadcast.
  destruct (broadcast_to _ (echans w) (subscribers (rdr w)));
    [|cbn; by rewrite ?Hctx, ?Hloop, ?Hpan].
  destruct err as [e|]; [destruct (is_fatal e)|];
    cbn; by rewrite ?Hctx, ?Hloop, ?Hpan.
Qed.

Lemma stop_and_return_broadcasts (w : World) :
  broadcasts (stop_and_return w) = broadcasts w.
Proof.
  unfold stop_and_return. destruct (Stop (rdr w) (echans w)) as [[r ec]|]; done.
Qed.

Lemma success_updates_session_witness :
  let r := Write m_excl "COM1" "s-1" (Some [Byte.x68; Byte.x69])
                 (mkWriteEnv 2 None 250) in
  ∃ p, ValidateSession m_excl "COM1" "s-1" = inl p
     ∧ LastActivity (Statistics (deref r.1 p)) = 250.
Proof.
  intros r.
  destruct (success_updates_session m_excl "COM1" "s-1") as (Hw & _ & _).
  destruct (Hw (Some [Byte.x68; Byte.x69]) (mkWriteEnv 2 None 250) r.1 2)
    as (p & Hv & Hst).
  - by vm_compute.
  - exists p. split; [exact Hv|]. by rewrite Hst.
Defined.

(** ** Sequence numbers *)

Lemma try_send_lookup (event : DataEvent) (ec ec' : gmap nat EventChan) (ch : nat) :
  try_send event ec ch = Returns ec' →
  (∀ c, c ≠ ch → ec' !! c = ec !! c)
  ∧ (ec' !! ch = ec !! ch
     ∨ ∃ x, ec !! ch = Some x ∧ ec' !! ch = Some (mkChan (queue x ++ [event]) false)).
Proof.
  unfold try_send. destruct (ec !! ch) as [x|] eqn:E; [|intros [= <-]; auto].
  destruct (ch_closed x); [done|].
  destruct (Z.of_nat (length (queue x)) <? subscriberCap); intros [= <-]; [|auto].
  split.
  - intros c Hne. by rewrite lookup_insert_ne.
  - right. exists x. by rewrite lookup_insert_eq.
Qed.

Lemma broadcast_to_other (event : DataEvent) (chs : list nat)
    (ec ec' : gmap nat EventChan) (ch : nat) :
  ch ∉ chs → broadcast_to event ec chs = Returns ec' → ec' !! ch = ec !! ch.
Proof.
  revert ec. induction chs as [|c chs IH]; intros ec Hnot; simpl.
  - by intros [= <-].
  - apply not_elem_of_cons in Hnot as [Hne Hnot].
    destruct (try_send event ec c) as [ec1|] eqn:E; [|done]. simpl. intros H.
    rewrite (IH _ Hnot H). by apply (try_send_lookup _ _ _ _ E).
Qed.

(** A broadcast puts the event at most once into each channel. *)
Lemma broadcast_to_queue (event : DataEvent) (chs : list nat)
    (ec ec' : gmap nat EventChan) :
  NoDup chs → broadcast_to event ec chs = Returns ec' →
  ∀ ch, default [] (queue <$> ec' !! ch) = default [] (queue <$> ec !! ch)
        ∨ default [] (queue <$> ec' !! ch)
          = default [] (queue <$> ec !! ch) ++ [event].
Proof.
  revert ec. induction chs as [|c chs IH]; intros ec Hnd; simpl.
  - intros [= <-]. auto.
  - apply NoDup_cons in Hnd as [Hnot Hnd].
    destruct (try_send event ec c) as [ec1|] eqn:E; [|done]. simpl. intros H ch.
    destruct (try_send_lookup _ _ _ _ E) as [Hother Hc].
    destruct (decide (ch = c)) as [->|Hne].
    + rewrite (broadcast_to_other _ _ _ _ _ Hnot H).
      destruct Hc as [->|(x & Hx & ->)]; [auto|]. right. by rewrite Hx.
    + destruct (IH _ Hnd H ch) as [->| ->]; rewrite Hother by done; auto.
Qed.

Lemma close_chan_queue (ec ec' : gmap nat EventChan) (ch : nat) :
  close_chan ec ch = Returns ec' → ∀ c, queue <$> ec' !! c = queue <$> ec !! c.
Proof.
  unfold close_chan. destruct (ec !! ch) as [x|] eqn:E; [|done].
  destruct (ch_closed x); [done|]. intros [= <-] c.
  destruct (decide (ch = c)) as [<-|Hne].
  - by rewrite lookup_insert_eq, E.
  - by rewrite lookup_insert_ne.
Qed.

Lemma close_chans_queue (chs : list nat) (ec ec' : gmap nat EventChan) :
  close_chans ec chs = Returns ec' → ∀ c, queue <$> ec' !! c = queue <$> ec !! c.
Proof.
  revert ec. induction chs as [|ch chs IH]; intros ec; simpl.
  - by intros [= <-].
  - destruct (close_chan ec ch) as [ec1|] eqn:E; [|done]. simpl. intros H c.
    rewrite (IH _ H c). by eapply close_chan_queue.
Qed.

(** What [Stop] leaves: nothing changed, or no subscriber at all; the
    waiting events stay in their channels. *)
Lemma Stop_returns (r r' : Reader) (ec ec' : gmap nat EventChan) :
  Stop r ec = Returns (r', ec') →
  (∀ c, queue <$> ec' !! c = queue <$> ec !! c)
  ∧ ((r' = r ∧ ec' = ec) ∨ subscribers r' = []).
Proof.
  unfold Stop. destruct (running r); simpl; [|intros [= <- <-]; auto].
  destruct (stopChan r); [done|].
  destruct (close_chans ec (subscribers r)) as [ec1|] eqn:E; [|done]. simpl.
  intros [= <- <-]. split; [|by right]. by eapply close_chans_queue.
Qed.

Lemma remove_first_spec (ch : nat) (subs subs' : list nat) :
  remove_first ch subs = Some subs' →
  ∃ l1 l2, subs = l1 ++ ch :: l2 ∧ subs' = l1 ++ l2.
Proof.
  revert subs'. induction subs as [|sub subs IH]; intros subs'; simpl; [done|].
  destruct (decide (sub = ch)) as [->|Hne].
  - intros [= <-]. by exists [], subs.
  - destruct (remove_first ch subs) as [rest|]; [|done]. intros [= <-].
    destruct (IH rest eq_refl) as (l1 & l2 & -> & ->). by exists (sub :: l1), l2.
Qed.

(** Two worlds with the same streams and the same counter. *)
Lemma ordered_same (w w' : World) :
  received w' = received w → (∀ ch, waiting w' ch = waiting w ch) →
  sequence w' = sequence w → ordered w → ordered w'.
Proof.
  intros Hr Hw Hs Ho ch. unfold stream, received_by. rewrite Hr, Hw, Hs. apply Ho.
Qed.

Lemma waiting_same (w w' : World) :
  (∀ c, queue <$> echans w' !! c = queue <$> echans w !! c) →
  ∀ ch, waiting w' ch = waiting w ch.
Proof. intros H ch. unfold waiting. by rewrite H. Qed.

(** *** The subscribers stay open channels *)

Lemma stop_and_return_open (w : World) :
  subscribers_open w → subscribers_open (stop_and_return w).
Proof.
  intros Hopen. unfold stop_and_return.
  destruct (Stop (rdr w) (echans w)) as [[r ec]|] eqn:E; [|done].
  apply Stop_returns in E as [_ [[-> ->]|Hnil]]; [done|]. split; simpl.
  - rewrite Hnil. apply NoDup_nil_2.
  - rewrite Hnil. intros ch H. by apply elem_of_nil in H.
Qed.

Lemma Subscribe_open (w : World) :
  subscribers_open w →
  let '(r, ec, _) := Subscribe (rdr w) (echans w) in
  subscribers_open (with_reader w r ec).
Proof.
  intros [Hnd Hflag]. unfold Subscribe.
  set (ch := fresh (dom (echans w))).
  assert (Hfresh : echans w !! ch = None) by apply not_elem_of_dom, is_fresh.
  split; simpl.
  - apply NoDup_app. split; [done|]. split; [|apply NoDup_singleton].
    intros c Hc ->%list_elem_of_singleton.
    specialize (Hflag _ Hc). unfold flag in Hflag. by rewrite Hfresh in Hflag.
  - intros c Hc. unfold flag. apply elem_of_app in Hc as [Hc|Hc].
    + rewrite lookup_insert_ne; [by apply Hflag|]. intros <-.
      specialize (Hflag _ Hc). unfold flag in Hflag. by rewrite Hfresh in Hflag.
    + apply list_elem_of_singleton in Hc as ->. by rewrite lookup_insert_eq.
Qed.

Lemma Unsubscribe_open (w : World) (ch : nat) (r : Reader) (ec : gmap nat EventChan) :
  subscribers_open w →
  Unsubscribe (rdr w) (echans w) ch = Returns (r, ec) →
  subscribers_open (with_reader w r ec).
Proof.
  intros Hopen. unfold Unsubscribe.
  destruct (remove_first ch (subscribers (rdr w))) as [subs|] eqn:E;
    [|by intros [= <- <-]].
  destruct (close_chan (echans w) ch) as [ec1|] eqn:Ec; [|done]. simpl.
  intros [= <- <-].
  apply remove_first_spec in E as (l1 & l2 & Hsubs & ->).
  destruct Hopen as [Hnd Hflag]. rewrite Hsubs in Hnd, Hflag.
  split; simpl.
  - apply NoDup_app in Hnd as (H1 & H2 & H3). apply NoDup_cons in H3 as [_ H3].
    apply NoDup_app. split; [done|]. split; [|done].
    intros c Hc Hc2. apply (H2 c Hc). by apply list_elem_of_further.
  - intros c Hc.
    assert (c ≠ ch) as Hne.
    { intros ->. apply NoDup_app in Hnd as (H1 & H2 & H3).
      apply NoDup_cons in H3 as [H3 _]. apply elem_of_app in Hc as [Hc|Hc]; [|done].
      apply (H2 ch Hc). apply list_elem_of_here. }
    assert (Hin : c ∈ l1 ++ ch :: l2).
    { apply elem_of_app in Hc as [Hc|Hc]; apply elem_of_app; [by left|right].
      by apply list_elem_of_further. }
    specialize (Hflag c Hin). unfold flag in *. rewrite <- Hflag.
    unfold close_chan in Ec. destruct (echans w !! ch) as [x|]; [|done].
    destruct (ch_closed x); [done|]. injection Ec as <-.
    by rewrite lookup_insert_ne.
Qed.

Lemma receive_open (w : World) (ch : nat) :
  subscribers_open w → subscribers_open (receive w ch).
Proof.
  intros Hopen. unfold receive.
  destruct (echans w !! ch) as [[[|event rest] cl]|] eqn:E; [done| |done].
  destruct Hopen as [Hnd Hflag]. split; [done|]. simpl. intros c Hc.
  specialize (Hflag c Hc). unfold flag in *.
  destruct (decide (ch = c)) as [<-|Hne].
  - rewrite lookup_insert_eq. by rewrite E in Hflag.
  - by rewrite lookup_insert_ne.
Qed.

Lemma broadcast_open (w w1 : World) (event : DataEvent) :
  subscribers_open w →
  broadcast_to event (echans w) (subscribers (rdr w)) = Returns (echans w1) →
  rdr w1 = rdr w → subscribers_open w1.
Proof.
  intros [Hnd Hopen] Hb Hr. split; rewrite Hr; [done|]. intros ch Hch.
  rewrite (broadcast_to_flag _ _ _ _ Hb). by apply Hopen.
Qed.

Lemma readLoop_turn_open (w : World) (pick_ctx : bool) (env : ReadEnv) (now : Z) :
  subscribers_open w → subscribers_open (readLoop_turn w pick_ctx env now).
Proof.
  intros Hopen. unfold readLoop_turn.
  destruct (negb (running (rdr w))); [exact Hopen|].
  destruct (ctx_done w && (negb (stopChan (rdr w)) || pick_ctx));
    [by apply stop_and_return_open|].
  destruct (stopChan (rdr w)); [exact Hopen|].
  destruct (Read (mgr w) (r_portName (rdr w)) (r_sessionID (rdr w))
              (bufferSize (rdr w)) env) as [m [[data err]|msg]]; [|exact Hopen].
  destruct (match err with None => true | Some _ => false end && (len data =? 0));
    [exact Hopen|].
  cbn zeta. unfold broadcast. cbn [with_mgr rdr echans sequence].
  destruct (broadcast_to (mkEvent data now (AddUint32 (sequence w) 1) err)
              (echans w) (subscribers (rdr w))) as [ec|msg] eqn:Hb; [|exact Hopen].
  set (w1 := mkWorld m (rdr w) ec (ctx_done w) (loop w) (AddUint32 (sequence w) 1)
                     (slept w)
                     (broadcasts w ++ [mkEvent data now (AddUint32 (sequence w) 1) err])
                     (received w) (panicked w)).
  assert (Hopen1 : subscribers_open w1) by (by eapply (broadcast_open w w1)).
  destruct err as [e|]; [|exact Hopen1].
  destruct (is_fatal e); [|exact Hopen1].
  by apply (stop_and_return_open w1).
Qed.

(** In every world of every run the reader lists each subscriber channel
    once, and every listed channel is open. *)
Lemma step_subscribers_open (w : World) (h : happening) :
  subscribers_open w → subscribers_open (step w h).
Proof.
  intros Hopen. unfold step. destruct (panicked w); [done|].
  destruct h as [pick_ctx env now| |ch| | |ch|op]; try done.
  - destruct (loop w); [done| |done]. by apply readLoop_turn_open.
  - pose proof (Subscribe_open w Hopen) as H.
    by destruct (Subscribe (rdr w) (echans w)) as [[r ec] c].
  - destruct (Unsubscribe (rdr w) (echans w) ch) as [[r ec]|] eqn:E; [|done].
    by apply (Unsubscribe_open w ch r ec).
  - pose proof (stop_and_return_open w Hopen) as H. unfold stop_and_return in H.
    by destruct (Stop (rdr w) (echans w)) as [[r ec]|].
  - by apply receive_open.
Qed.

Lemma run_subscribers_open (hs : list happening) (w : World) :
  subscribers_open w → subscribers_open (run w hs).
Proof.
  revert w. induction hs as [|h hs IH]; intros w H; [done|].
  simpl. by apply IH, step_subscribers_open.
Qed.

(** *** The streams stay ordered *)

Lemma stop_and_return_ordered (w : World) :
  subscribers_open w → ordered w →
  subscribers_open (stop_and_return w) ∧ ordered (stop_and_return w)
  ∧ sequence (stop_and_return w) = sequence w.
Proof.
  intros Hopen Hord. split; [by apply stop_and_return_open|].
  unfold stop_and_return.
  destruct (Stop (rdr w) (echans w)) as [[r ec]|] eqn:E; [|done].
  apply Stop_returns in E as [Hq _]. split; [|done].
  apply (ordered_same w); [done| |done|done]. by apply waiting_same.
Qed.

Lemma StronglySorted_snoc (l : list Z) (x : Z) :
  StronglySorted Z.lt l → Forall (fun y => y < x) l → StronglySorted Z.lt (l ++ [x]).
Proof.
  induction 1 as [|a l Hl IH Ha]; intros Hx; simpl.
  - repeat constructor.
  - apply Forall_cons in Hx as [Hax Hx]. constructor; [by apply IH|].
    apply Forall_app. split; [done|]. by constructor.
Qed.

Lemma AddUint32_small (x : Z) : 0 ≤ x → x + 1 < 2 ^ 32 → AddUint32 x 1 = x + 1.
Proof. intros H1 H2. unfold AddUint32, uint32. apply Z.mod_small. lia. Qed.

(** The world right after a broadcast, before the counter can wrap. *)
Lemma broadcast_ordered (w w1 : World) (event : DataEvent) :
  subscribers_open w → ordered w → 0 ≤ sequence w → sequence w + 1 < 2 ^ 32 →
  Sequence event = sequence w + 1 →
  broadcast_to event (echans w) (subscribers (rdr w)) = Returns (echans w1) →
  rdr w1 = rdr w → received w1 = received w → sequence w1 = sequence w + 1 →
  subscribers_open w1 ∧ ordered w1.
Proof.
  intros Hopen Hord H0 Hlt Hev Hb Hr Hrec Hseq.
  split; [by apply (broadcast_open w w1 event)|]. destruct Hopen as [Hnd Hopen].
  intros ch. destruct (Hord ch) as [Hs Hf].
    assert (Hrb : received_by ch w1 = received_by ch w).
    { unfold received_by. by rewrite Hrec. }
    unfold stream. rewrite Hrb, Hseq. unfold waiting.
    destruct (broadcast_to_queue _ _ _ _ Hnd Hb ch) as [->| ->].
    + split; [exact Hs|]. eapply Forall_impl; [exact Hf|]. simpl. intros; lia.
    + rewrite fmap_app, app_assoc. simpl. rewrite Hev. split.
      * apply StronglySorted_snoc; [exact Hs|].
        eapply Forall_impl; [exact Hf|]. simpl. intros; lia.
      * apply Forall_app. split.
        -- eapply Forall_impl; [exact Hf|]. simpl. intros; lia.
        -- constructor; [lia|constructor].
Qed.

(** A happening hands no event to [broadcast], or one, numbered with the
    next value of the counter. *)
Lemma step_counter (w : World) (h : happening) :
  (broadcasts (step w h) = broadcasts w ∧ sequence (step w h) = sequence w)
  ∨ (∃ event, broadcasts (step w h) = broadcasts w ++ [event]
            ∧ Sequence event = AddUint32 (sequence w) 1
            ∧ sequence (step w h) = AddUint32 (sequence w) 1).
Proof.
  assert (Hstop : ∀ v, broadcasts (stop_and_return v) = broadcasts v
                       ∧ sequence (stop_and_return v) = sequence v).
  { intros v. unfold stop_and_return.
    by destruct (Stop (rdr v) (echans v)) as [[r ec]|]. }
  unfold step. destruct (panicked w); [by left|].
  destruct h as [pick_ctx env now| |ch| | |ch|op]; try (by left).
  - destruct (loop w); try (by left). unfold readLoop_turn.
    destruct (negb (running (rdr w))); [by left|].
    destruct (ctx_done w && (negb (stopChan (rdr w)) || pick_ctx)); [left; apply Hstop|].
    destruct (stopChan (rdr w)); [by left|].
    destruct (Read (mgr w) (r_portName (rdr w)) (r_sessionID (rdr w))
                (bufferSize (rdr w)) env) as [m [[data err]|msg]]; [|by left].
    destruct (match err with None => true | Some _ => false end && (len data =? 0));
      [by left|].
    cbn zeta. unfold broadcast. cbn [with_mgr rdr echans sequence].
    destruct (broadcast_to (mkEvent data now (AddUint32 (sequence w) 1) err)
                (echans w) (subscribers (rdr w))) as [ec|msg]; [|by left].
    right. exists (mkEvent data now (AddUint32 (sequence w) 1) err).
    destruct err as [e|]; [|done]. destruct (is_fatal e); [|done].
    split; [|split; [done|]]; by rewrite (proj1 (Hstop _)) || rewrite (proj2 (Hstop _)).
  - left. by destruct (Unsubscribe (rdr w) (echans w) ch) as [[r ec]|].
  - left. by destruct (Stop (rdr w) (echans w)) as [[r ec]|].
  - left. unfold receive. by destruct (echans w !! ch) as [[[|event rest] cl]|].
Qed.

Lemma readLoop_turn_ordered (w : World) (pick_ctx : bool) (env : ReadEnv) (now : Z) :
  subscribers_open w → ordered w → 0 ≤ sequence w →
  (broadcasts (readLoop_turn w pick_ctx env now) ≠ broadcasts w →
   sequence w + 1 < 2 ^ 32) →
  subscribers_open (readLoop_turn w pick_ctx env now)
  ∧ ordered (readLoop_turn w pick_ctx env now).
Proof.
  intros Hopen Hord H0. unfold readLoop_turn.
  assert (Hsame : subscribers_open w ∧ ordered w) by done.
  destruct (negb (running (rdr w))); [intros _; exact Hsame|].
  destruct (ctx_done w && (negb (stopChan (rdr w)) || pick_ctx)).
  { intros _. destruct (stop_and_return_ordered w Hopen Hord) as (Ho & Hd & _). done. }
  destruct (stopChan (rdr w)); [intros _; exact Hsame|].
  destruct (Read (mgr w) (r_portName (rdr w)) (r_sessionID (rdr w))
              (bufferSize (rdr w)) env) as [m [[data err]|msg]];
    [|intros _; exact Hsame].
  destruct (match err with None => true | Some _ => false end && (len data =? 0));
    [intros _; exact Hsame|].
  cbn zeta. unfold broadcast. cbn [with_mgr rdr echans sequence].
  destruct (broadcast_to (mkEvent data now (AddUint32 (sequence w) 1) err)
              (echans w) (subscribers (rdr w))) as [ec|msg] eqn:Hb;
    [|intros _; exact Hsame].
  intros Hlt.
  assert (Hlt' : sequence w + 1 < 2 ^ 32).
  { apply Hlt. destruct err as [e|]; [destruct (is_fatal e)|];
      rewrite ?stop_and_return_broadcasts; simpl;
      intros Heq; apply (f_equal length) in Heq; rewrite length_app in Heq;
      simpl in Heq; lia. }
  clear Hlt. rewrite (AddUint32_small (sequence w)) in * by done.
  set (w1 := mkWorld m (rdr w) ec (ctx_done w) (loop w) (sequence w + 1) (slept w)
                     (broadcasts w ++ [mkEvent data now (sequence w + 1) err])
                     (received w) (panicked w)).
  destruct (broadcast_ordered w w1 (mkEvent data now (sequence w + 1) err))
    as [Hopen1 Hord1]; try done.
  destruct err as [e|]; [|done].
  destruct (is_fatal e); [|done].
  destruct (stop_and_return_ordered w1 Hopen1 Hord1) as (Ho & Hd & Hs). done.
Qed.

Lemma subscribers_allocated (w : World) (ch : nat) :
  subscribers_open w → ch ∈ subscribers (rdr w) → is_Some (echans w !! ch).
Proof.
  intros [_ Hopen] Hch. specialize (Hopen ch Hch). unfold flag in Hopen.
  destruct (echans w !! ch); [eauto|done].
Qed.

Lemma Subscribe_ordered (w : World) :
  subscribers_open w → ordered w →
  let '(r, ec, _) := Subscribe (rdr w) (echans w) in
  subscribers_open (with_reader w r ec) ∧ ordered (with_reader w r ec).
Proof.
  intros Hopen Hord. pose proof (Subscribe_open w Hopen) as Ho. revert Ho.
  unfold Subscribe.
  set (ch := fresh (dom (echans w))).
  assert (Hfresh : echans w !! ch = None) by apply not_elem_of_dom, is_fresh.
  intros Ho. split; [exact Ho|].
  apply (ordered_same w); [done| |done|done].
  intros c. unfold waiting. simpl. destruct (decide (ch = c)) as [<-|Hne].
  - by rewrite lookup_insert_eq, Hfresh.
  - by rewrite lookup_insert_ne.
Qed.

Lemma Unsubscribe_ordered (w : World) (ch : nat) (r : Reader) (ec : gmap nat EventChan) :
  subscribers_open w → ordered w →
  Unsubscribe (rdr w) (echans w) ch = Returns (r, ec) →
  subscribers_open (with_reader w r ec) ∧ ordered (with_reader w r ec).
Proof.
  intros Hopen Hord HU. split; [by apply (Unsubscribe_open w ch)|].
  revert HU. unfold Unsubscribe.
  destruct (remove_first ch (subscribers (rdr w))) as [subs|] eqn:E;
    [|by intros [= <- <-]].
  destruct (close_chan (echans w) ch) as [ec1|] eqn:Ec; [|done]. simpl.
  intros [= <- <-].
  apply (ordered_same w); [done| |done|done]. apply waiting_same.
  by eapply close_chan_queue.
Qed.

Lemma receive_ordered (w : World) (ch : nat) :
  subscribers_open w → ordered w →
  subscribers_open (receive w ch) ∧ ordered (receive w ch)
  ∧ sequence (receive w ch) = sequence w.
Proof.
  intros Hopen Hord. split; [by apply receive_open|]. unfold receive.
  destruct (echans w !! ch) as [[[|event rest] cl]|] eqn:E; [done| |done].
  split; [|done].
  intros c. specialize (Hord c). unfold stream, received_by, waiting in *. simpl.
  rewrite filter_app, fmap_app.
  destruct (decide (ch = c)) as [<-|Hne].
  - rewrite lookup_insert_eq. rewrite E in Hord. simpl in Hord.
    rewrite filter_cons_True by done. simpl.
    rewrite ?filter_nil. simpl. by rewrite <- app_assoc.
  - rewrite lookup_insert_ne by done.
    rewrite filter_cons_False by (simpl; congruence).
    rewrite ?filter_nil. simpl. by rewrite app_nil_r.
Qed.

(** Every happening keeps the streams ordered, as long as the counter does
    not reach 2^32. *)
Lemma step_ordered (w : World) (h : happening) :
  subscribers_open w → ordered w →
  sequence w = Z.of_nat (length (broadcasts w)) →
  Z.of_nat (length (broadcasts (step w h))) < 2 ^ 32 →
  subscribers_open (step w h) ∧ ordered (step w h)
  ∧ sequence (step w h) = Z.of_nat (length (broadcasts (step w h))).
Proof.
  intros Hopen Hord Hseq Hlt.
  assert (Hcount : sequence (step w h) = Z.of_nat (length (broadcasts (step w h)))
                   ∧ (broadcasts (step w h) ≠ broadcasts w → sequence w + 1 < 2 ^ 32)).
  { destruct (step_counter w h) as [[Hb Hs]|(event & Hb & _ & Hs)].
    - rewrite Hb, Hs. done.
    - rewrite Hb, length_app in Hlt. simpl in Hlt.
      rewrite Hs, Hb, length_app. simpl.
      rewrite AddUint32_small by lia. split; lia. }
  destruct Hcount as [Hcount Hroom].
  cut (subscribers_open (step w h) ∧ ordered (step w h)); [tauto|].
  clear Hcount Hlt. revert Hroom. unfold step.
  destruct (panicked w); [done|].
  destruct h as [pick_ctx env now| |ch| | |ch|op].
  - destruct (loop w); [done| |done]. intros Hroom.
    apply readLoop_turn_ordered; [done|done|lia|done].
  - intros _. pose proof (Subscribe_ordered w Hopen Hord) as H.
    by destruct (Subscribe (rdr w) (echans w)) as [[r ec] c].
  - intros _.
    destruct (Unsubscribe (rdr w) (echans w) ch) as [[r ec]|] eqn:E; [|done].
    by apply (Unsubscribe_ordered w ch r ec).
  - intros _. destruct (stop_and_return_ordered w Hopen Hord) as (Ho & Hd & _).
    unfold stop_and_return in *.
    by destruct (Stop (rdr w) (echans w)) as [[r ec]|].
  - done.
  - intros _. by destruct (receive_ordered w ch Hopen Hord) as (Ho & Hd & _).
  - done.
Qed.

Lemma step_broadcasts_mono (w : World) (h : happening) :
  (length (broadcasts w) ≤ length (broadcasts (step w h)))%nat.
Proof.
  destruct (step_counter w h) as [[-> _]|(event & -> & _)]; [done|].
  rewrite length_app. lia.
Qed.

Lemma run_broadcasts_mono (hs : list happening) (w : World) :
  (length (broadcasts w) ≤ length (broadcasts (run w hs)))%nat.
Proof.
  revert w. induction hs as [|h hs IH]; intros w; [done|]. simpl.
  etrans; [apply (step_broadcasts_mono w h)|apply IH].
Qed.

Lemma run_ordered (hs : list happening) (w : World) :
  subscribers_open w → ordered w →
  sequence w = Z.of_nat (length (broadcasts w)) →
  Z.of_nat (length (broadcasts (run w hs))) < 2 ^ 32 →
  subscribers_open (run w hs) ∧ ordered (run w hs).
Proof.
  revert w. induction hs as [|h hs IH]; intros w Hopen Hord Hseq Hlt; [done|].
  simpl in *. pose proof (run_broadcasts_mono hs (step w h)).
  destruct (step_ordered w h Hopen Hord Hseq) as (Ho & Hd & Hs); [lia|].
  by apply IH.
Qed.

Lemma nth_sequence_S (k : nat) : AddUint32 (nth_sequence k) 1 = nth_sequence (S k).
Proof.
  unfold AddUint32, nth_sequence, uint32.
  rewrite Zplus_mod_idemp_l. f_equal. lia.
Qed.

Lemma step_numbered (w : World) (h : happening) : numbered w → numbered (step w h).
Proof.
  intros [Hs Hb]. destruct (step_counter w h) as [[Eb Es]|(event & Eb & Ee & Es)].
  - split; rewrite ?Eb, ?Es; done.
  - assert (Hlen : length (broadcasts w ++ [event]) = S (length (broadcasts w))).
    { rewrite length_app. simpl. lia. }
    split; rewrite Eb, ?Es, Hlen, ?Hs, ?nth_sequence_S; [done|].
    rewrite fmap_app, Hb, seq_S, fmap_app. simpl.
    by rewrite Ee, Hs, nth_sequence_S.
Qed.

Lemma run_numbered (hs : list happening) (w : World) :
  numbered w → numbered (run w hs).
Proof.
  revert w. induction hs as [|h hs IH]; intros w Hn; [done|].
  simpl. by apply IH, step_numbered.
Qed.

(** Before [Start] the goroutine does not exist: nothing is broadcast. *)
Lemma step_idle (w : World) (h : happening) :
  loop w = NotStarted →
  loop (step w h) = NotStarted ∧ broadcasts (step w h) = broadcasts w
  ∧ sequence (step w h) = sequence w.
Proof.
  intros Hloop. unfold step. destruct (panicked w); [done|].
  destruct h as [pick_ctx env now| |ch| | |ch|op]; try done.
  - by rewrite Hloop.
  - by destruct (Unsubscribe (rdr w) (echans w) ch) as [[r ec]|].
  - by destruct (Stop (rdr w) (echans w)) as [[r ec]|].
  - unfold receive. by destruct (echans w !! ch) as [[[|event rest] cl]|].
Qed.

Lemma run_idle (hs : list happening) (w : World) :
  loop w = NotStarted → broadcasts w = [] → sequence w = 0 →
  subscribers_open w → ordered w →
  broadcasts (run w hs) = [] ∧ sequence (run w hs) = 0
  ∧ subscribers_open (run w hs) ∧ ordered (run w hs).
Proof.
  revert w. induction hs as [|h hs IH]; intros w Hloop Hb Hs Hopen Hord; [done|].
  destruct (step_idle w h Hloop) as (Hloop' & Hb' & Hs').
  destruct (step_ordered w h Hopen Hord) as (Ho & Hd & _).
  - by rewrite Hs, Hb.
  - rewrite Hb', Hb. simpl. lia.
  - simpl. apply IH; [done|by rewrite Hb'|by rewrite Hs'|done|done].
Qed.

Lemma Start_fresh (w : World) :
  broadcasts w = [] → sequence w = 0 → subscribers_open w → ordered w →
  broadcasts (Start w).1 = [] ∧ sequence (Start w).1 = 0
  ∧ subscribers_open (Start w).1 ∧ ordered (Start w).1.
Proof.
  intros Hb Hs Hopen Hord. unfold Start.
  destruct (running (rdr w)); [done|].
  destruct (ValidateSession (mgr w) (r_portName (rdr w)) (r_sessionID (rdr w)));
    [|done].
  simpl. split; [done|]. split; [done|]. split; [exact Hopen|].
  apply (ordered_same w); done.
Qed.

(** The world in which a run begins: a new reader, whatever happens before
    [Start], then [Start]. *)
Lemma started_world (m : Manager) (portName sessionID : string) (bufSize : Z)
    (pre : list happening) :
  let w0 := (Start (run (NewWorld m (NewReader portName sessionID bufSize)) pre)).1 in
  broadcasts w0 = [] ∧ sequence w0 = 0 ∧ subscribers_open w0 ∧ ordered w0.
Proof.
  destruct (run_idle pre (NewWorld m (NewReader portName sessionID bufSize)))
    as (Hb & Hs & Hopen & Hord); try done.
  - split; simpl; [apply NoDup_nil_2|]. intros ch H. by apply elem_of_nil in H.
  - intros ch. unfold stream, received_by, waiting. simpl.
    rewrite lookup_empty. simpl. split; constructor.
  - by apply Start_fresh.
Qed.

(** ** Error classes of the read loop *)

(** C4. In every world reached in a run of a continuous reader, in a turn
    of the loop that reaches the read (reader running, context not
    cancelled, stop channel open), when the read returns an error the
    error event is broadcast with the next sequence number. If the error
    is [ErrPortClosed] or [ErrInvalidSession] the loop then stops itself:
    the reader is no longer running, every subscriber channel is closed
    and the goroutine has exited. For every other error the loop pauses
    10 ms and goes on: the goroutine is still looping, the reader running
    and the subscriber channels open. *)
Theorem readLoop_error_classes (m0 : Manager) (portName sessionID : string)
    (bufSize : Z) (pre hs : list happening) (pick_ctx : bool) (env : ReadEnv)
    (now : Z) (m : Manager) (data : slice) (err : error) :
  let w := run (Start (run (NewWorld m0 (NewReader portName sessionID bufSize))
                           pre)).1 hs in
  panicked w = None → loop w = Looping →
  running (rdr w) = true → ctx_done w = false → stopChan (rdr w) = false →
  Read (mgr w) (r_portName (rdr w)) (r_sessionID (rdr w)) (bufferSize (rdr w)) env
    = (m, Returns (data, Some err)) →
  let w' := step w (Turn pick_ctx env now) in
  panicked w' = None
  ∧ broadcasts w'
    = broadcasts w ++ [mkEvent data now (AddUint32 (sequence w) 1) (Some err)]
  ∧ (err = ErrPortClosed ∨ err = ErrInvalidSession →
       loop w' = Exited ∧ running (rdr w') = false ∧ subscribers (rdr w') = []
       ∧ ∀ ch, ch ∈ subscribers (rdr w) → flag (echans w') ch = Some true)
  ∧ (err ≠ ErrPortClosed → err ≠ ErrInvalidSession →
       loop w' = Looping ∧ running (rdr w') = true
       ∧ slept w' = 10 * Millisecond :: slept w
       ∧ subscribers (rdr w') = subscribers (rdr w)
       ∧ ∀ ch, ch ∈ subscribers (rdr w) → flag (echans w') ch = Some false).
Proof.
  intros w. apply readLoop_turn_on_error.
  apply run_subscribers_open.
  by destruct (started_world m0 portName sessionID bufSize pre) as (_ & _ & Hopen & _).
Qed.

Lemma readLoop_error_classes_witness :
  let w' := step w_reopened (Turn false nothing_read 300) in
  loop w' = Exited ∧ running (rdr w') = false
  ∧ flag (echans w') 0%nat = Some true
  ∧ broadcasts w' = [mkEvent None 300 1 (Some ErrInvalidSession)].
Proof.
  destruct (readLoop_error_classes m_excl "COM1" "s-1" 0 [DoSubscribe]
              [ManagerCall (OpClosePort "COM1" "s-1" None);
               ManagerCall (OpOpenPort "COM1" DefaultConfig "bob" true
                                       (mkOpenEnv None 4%nat None "s-2" 200 200))]
              false nothing_read 300 (mgr w_reopened) None ErrInvalidSession)
    as (_ & Hb & Hfatal & _).
  - by vm_compute.
  - by vm_compute.
  - by vm_compute.
  - by vm_compute.
  - by vm_compute.
  - by vm_compute.
  - destruct Hfatal as (H1 & H2 & _ & H4); [by right|].
    cbn zeta. split; [exact H1|]. split; [exact H2|]. split.
    + apply H4. by vm_compute; apply list_elem_of_singleton.
    + exact Hb.
Defined.

(** A transient error at work: after [ClosePort] alone the read reports
    [ErrPortNotOpen], which is not in the fatal class, and a framing error
    of the transport is not either; the loop goes on. *)
Example transient_errors_continue :
  let w1 := step w_closed (Turn false nothing_read 300) in
  let w2 := step w_started (Turn false glitch 300) in
  broadcasts w1 = [mkEvent None 300 1 (Some ErrPortNotOpen)]
  ∧ loop w1 = Looping ∧ slept w1 = [10000000]
  ∧ broadcasts w2 = [mkEvent None 300 1 (Some (ErrHardware "framing error"))]
  ∧ loop w2 = Looping ∧ slept w2 = [10000000].
Proof. by vm_compute. Qed.

(** ** Reads that bring nothing: the loop *)

(** C6. A [Read] that succeeds returns a slice that is not [nil] together
    with a [nil] error; when the port has nothing ready the result is the
    empty slice with a [nil] error. In every world reached in a run of a
    continuous reader, a successful read of length zero leaves everything
    of the reader as it was (only the manager has seen the read): nothing
    is broadcast; an event is broadcast only if the read gave an error or
    at least one byte, and then it is. *)
Theorem empty_read_is_no_event :
  (∀ m portName sessionID maxBytes env m' data,
     Read m portName sessionID maxBytes env = (m', Returns (data, None)) →
     data = Some (take (Z.to_nat maxBytes) (rd_data env)) ∧ rd_err env = None)
  ∧ (∀ m portName sessionID maxBytes env p,
     ValidateSession m portName sessionID = inl p → 0 ≤ maxBytes →
     rd_data env = [] → rd_err env = None →
     (Read m portName sessionID maxBytes env).2 = Returns (Some [], None))
  ∧ (∀ m0 name sid bufSize pre hs pick_ctx env now m data err,
     let w := run (Start (run (NewWorld m0 (NewReader name sid bufSize)) pre)).1 hs in
     panicked w = None → loop w = Looping →
     running (rdr w) = true → ctx_done w = false → stopChan (rdr w) = false →
     Read (mgr w) (r_portName (rdr w)) (r_sessionID (rdr w)) (bufferSize (rdr w)) env
       = (m, Returns (data, err)) →
     let w' := step w (Turn pick_ctx env now) in
     (err = None → len data = 0 → w' = with_mgr w m)
     ∧ (broadcasts w' ≠ broadcasts w → err ≠ None ∨ 0 < len data)
     ∧ (err ≠ None ∨ 0 < len data →
        broadcasts w'
        = broadcasts w ++ [mkEvent data now (AddUint32 (sequence w) 1) err])).
Proof.
  split; [|split].
  - intros m portName sessionID maxBytes env m' data. unfold Read.
    destruct (ValidateSession m portName sessionID) as [p|]; [|done].
    destruct (maxBytes <? 0); [done|].
    pose proof (port_Read_count env (replicate (Z.to_nat maxBytes) Byte.x00)) as Hc.
    destruct (port_Read env (replicate (Z.to_nat maxBytes) Byte.x00))
      as [[buffer' n] err] eqn:E.
    assert (err = rd_err env) as -> by (unfold port_Read in E; congruence).
    destruct (rd_err env); [done|]. intros [= <- <-].
    destruct Hc as [_ ->]. by rewrite length_replicate.
  - intros m portName sessionID maxBytes env p Hv Hmax Hdata Herr. unfold Read.
    rewrite Hv. destruct (maxBytes <? 0) eqn:E; [lia|].
    unfold port_Read. rewrite Hdata, Herr, take_nil. done.
  - intros m0 name sid bufSize pre hs pick_ctx env now m data err w
      Hpan Hloop Hrun Hctx Hstop Hread w'.
    assert (Hopen : subscribers_open w).
    { apply run_subscribers_open.
      by destruct (started_world m0 name sid bufSize pre) as (_ & _ & Hopen & _). }
    unfold w'.
    rewrite (readLoop_turn_default w pick_ctx env now m data err) by done.
    split; [|split].
    + intros -> ->. done.
    + destruct err as [e|]; [by left|]. cbn [andb].
      destruct (len data =? 0) eqn:E; [done|]. intros _. right.
      assert (0 ≤ len data) by (destruct data; simpl; lia). lia.
    + intros Hev. destruct Hopen as [_ Hopen].
      assert (match err with None => true | Some _ => false end && (len data =? 0)
              = false) as ->.
      { destruct err; [done|]. destruct Hev as [|Hlen]; [done|].
        cbn [andb]. lia. }
      destruct (broadcast_to_open (mkEvent data now (AddUint32 (sequence w) 1) err)
                  (subscribers (rdr w)) (echans w) Hopen) as [ec Hec].
      cbn zeta. rewrite Hec. destruct err as [e|]; [|done].
      destruct (is_fatal e); [|done]. by rewrite stop_and_return_broadcasts.
Qed.

Lemma empty_read_is_no_event_witness :
  let w' := step w_started (Turn false nothing_read 300) in
  (Read (mgr w_started) "COM1" "s-1" 1024 nothing_read).2 = Returns (Some [], None)
  ∧ w' = with_mgr w_started (Read (mgr w_started) "COM1" "s-1" 1024 nothing_read).1
  ∧ broadcasts w' = [] ∧ sequence w' = 0.
Proof.
  destruct empty_read_is_no_event as (_ & Hzero & Hloop).
  split; [|split].
  - apply (Hzero (mgr w_started) "COM1" "s-1" 1024 nothing_read 0%nat).
    + by vm_compute.
    + lia.
    + reflexivity.
    + reflexivity.
  - apply (Hloop m_excl "COM1" "s-1" 0 [DoSubscribe] [] false nothing_read 300
             (Read (mgr w_started) "COM1" "s-1" 1024 nothing_read).1 (Some []) None).
    + reflexivity.
    + reflexivity.
    + reflexivity.
    + reflexivity.
    + reflexivity.
    + by vm_compute.
    + reflexivity.
    + reflexivity.
  - by vm_compute.
Defined.

(** ** Sequence numbers of a run *)

(** C5, as the code has it: the counter is a [uint32]. In every run of a
    continuous reader the events handed to [broadcast] carry the numbers
    1, 2, 3, ... modulo 2^32; and as long as fewer than 2^32 events have
    been produced in the run, the sequence numbers of the events a
    subscriber receives increase strictly (each exceeds the one before by
    at least 1, gaps being dropped events). *)
Theorem sequence_numbers_increase (m : Manager) (portName sessionID : string)
    (bufSize : Z) (pre hs : list happening) :
  let w := run (Start (run (NewWorld m (NewReader portName sessionID bufSize))
                           pre)).1 hs in
  Sequence <$> broadcasts w = nth_sequence <$> seq 1 (length (broadcasts w))
  ∧ (Z.of_nat (length (broadcasts w)) < 2 ^ 32 →
     ∀ ch, StronglySorted Z.lt (received_by ch w)).
Proof.
  intros w.
  destruct (started_world m portName sessionID bufSize pre) as (Hb & Hs & Hopen & Hord).
  split.
  - apply run_numbered. split; rewrite Hb, ?Hs; done.
  - intros Hlt ch.
    destruct (run_ordered hs _ Hopen Hord) as [_ Hord'].
    + by rewrite Hs, Hb.
    + exact Hlt.
    + destruct (Hord' ch) as [Hsorted _]. unfold stream in Hsorted.
      by apply StronglySorted_app_1_l in Hsorted.
Qed.

Lemma sequence_numbers_increase_witness :
  let w := run w_started (cycles 2 one_byte 300) in
  received_by 0%nat w = [1; 2] ∧ StronglySorted Z.lt (received_by 0%nat w).
Proof.
  split; [by vm_compute|].
  apply (sequence_numbers_increase m_excl "COM1" "s-1" 0 [DoSubscribe]
           (cycles 2 one_byte 300)).
  vm_compute. reflexivity.
Defined.

(** *** Once around the counter *)

Lemma deref_update_ne (m : Manager) (p q : nat) (f : Session → Session) :
  p ≠ q → deref (update m p f) q = deref m q.
Proof. intros H. unfold deref, update. simpl. by rewrite lookup_total_insert_ne. Qed.

Lemma ValidateSession_update (m : Manager) (p : nat) (f : Session → Session)
    (portName sessionID : string) :
  (∀ s, ID (f s) = ID s ∧ closed (f s) = closed s) →
  ValidateSession (update m p f) portName sessionID
  = ValidateSession m portName sessionID.
Proof.
  intros Hf. unfold ValidateSession. simpl.
  destruct (sessions m !! portName) as [q|]; [|done].
  destruct (decide (p = q)) as [<-|Hne].
  - rewrite deref_update. by destruct (Hf (deref m p)) as [-> ->].
  - by rewrite deref_update_ne.
Qed.

Lemma broadcast_to_empty_channel (event : DataEvent) :
  broadcast_to event {[0%nat := mkChan [] false]} [0%nat]
  = Returns {[0%nat := mkChan [event] false]}.
Proof. reflexivity. Qed.

Lemma receive_single (w : World) (event : DataEvent) :
  echans w = {[0%nat := mkChan [event] false]} →
  receive w 0%nat
  = mkWorld (mgr w) (rdr w) {[0%nat := mkChan [] false]} (ctx_done w) (loop w)
            (sequence w) (slept w) (broadcasts w)
            (received w ++ [(0%nat, event)]) (panicked w).
Proof.
  intros H. unfold receive. rewrite H, lookup_singleton_eq. reflexivity.
Qed.

Lemma one_cycle (w : World) :
  cycling w →
  let w' := run w [Turn false one_byte 300; Receive 0%nat] in
  cycling w' ∧ sequence w' = AddUint32 (sequence w) 1
  ∧ received w'
    = received w
      ++ [(0%nat, mkEvent (Some [Byte.x41]) 300 (AddUint32 (sequence w) 1) None)].
Proof.
  intros (Hpan & Hloop & Hrdr & Hctx & Hec & Hv).
  assert (Hread : ∃ m, Read (mgr w) (r_portName (rdr w)) (r_sessionID (rdr w))
                         (bufferSize (rdr w)) one_byte
                       = (m, Returns (Some [Byte.x41], None))
                       ∧ ValidateSession m "COM1" "s-1" = inl 0%nat).
  { rewrite Hrdr. change (r_portName (rdr w_started)) with "COM1".
    change (r_sessionID (rdr w_started)) with "s-1".
    change (bufferSize (rdr w_started)) with 1024.
    unfold Read. rewrite Hv. eexists. split; [reflexivity|].
    by rewrite ValidateSession_update. }
  destruct Hread as (m & Hread & Hv').
  set (event := mkEvent (Some [Byte.x41]) 300 (AddUint32 (sequence w) 1) None).
  assert (Hw1 : step w (Turn false one_byte 300)
                = mkWorld m (rdr w) {[0%nat := mkChan [event] false]} (ctx_done w)
                          (loop w) (AddUint32 (sequence w) 1) (slept w)
                          (broadcasts w ++ [event]) (received w) (panicked w)).
  { rewrite (readLoop_turn_default w false one_byte 300 m (Some [Byte.x41]) None);
      try done; [|by rewrite Hrdr..].
    change (true && (len (Some [Byte.x41]) =? 0)) with false. cbn iota zeta.
    rewrite Hec, Hrdr. change (subscribers (rdr w_started)) with [0%nat].
    fold event. by rewrite broadcast_to_empty_channel. }
  cbn [run foldl]. rewrite Hw1.
  set (w1 := mkWorld m (rdr w) {[0%nat := mkChan [event] false]} (ctx_done w)
                     (loop w) (AddUint32 (sequence w) 1) (slept w)
                     (broadcasts w ++ [event]) (received w) (panicked w)).
  assert (Hw2 : step w1 (Receive 0%nat) = receive w1 0%nat).
  { unfold step. cbn [panicked w1]. by rewrite Hpan. }
  rewrite Hw2, (receive_single w1 event) by done.
  unfold cycling. cbn. repeat split; done.
Qed.

Lemma received_by_snoc (w w' : World) (ch : nat) (event : DataEvent) :
  received w' = received w ++ [(ch, event)] →
  received_by ch w' = received_by ch w ++ [Sequence event].
Proof.
  intros H. unfold received_by. rewrite H, filter_app, fmap_app.
  by rewrite filter_cons_True.
Qed.

Lemma cycles_received (n k : nat) (w : World) :
  cycling w → sequence w = nth_sequence k →
  received_by 0%nat w = nth_sequence <$> seq 1 k →
  let w' := run w (cycles n one_byte 300) in
  cycling w' ∧ sequence w' = nth_sequence (k + n)
  ∧ received_by 0%nat w' = nth_sequence <$> seq 1 (k + n).
Proof.
  revert k w. induction n as [|n IH]; intros k w Hc Hs Hr.
  - rewrite Nat.add_0_r. done.
  - destruct (one_cycle w Hc) as (Hc' & Hs' & Hr').
    cbn [cycles]. change (run w (Turn false one_byte 300 :: Receive 0%nat
                                  :: cycles n one_byte 300))
      with (run (run w [Turn false one_byte 300; Receive 0%nat])
                (cycles n one_byte 300)).
    replace (k + S n)%nat with (S k + n)%nat by lia.
    apply IH; [exact Hc'| |].
    + by rewrite Hs', Hs, nth_sequence_S.
    + rewrite (received_by_snoc _ _ _ _ Hr'), Hr, seq_S, fmap_app. simpl.
      by rewrite Hs, nth_sequence_S.
Qed.

Lemma StronglySorted_lookup_lt (l : list Z) (i j : nat) (a b : Z) :
  StronglySorted Z.lt l → l !! i = Some a → l !! j = Some b → (i < j)%nat → a < b.
Proof.
  intros Hl. revert i j. induction Hl as [|x l Hl IH Hx]; intros i j Hi Hj Hlt.
  - done.
  - destruct j as [|j]; [lia|]. destruct i as [|i].
    + injection Hi as ->. simpl in Hj.
      rewrite Forall_forall in Hx. apply Hx. by eapply list_elem_of_lookup_2.
    + simpl in Hi, Hj. apply (IH i j); [done|done|lia].
Qed.

(** C5 as stated fails: in the run [once_around] (2^32 reads of one byte on
    an open session, the subscriber taking every event at once) the
    subscriber receives number 4294967295 and right after it number 0. *)
Lemma sequence_wraps_counterexample :
  let w := run w_started once_around in
  (∃ i, received_by 0%nat w !! i = Some 4294967295
        ∧ received_by 0%nat w !! S i = Some 0)
  ∧ ¬ StronglySorted Z.lt (received_by 0%nat w).
Proof.
  intros w. unfold w, once_around.
  assert (HN : ∃ N, Z.to_nat (2 ^ 32) = N ∧ Z.of_nat N = 4294967296).
  { eexists. split; [reflexivity|]. rewrite Z2Nat.id; [reflexivity|].
    apply Z.pow_nonneg. lia. }
  destruct HN as (N & -> & HN).
  destruct (cycles_received N 0 w_started) as (_ & _ & Hr).
  - unfold cycling. repeat split; by vm_compute.
  - by vm_compute.
  - by vm_compute.
  - rewrite Nat.add_0_l in Hr. rewrite Hr.
    assert (Hwrap : ∃ i, (nth_sequence <$> seq 1 N) !! i = Some 4294967295
                         ∧ (nth_sequence <$> seq 1 N) !! S i = Some 0).
    { exists (N - 2)%nat. rewrite !list_lookup_fmap.
      rewrite !lookup_seq_lt by lia. cbn [fmap option_fmap option_map].
      unfold nth_sequence, uint32. split; f_equal.
      - replace (Z.of_nat (1 + (N - 2))) with 4294967295 by lia. reflexivity.
      - replace (Z.of_nat (1 + S (N - 2))) with 4294967296 by lia. reflexivity. }
    split; [exact Hwrap|].
    destruct Hwrap as (i & Ha & Hb). intros Hsorted.
    pose proof (StronglySorted_lookup_lt _ i (S i) _ _ Hsorted Ha Hb). lia.
Qed.

(** ** Lines *)

Lemma index_of_spec (delim : Byte.byte) (buf : list Byte.byte) (i : nat) :
  index_of delim buf = Some i → buf !! i = Some delim ∧ delim ∉ take i buf.
Proof.
  revert i. induction buf as [|b buf IH]; intros i; simpl; [done|].
  destruct (Byte.eqb b delim) eqn:E.
  - intros [= <-]. apply Byte.byte_dec_bl in E as ->. split; [done|].
    simpl. apply not_elem_of_nil.
  - destruct (index_of delim buf) as [j|]; [|done]. intros [= <-].
    destruct (IH j eq_refl) as [Hj Hnot]. split; [done|]. simpl.
    apply not_elem_of_cons. split; [|done]. intros ->.
    by rewrite Byte.byte_dec_lb in E.
Qed.

Lemma index_of_None (delim : Byte.byte) (buf : list Byte.byte) :
  index_of delim buf = None → delim ∉ buf.
Proof.
  induction buf as [|b buf IH]; simpl; [intros _; apply not_elem_of_nil|].
  destruct (Byte.eqb b delim) eqn:E; [done|].
  destruct (index_of delim buf); [done|]. intros _.
  apply not_elem_of_cons. split; [|by apply IH]. intros ->.
  by rewrite Byte.byte_dec_lb in E.
Qed.

(** C10, as the code has it: [ReadLine] looks for a delimiter in its buffer
    before it looks at the channel. (1) As long as the buffer holds a
    delimiter, [ReadLine] returns the bytes before the first one, whatever
    the state of the channel, and keeps the rest. (2) When its receive
    finds the channel closed and drained, the buffer (with the data of the
    events taken on the way) holds no delimiter; if it is non-empty it is
    returned whole as a final line with a [nil] error and the buffer is
    reset, and if it is empty the result is a [nil] line with
    [ErrPortClosed]. (3) Every line returned on the normal path comes with
    a [nil] error and does not contain the delimiter. *)
Theorem ReadLine_on_closed_channel (lr : LineReader) (pending : list DataEvent)
    (chan_closed : bool) :
  (∀ i, index_of (delimiter lr) (elems (buffer lr)) = Some i →
     ReadLine lr pending chan_closed
     = (with_buffer lr (Some (drop (S i) (elems (buffer lr)))), pending,
        Some (Some (take i (elems (buffer lr))), None, AtDelimiter)))
  ∧ (∀ lr' rest line err,
     ReadLine lr pending chan_closed = (lr', rest, Some (line, err, AtClose)) →
     let buf := foldl append (buffer lr) (Data <$> pending) in
     chan_closed = true ∧ rest = [] ∧ (delimiter lr ∉ elems buf)
     ∧ (if len buf >? 0
        then line = buf ∧ err = None ∧ buffer lr' = None
        else line = None ∧ err = Some ErrPortClosed))
  ∧ (∀ lr' rest line err,
     ReadLine lr pending chan_closed = (lr', rest, Some (line, err, AtDelimiter)) →
     err = None ∧ delimiter lr ∉ elems line).
Proof.
  split; [|split].
  - intros i Hi. destruct pending; simpl; by rewrite Hi.
  - revert lr. induction pending as [|event pending IH]; intros lr lr' rest line err;
      simpl; destruct (index_of (delimiter lr) (elems (buffer lr))) eqn:Hidx;
      try done.
    + destruct chan_closed; [|done]. apply index_of_None in Hidx.
      destruct (len (buffer lr) >? 0); intros [= <- <- <- <-]; done.
    + destruct (Error event); [done|].
      destruct (len (append (buffer lr) (Data event)) >? maxLine lr); [done|].
      intros H. by apply IH in H.
  - revert lr. induction pending as [|event pending IH]; intros lr lr' rest line err;
      simpl; destruct (index_of (delimiter lr) (elems (buffer lr))) eqn:Hidx.
    + intros [= <- <- <- <-]. split; [done|].
      apply index_of_spec in Hidx as [_ Hnot]. exact Hnot.
    + destruct chan_closed; [|done]. by destruct (len (buffer lr) >? 0).
    + intros [= <- <- <- <-]. split; [done|].
      apply index_of_spec in Hidx as [_ Hnot]. exact Hnot.
    + destruct (Error event); [done|].
      destruct (len (append (buffer lr) (Data event)) >? maxLine lr); [done|].
      intros H. by apply IH in H.
Qed.

Lemma ReadLine_on_closed_channel_witness :
  ReadLine lr_partial [] true
  = (with_buffer lr_partial None, [], Some (Some [Byte.x63; Byte.x64], None, AtClose))
  ∧ ReadLine (with_buffer lr_partial None) [] true
    = (with_buffer lr_partial None, [], Some (None, Some ErrPortClosed, AtClose)).
Proof.
  split.
  - destruct (ReadLine_on_closed_channel lr_partial [] true) as (_ & Hclose & _).
    destruct (Hclose (with_buffer lr_partial None) [] (Some [Byte.x63; Byte.x64]) None)
      as (_ & _ & _ & Hline).
    + reflexivity.
    + reflexivity.
  - destruct (ReadLine_on_closed_channel (with_buffer lr_partial None) [] true)
      as (_ & Hclose & _).
    destruct (Hclose (with_buffer lr_partial None) [] None (Some ErrPortClosed))
      as (_ & _ & _ & Hline).
    + reflexivity.
    + reflexivity.
Defined.

(** C10 as stated fails: the channel is closed and the buffer holds
    [ab], a line feed and [cd]; [ReadLine] returns [ab] with a [nil] error,
    not the buffered bytes, and [cd] stays in the buffer. *)
Lemma ReadLine_counterexample :
  ReadLine lr_two_lines [] true
  = (lr_partial, [], Some (Some [Byte.x61; Byte.x62], None, AtDelimiter))
  ∧ Some [Byte.x61; Byte.x62] ≠ buffer lr_two_lines
  ∧ 0 < len (buffer lr_partial).
Proof. split; [reflexivity|]. split; [discriminate|reflexivity]. Qed.

(** The path through a buffer that outgrows [maxLine] gives no such
    guarantee: the partial line may contain delimiters. *)
Example overflow_keeps_delimiter :
  ReadLine (mkLineReader (NewReader "COM1" "s-1" 0) Byte.x0a None 2)
           [mkEvent (Some [Byte.x61; Byte.x62; Byte.x63; Byte.x0a]) 300 1 None] false
  = (mkLineReader (NewReader "COM1" "s-1" 0) Byte.x0a None 2, [],
     Some (Some [Byte.x61; Byte.x62; Byte.x63; Byte.x0a], None, AtOverflow)).
Proof. reflexivity. Qed.

(** ** Order of strings *)

Lemma ascii_compare_refl (c : Ascii.ascii) : Ascii.compare c c = Eq.
Proof. unfold Ascii.compare. apply N.compare_refl. Qed.

Lemma ascii_compare_lt_trans (a b c : Ascii.ascii) :
  Ascii.compare a b = Lt → Ascii.compare b c = Lt → Ascii.compare a c = Lt.
Proof. unfold Ascii.compare. rewrite !N.compare_lt_iff. lia. Qed.

Lemma string_compare_refl (s : string) : String.compare s s = Eq.
Proof. induction s as [|c s IH]; simpl; [done|]. by rewrite ascii_compare_refl. Qed.

Lemma string_compare_lt_trans (a b c : string) :
  String.compare a b = Lt → String.compare b c = Lt → String.compare a c = Lt.
Proof.
  revert b c. induction a as [|x a IH]; intros [|y b] [|z c]; simpl; try done.
  destruct (Ascii.compare x y) eqn:Exy; try done;
    destruct (Ascii.compare y z) eqn:Eyz; try done.
  - apply Ascii.compare_eq_iff in Exy as ->. apply Ascii.compare_eq_iff in Eyz as ->.
    rewrite ascii_compare_refl. apply IH.
  - apply Ascii.compare_eq_iff in Exy as ->. by rewrite Eyz.
  - apply Ascii.compare_eq_iff in Eyz as <-. by rewrite Exy.
  - by rewrite (ascii_compare_lt_trans x y z).
Qed.

Lemma string_ltb_lt (a b : string) : String.ltb a b = true ↔ String.compare a b = Lt.
Proof. unfold String.ltb. by destruct (String.compare a b). Qed.

Lemma string_ltb_false (a b : string) : String.ltb a b = false ↔ String.leb b a = true.
Proof.
  unfold String.ltb, String.leb. rewrite (String.compare_antisym a b).
  by destruct (String.compare b a).
Qed.

Lemma string_leb_trans (a b c : string) :
  String.leb a b = true → String.leb b c = true → String.leb a c = true.
Proof.
  unfold String.leb.
  destruct (String.compare a b) eqn:Eab; try done;
    destruct (String.compare b c) eqn:Ebc; try done; intros _ _.
  - apply String.compare_eq_iff in Eab as ->. by rewrite Ebc.
  - apply String.compare_eq_iff in Eab as ->. by rewrite Ebc.
  - apply String.compare_eq_iff in Ebc as <-. by rewrite Eab.
  - by rewrite (string_compare_lt_trans a b c).
Qed.

Lemma less_by_name_swo : strict_weak_order less_by_name.
Proof.
  unfold less_by_name. split.
  - intros a. unfold String.ltb. by rewrite string_compare_refl.
  - intros a b c. rewrite !string_ltb_lt. apply string_compare_lt_trans.
  - intros a b c. rewrite !string_ltb_false. intros H1 H2.
    by apply (string_leb_trans _ (Name b)).
Qed.

Lemma string_leb_antisym :
  AntiSymm (=) (fun a b : string => String.leb a b = true).
Proof. intros a b H1 H2. by apply String.leb_antisym. Qed.

(** ** The sorting function of the witness meets the contract *)

Lemma sort_by_perm (less : PortInfo → PortInfo → bool) (l : list PortInfo) :
  sort_by less l ≡ₚ l.
Proof. apply merge_sort_Permutation. Qed.

Lemma sort_by_sorted (less : PortInfo → PortInfo → bool) (l : list PortInfo) :
  strict_weak_order less → StronglySorted (not_after less) (sort_by less l).
Proof.
  intros [Hirr Htrans Hinc]. unfold sort_by.
  apply (@StronglySorted_merge_sort _ (not_after less) _).
  - intros a b c Hab Hbc. unfold not_after in *. by apply (Hinc c b a).
  - intros a b. unfold not_after.
    destruct (less b a) eqn:Eba; [|by left]. right.
    destruct (less a b) eqn:Eab; [|done].
    pose proof (Hirr a) as Ha. by rewrite (Htrans a b a Eab Eba) in Ha.
Qed.

(** ** Scanning *)

Lemma StronglySorted_weaken {A : Type} (R1 R2 : relation A) (l : list A) :
  (∀ a b, R1 a b → R2 a b) → StronglySorted R1 l → StronglySorted R2 l.
Proof.
  intros H. induction 1 as [|x l Hl IH Hx]; constructor; [done|].
  eapply Forall_impl; [exact Hx|]. auto.
Qed.

Lemma not_after_name_le (a b : PortInfo) : not_after less_by_name a b → name_le a b.
Proof. unfold not_after, less_by_name, name_le. by rewrite string_ltb_false. Qed.

(** [portsEqual] looks at names and open flags only. *)
Lemma portsEqual_keys (a b : list PortInfo) :
  Name <$> a = Name <$> b → IsOpen <$> a = IsOpen <$> b → portsEqual a b = true.
Proof.
  intros Hn Ho. unfold portsEqual.
  assert (Hlen : length a = length b).
  { by rewrite <- (length_fmap Name a), Hn, length_fmap. }
  rewrite Hlen, Nat.eqb_refl. cbn [negb]. apply forallb_forall. intros i Hi.
  apply in_seq in Hi as [_ Hi]. simpl in Hi.
  assert (Name (a !!! i) = Name (b !!! i)) as ->.
  { rewrite <- !(list_lookup_total_fmap Name) by lia. by rewrite Hn. }
  assert (IsOpen (a !!! i) = IsOpen (b !!! i)) as ->.
  { rewrite <- !(list_lookup_total_fmap IsOpen) by lia. by rewrite Ho. }
  rewrite String.eqb_refl. by destruct (IsOpen (b !!! i)).
Qed.

Section ScannerProperties.
Variable GOOS : string.
Variable regexp_MatchString : string → string → bool.
Variable sort_Slice : (PortInfo → PortInfo → bool) → list PortInfo → list PortInfo.

(** [sort.Slice] permutes the slice, and for a strict weak ordering [less]
    it leaves no element less than one before it. It need not be stable. *)
Hypothesis sort_Slice_perm : ∀ less l, sort_Slice less l ≡ₚ l.
Hypothesis sort_Slice_sorted :
  ∀ less l, strict_weak_order less →
    StronglySorted (not_after less) (sort_Slice less l).

Local Abbreviation scan := (Scan GOOS regexp_MatchString sort_Slice).
Local Abbreviation info := (port_info GOOS regexp_MatchString).

Lemma port_info_key (m : option Manager) (port : PortDetails) :
  Name (info m port) = pd_Name port
  ∧ IsOpen (info m port) = is_open m (pd_Name port).
Proof. split; [done|]. unfold is_open. simpl. by destruct m. Qed.

Lemma Scan_inl (s : Scanner) (m : option Manager) (ports : list PortDetails) :
  ∃ l, scan s m (inl ports) = (mkScanner (excludePatterns s) l, inl l)
     ∧ l ≡ₚ info m <$> filter (fun port =>
                                 isExcluded regexp_MatchString s (pd_Name port) = false)
                              ports
     ∧ StronglySorted name_le l.
Proof.
  eexists. split; [reflexivity|]. split; [apply sort_Slice_perm|].
  eapply StronglySorted_weaken; [apply not_after_name_le|].
  apply sort_Slice_sorted, less_by_name_swo.
Qed.

(** C8. [Scan] returns the ports in ascending order of their names and
    caches that list; and when the enumerator lists the same ports again
    (in whatever order) and the manager has not changed, the next [Scan]
    returns a list that [portsEqual], the comparison of the watch loop,
    judges equal to the first. [sort.Slice] is taken by its contract. *)
Theorem Scan_sorted_and_repeatable (s : Scanner) (m : option Manager)
    (ports ports' : list PortDetails) :
  ports ≡ₚ ports' →
  ∃ l l',
    scan s m (inl ports) = (mkScanner (excludePatterns s) l, inl l)
    ∧ scan (mkScanner (excludePatterns s) l) m (inl ports')
      = (mkScanner (excludePatterns s) l', inl l')
    ∧ StronglySorted name_le l ∧ StronglySorted name_le l'
    ∧ length l' = length l
    ∧ (∀ i, Name (l' !!! i) = Name (l !!! i)
            ∧ IsOpen (l' !!! i) = IsOpen (l !!! i))
    ∧ portsEqual l l' = true.
Proof.
  intros Hperm.
  destruct (Scan_inl s m ports) as (l & Hscan & Hl & Hsorted).
  destruct (Scan_inl (mkScanner (excludePatterns s) l) m ports')
    as (l' & Hscan' & Hl' & Hsorted').
  exists l, l'. split; [exact Hscan|]. split; [exact Hscan'|].
  split; [exact Hsorted|]. split; [exact Hsorted'|].
  assert (Hll : l ≡ₚ l').
  { rewrite Hl, Hl'. apply fmap_Permutation.
    change (isExcluded regexp_MatchString (mkScanner (excludePatterns s) l))
      with (isExcluded regexp_MatchString s).
    by rewrite Hperm. }
  assert (Hnames : Name <$> l = Name <$> l').
  { apply (@StronglySorted_unique _ (fun a b : string => String.leb a b = true)
             string_leb_antisym).
    - by apply (StronglySorted_fmap Name name_le).
    - by apply (StronglySorted_fmap Name name_le).
    - by apply fmap_Permutation. }
  assert (Hkey : ∀ k, k ≡ₚ info m <$> filter (fun port =>
                   isExcluded regexp_MatchString s (pd_Name port) = false) ports →
                 IsOpen <$> k = is_open m <$> (Name <$> k)).
  { intros k Hk. rewrite <- list_fmap_compose. apply list_fmap_ext.
    intros i x Hx. apply list_elem_of_lookup_2 in Hx. rewrite Hk in Hx.
    apply list_elem_of_fmap in Hx as (port & -> & _).
    unfold compose. destruct (port_info_key m port) as [H1 H2].
    by rewrite H2, H1. }
  assert (Hopen : IsOpen <$> l = IsOpen <$> l').
  { rewrite (Hkey l Hl), (Hkey l'); [by rewrite Hnames|]. by rewrite <- Hll. }
  assert (Hlen : length l' = length l).
  { by rewrite <- (length_fmap Name l'), <- Hnames, length_fmap. }
  split; [exact Hlen|]. split; [|by apply portsEqual_keys].
  intros i. destruct (decide (i < length l)%nat) as [Hi|Hi].
  - rewrite <- !(list_lookup_total_fmap Name), <- !(list_lookup_total_fmap IsOpen)
      by lia.
    by rewrite Hnames, Hopen.
  - rewrite !list_lookup_total_alt, !lookup_ge_None_2 by lia. done.
Qed.

End ScannerProperties.

(** ** Watching *)

Section WatchProperties.
Variable GOOS : string.
Variable regexp_MatchString : string → string → bool.
Variable sort_Slice : (PortInfo → PortInfo → bool) → list PortInfo → list PortInfo.

Local Abbreviation watch_step := (scan_step GOOS regexp_MatchString sort_Slice).
Local Abbreviation watch_run := (scan_run GOOS regexp_MatchString sort_Slice).
Local Abbreviation turn := (watch_turn GOOS regexp_MatchString sort_Slice).

(** What a pass of a watcher can change: the cache of the scanner, its
    own record (the stop channel stays), and the two logs, extended under
    its own stop channel. *)
Lemma watch_turn_cases (sw : ScanWorld) (i : nat) (tick pick_stop : bool)
    (enum : list PortDetails + error) :
  turn sw i tick pick_stop enum = sw
  ∨ ∃ wt wt' s sc ca,
      watchers sw !! i = Some wt ∧ w_stop wt' = w_stop wt
      ∧ turn sw i tick pick_stop enum
        = mkScanWorld s (smanager sw) (stops sw)
                      (<[i := wt']> (watchers sw))
                      (scanned sw ++ sc) (called sw ++ ca)
      ∧ Forall (fun t => t = w_stop wt) sc
      ∧ Forall (fun c => c.1 = w_stop wt) ca.
Proof.
  unfold watch_turn. destruct (watchers sw !! i) as [wt|] eqn:Hi; [|by left].
  destruct (w_returned wt); [by left|].
  destruct (default false (stops sw !! w_stop wt) && (negb tick || pick_stop)).
  { right. exists wt, (mkWatcher (w_stop wt) (w_interval wt) (lastPorts wt) true),
      (scanner sw), [], []. rewrite !app_nil_r. by repeat split. }
  destruct (negb tick); [by left|].
  destruct (Scan GOOS regexp_MatchString sort_Slice (scanner sw) (smanager sw) enum)
    as [s [ports|err]].
  - destruct (negb (portsEqual (lastPorts wt) ports)).
    + right. exists wt, (mkWatcher (w_stop wt) (w_interval wt) ports false), s,
        [w_stop wt], [(w_stop wt, ports)]. repeat split; try done; by repeat constructor.
    + right. exists wt, wt, s, [w_stop wt], [].
      rewrite list_insert_id, app_nil_r by done.
      repeat split; try done; by repeat constructor.
  - right. exists wt, wt, s, [w_stop wt], [].
    rewrite list_insert_id, app_nil_r by done.
    repeat split; try done; by repeat constructor.
Qed.

Lemma scan_step_tagged (sw : ScanWorld) (h : scan_happening) :
  tagged sw → tagged (watch_step sw h).
Proof.
  intros (Hw & Hs & Hc). destruct h as [i tick pick enum|stop|interval|enum|op].
  - cbn [scan_step].
    destruct (watch_turn_cases sw i tick pick enum)
      as [->|(wt & wt' & s & sc & ca & Hi & Hstop & -> & Hsc & Hca)];
      [done|].
    assert (Hin : w_stop wt ∈ dom (stops sw)).
    { rewrite Forall_lookup in Hw. by apply (Hw i wt). }
    split; [|split]; simpl.
    + apply Forall_insert; [done|]. by rewrite Hstop.
    + apply Forall_app. split; [done|].
      eapply Forall_impl; [exact Hsc|]. by intros t ->.
    + apply Forall_app. split; [done|].
      eapply Forall_impl; [exact Hca|]. by intros c ->.
  - split; [|split]; simpl; (eapply Forall_impl; [eassumption|]);
      intros x Hx; rewrite dom_insert_L; set_solver.
  - unfold scan_step, WatchPorts. destruct (interval <=? 0); simpl.
    + split; [|split]; (eapply Forall_impl; [eassumption|]);
        intros x Hx; simpl; rewrite dom_insert_L; set_solver.
    + split; [|split]; simpl.
      * apply Forall_app. split.
        -- eapply Forall_impl; [exact Hw|]. intros x Hx. simpl.
           rewrite dom_insert_L. set_solver.
        -- constructor; [|constructor]. simpl. rewrite dom_insert_L. set_solver.
      * eapply Forall_impl; [exact Hs|]. intros x Hx. simpl.
        rewrite dom_insert_L. set_solver.
      * eapply Forall_impl; [exact Hc|]. intros x Hx. simpl.
        rewrite dom_insert_L. set_solver.
  - done.
  - done.
Qed.

Lemma scan_run_tagged (hs : list scan_happening) (sw : ScanWorld) :
  tagged sw → tagged (watch_run sw hs).
Proof.
  revert sw. induction hs as [|h hs IH]; intros sw H; [done|].
  simpl. by apply IH, scan_step_tagged.
Qed.

Lemma scan_step_silent (stop : nat) (sw : ScanWorld) (h : scan_happening) :
  silent stop sw → silent stop (watch_step sw h).
Proof.
  intros (Hd & Hw & Hs & Hc). destruct h as [i tick pick enum|stop'|interval|enum|op].
  - cbn [scan_step].
    destruct (watch_turn_cases sw i tick pick enum)
      as [->|(wt & wt' & s & sc & ca & Hi & Hstop & -> & Hsc & Hca)];
      [done|].
    assert (Hne : w_stop wt ≠ stop).
    { rewrite Forall_lookup in Hw. by apply (Hw i wt). }
    split; [done|]. split; [|split]; simpl.
    + apply Forall_insert; [done|]. by rewrite Hstop.
    + apply Forall_app. split; [done|].
      eapply Forall_impl; [exact Hsc|]. by intros t ->.
    + apply Forall_app. split; [done|].
      eapply Forall_impl; [exact Hca|]. by intros c ->.
  - split; [|done]. simpl. rewrite dom_insert_L. set_solver.
  - unfold scan_step, WatchPorts.
    assert (Hfresh : fresh (dom (stops sw)) ≠ stop).
    { intros Heq. apply (is_fresh (dom (stops sw))). by rewrite Heq. }
    destruct (interval <=? 0); simpl.
    + split; [|done]. simpl. rewrite dom_insert_L. set_solver.
    + split; [simpl; rewrite dom_insert_L; set_solver|].
      split; [|done]. simpl. apply Forall_app. split; [done|].
      by repeat constructor.
  - done.
  - done.
Qed.

Lemma scan_run_silent (stop : nat) (hs : list scan_happening) (sw : ScanWorld) :
  silent stop sw → silent stop (watch_run sw hs).
Proof.
  revert sw. induction hs as [|h hs IH]; intros sw H; [done|].
  simpl. by apply IH, scan_step_silent.
Qed.

(** C9. For an interval that is zero or negative, [WatchPorts] only makes
    the stop channel and returns it: no goroutine is started, and
    whatever happens afterwards no scan is made and no callback invoked
    on behalf of that call. *)
Theorem WatchPorts_without_interval (s : Scanner) (m : option Manager)
    (before after : list scan_happening) (interval : Z) :
  interval ≤ 0 →
  let sw := watch_run (NewScanWorld s m) before in
  let r := WatchPorts sw interval in
  watchers r.1 = watchers sw
  ∧ scanned r.1 = scanned sw ∧ called r.1 = called sw
  ∧ stops r.1 !! r.2 = Some false
  ∧ Forall (fun wt => w_stop wt ≠ r.2) (watchers (watch_run r.1 after))
  ∧ (r.2 ∉ scanned (watch_run r.1 after))
  ∧ ∀ ports, (r.2, ports) ∉ called (watch_run r.1 after).
Proof.
  intros Hint sw r.
  assert (Htag : tagged sw).
  { apply scan_run_tagged. repeat split; simpl; constructor. }
  assert (Hr : r = (mkScanWorld (scanner sw) (smanager sw)
                                (<[fresh (dom (stops sw)) := false]> (stops sw))
                                (watchers sw) (scanned sw) (called sw),
                    fresh (dom (stops sw)))).
  { unfold r, WatchPorts. destruct (interval <=? 0) eqn:E; [done|lia]. }
  rewrite Hr. cbn [fst snd watchers scanned called stops].
  split; [done|]. split; [done|]. split; [done|].
  split; [apply lookup_insert_eq|].
  set (stop := fresh (dom (stops sw))).
  assert (Hfresh : stop ∉ dom (stops sw)) by apply is_fresh.
  destruct Htag as (Hw & Hs & Hc).
  destruct (scan_run_silent stop after
              (mkScanWorld (scanner sw) (smanager sw) (<[stop := false]> (stops sw))
                           (watchers sw) (scanned sw) (called sw)))
    as (_ & Hw' & Hs' & Hc').
  { split; [simpl; rewrite dom_insert_L; set_solver|].
    split; [|split]; simpl.
    - eapply Forall_impl; [exact Hw|]. simpl. intros wt Hin Heq.
      by rewrite Heq in Hin.
    - eapply Forall_impl; [exact Hs|]. simpl. intros t Hin Heq.
      by rewrite Heq in Hin.
    - eapply Forall_impl; [exact Hc|]. simpl. intros c Hin Heq.
      by rewrite Heq in Hin. }
  split; [exact Hw'|]. split.
  - intros Hin. rewrite Forall_forall in Hs'. by apply (Hs' stop).
  - intros ports Hin. rewrite Forall_forall in Hc'. by apply (Hc' (stop, ports)).
Qed.
End WatchProperties.

Lemma Scan_sorted_and_repeatable_witness :
  ∃ l l',
    Scan "linux" no_match sort_by (mkScanner [] []) (Some m_excl) (inl [com3; com1])
    = (mkScanner [] l, inl l)
    ∧ Scan "linux" no_match sort_by (mkScanner [] l) (Some m_excl) (inl [com1; com3])
      = (mkScanner [] l', inl l')
    ∧ StronglySorted name_le l
    ∧ portsEqual l l' = true.
Proof.
  destruct (Scan_sorted_and_repeatable "linux" no_match sort_by sort_by_perm
              sort_by_sorted (mkScanner [] []) (Some m_excl) [com3; com1] [com1; com3])
    as (l & l' & H1 & H2 & H3 & _ & _ & _ & H4).
  - apply perm_swap.
  - exists l, l'. auto.
Defined.

(** The same scan, evaluated: [COM1], held by [alice], comes first. *)
Example Scan_two_ports :
  watch_key <$> match (Scan "linux" no_match sort_by (mkScanner [] []) (Some m_excl)
                            (inl [com3; com1])).2 with
                | inl l => l
                | inr _ => []
                end
  = [("COM1", true); ("COM3", false)].
Proof. by vm_compute. Qed.

Lemma WatchPorts_without_interval_witness :
  let r := WatchPorts (NewScanWorld (mkScanner [] []) None) 0 in
  let sw := scan_run "linux" no_match sort_by r.1
                     [WatchTurn 0%nat true false (inl [com1]); CallScan (inl [com1])] in
  watchers r.1 = [] ∧ (r.2 ∉ scanned sw) ∧ ∀ ports, (r.2, ports) ∉ called sw.
Proof.
  destruct (WatchPorts_without_interval "linux" no_match sort_by (mkScanner [] []) None
              [] [WatchTurn 0%nat true false (inl [com1]); CallScan (inl [com1])] 0)
    as (H1 & _ & _ & _ & _ & H2 & H3).
  - lia.
  - cbn zeta. split; [exact H1|]. split; [exact H2|exact H3].
Defined.

(** For contrast, a positive interval: the watcher scans at every tick and
    calls back when the list has changed, here at the first of two ticks. *)
Example WatchPorts_with_interval :
  let r := WatchPorts (NewScanWorld (mkScanner [] []) None) 5 in
  let sw := scan_run "linux" no_match sort_by r.1
                     [WatchTurn 0%nat true false (inl [com1]);
                      WatchTurn 0%nat true false (inl [com1])] in
  length (watchers r.1) = 1%nat
  ∧ scanned sw = [r.2; r.2]
  ∧ (called sw).*1 = [r.2].
Proof. by vm_compute. Qed.

(** ** The registry over histories *)

Lemma OpenPort_failure (m : Manager) (portName : string) (config : PortConfig)
    (clientID : string) (exclusive : bool) (env : OpenEnv) (m' : Manager)
    (err : error) :
  OpenPort m portName config clientID exclusive env = (m', inr err) → m' = m.
Proof.
  unfold OpenPort. intros H.
  repeat case_match; by simplify_eq.
Qed.

Lemma CloseAll_alters (close_errs : nat → option error)
    (l : list (string * nat)) (m : Manager) :
  rtc alters m
    (foldl (fun acc entry =>
              if decide (sessions acc !! entry.1 = Some entry.2)
              then (closeSessionLocked acc entry.2
                      (close_errs (port (deref acc entry.2)))).1
              else acc) m l).
Proof.
  revert m. induction l as [|[n p] l IH]; intros m; simpl; [done|].
  destruct (decide (sessions m !! n = Some p)) as [E|E]; [|apply IH].
  eapply rtc_l; [|apply IH]. exact (alters_closed m n p (close_errs (port (deref m p))) E).
Qed.

Lemma update_alters (m : Manager) (portName sessionID : string) (p : nat)
    (f : Session → Session) :
  ValidateSession m portName sessionID = inl p →
  (∀ s, ∃ st, f s = with_Statistics s st ∧ OpenedAt st = OpenedAt (Statistics s)) →
  alters m (update m p f).
Proof.
  intros E H. destruct (H (deref m p)) as (st & Hf & Ho).
  unfold update. rewrite Hf.
  exact (alters_statistics m portName sessionID p st E Ho).
Qed.

Lemma apply_op_alters (m : Manager) (op : mgr_op) : rtc alters m (apply_op m op).
Proof.
  destruct op; simpl.
  - destruct (OpenPort m portName config clientID exclusive env) as [m' [p|e]] eqn:E.
    + apply rtc_once. exact (alters_opened m _ _ _ _ _ m' p E).
    + apply OpenPort_failure in E as ->. done.
  - unfold ClosePort. destruct (sessions m !! portName) as [p|] eqn:E; [|done].
    destruct (decide _); [done|]. apply rtc_once. exact (alters_closed m portName p close_err E).
  - unfold Write. destruct (ValidateSession m portName sessionID) as [p|e] eqn:E; [|done].
    destruct (wr_err env); simpl; apply rtc_once.
    + apply (update_alters m portName sessionID p _ E). intros s. by eexists.
    + apply (update_alters m portName sessionID p _ E). intros s. by eexists.
  - unfold Read. destruct (ValidateSession m portName sessionID) as [p|e] eqn:E; [|done].
    destruct (maxBytes <? 0); [done|].
    destruct (port_Read env _) as [[b n] [e|]]; simpl; apply rtc_once.
    + apply (update_alters m portName sessionID p _ E). intros s. by eexists.
    + apply (update_alters m portName sessionID p _ E). intros s. by eexists.
  - unfold Configure.
    destruct (ValidateSession m portName sessionID) as [p|e] eqn:E; [|done].
    destruct (Validate config) eqn:V; [done|].
    destruct (set_mode_err env); [done|].
    destruct (if ReadTimeoutMs config >? 0 then cfg_timeout_err env else None); [done|].
    apply rtc_once. exact (alters_config m portName sessionID p config E V).
  - apply CloseAll_alters.
  - destruct (ValidateSession m portName sessionID) as [p|e] eqn:E.
    + apply rtc_once. exact (alters_readers m portName sessionID p E).
    + unfold SubscribeToReads. by rewrite E.
Qed.

Lemma apply_ops_alters (ops : list mgr_op) (m : Manager) :
  rtc alters m (apply_ops m ops).
Proof.
  revert m. induction ops as [|op ops IH]; intros m; simpl; [done|].
  etrans; [apply apply_op_alters|apply IH].
Qed.

Lemma alters_shape (m m' : Manager) :
  alters m m' →
  (∃ name p s',
     sessions m !! name = Some p ∧ closed (deref m p) = false
     ∧ identity s' = identity (deref m p) ∧ closed s' = false
     ∧ (Validate (Config (deref m p)) = None → Validate (Config s') = None)
     ∧ heap m' = <[p := s']> (heap m)
     ∧ sessions m' = sessions m ∧ sessionsByID m' = sessionsByID m)
  ∨ (∃ name p,
       sessions m !! name = Some p
       ∧ heap m' = <[p := with_readers (with_closed (deref m p) true) []]> (heap m)
       ∧ sessions m' = delete (PortName (deref m p)) (sessions m)
       ∧ sessionsByID m' = delete (ID (deref m p)) (sessionsByID m))
  ∨ (∃ portName config clientID exclusive env p,
       OpenPort m portName config clientID exclusive env = (m', inl p)).
Proof.
  intros [m0 name sid p st E Ho|m0 name sid p c E V|m0 name sid p E
         |m0 name p e E|m0 name c cl x env m1 p E].
  - left. apply ValidateSession_inl in E as (E1 & E2 & E3).
    exists name, p, (with_Statistics (deref m0 p) st).
    repeat split; try done. unfold identity. simpl. by rewrite Ho.
  - left. apply ValidateSession_inl in E as (E1 & E2 & E3).
    exists name, p, (with_Config (deref m0 p) c). by repeat split.
  - left. unfold SubscribeToReads. rewrite E. simpl.
    apply ValidateSession_inl in E as (E1 & E2 & E3).
    exists name, p, (with_readers (deref m0 p)
                       (readers (deref m0 p) ++ [fresh (dom (rchans m0))])).
    by repeat split.
  - right. left. exists name, p. by repeat split.
  - right. right. by exists name, c, cl, x, env, p.
Qed.

Lemma identity_key (s s' : Session) : identity s' = identity s → key s' = key s.
Proof. unfold identity, key. intros [= -> -> _ _ _ _]. done. Qed.

Lemma deref_insert (m m' : Manager) (p q : nat) (s : Session) :
  heap m' = <[p := s]> (heap m) →
  deref m' q = if decide (q = p) then s else deref m q.
Proof.
  intros H. unfold deref. rewrite H. destruct (decide (q = p)) as [->|N].
  - by rewrite lookup_total_insert_eq.
  - by rewrite lookup_total_insert_ne.
Qed.

Lemma alters_wf (m m' : Manager) : alters m m' → wf m → wf m'.
Proof.
  intros H Hwf.
  destruct (alters_shape _ _ H)
    as [(name & p & s' & E & _ & Hi & _ & _ & Hh & Hs & _)
       |[(name & p & E & Hh & Hs & _)|(n & c & cl & x & env & p & E)]].
  - intros name' q Hq. rewrite Hs in Hq. rewrite Hh.
    destruct (Hwf _ _ Hq) as (t & Ht & Hn).
    destruct (decide (q = p)) as [->|N].
    + rewrite lookup_insert_eq. eexists; split; [done|].
      apply identity_key in Hi. unfold key in Hi.
      rewrite (deref_allocated _ _ _ Ht) in Hi. by injection Hi as _ ->.
    + rewrite lookup_insert_ne by done. by exists t.
  - intros name' q Hq. rewrite Hs in Hq. rewrite Hh.
    apply lookup_delete_Some in Hq as [Hne Hq].
    destruct (Hwf _ _ Hq) as (t & Ht & Hn).
    destruct (decide (q = p)) as [->|N].
    + rewrite (deref_allocated _ _ _ Ht) in Hne. congruence.
    + rewrite lookup_insert_ne by done. by exists t.
  - by eapply OpenPort_wf.
Qed.

(** Whatever happens, a session keeps what it was made with, and once
    closed it stays closed. *)
Lemma alters_identity (m m' : Manager) (q : nat) (s : Session) :
  alters m m' → heap m !! q = Some s →
  ∃ s', heap m' !! q = Some s' ∧ identity s' = identity s
        ∧ (closed s = true → closed s' = true).
Proof.
  intros H Hq.
  destruct (alters_shape _ _ H)
    as [(name & p & s' & E & Hc & Hi & Hc' & _ & Hh & Hs & _)
       |[(name & p & E & Hh & Hs & _)|(n & c & cl & x & env & p & E)]].
  - rewrite Hh. destruct (decide (q = p)) as [->|N].
    + rewrite lookup_insert_eq. exists s'.
      rewrite (deref_allocated _ _ _ Hq) in Hi, Hc.
      repeat split; [done|congruence].
    + rewrite lookup_insert_ne by done. by exists s.
  - rewrite Hh. destruct (decide (q = p)) as [->|N].
    + rewrite lookup_insert_eq. eexists; split; [done|].
      by rewrite (deref_allocated _ _ _ Hq).
    + rewrite lookup_insert_ne by done. by exists s.
  - apply OpenPort_success in E as (_ & -> & Hh & _). rewrite Hh.
    rewrite lookup_insert_ne; [by exists s|].
    intros <-. by rewrite fresh_not_allocated in Hq.
Qed.

Lemma rtc_alters_wf (m m' : Manager) : rtc alters m m' → wf m → wf m'.
Proof. induction 1; eauto using alters_wf. Qed.

Lemma rtc_alters_identity (m m' : Manager) (q : nat) (s : Session) :
  rtc alters m m' → heap m !! q = Some s →
  ∃ s', heap m' !! q = Some s' ∧ identity s' = identity s
        ∧ (closed s = true → closed s' = true).
Proof.
  intros H. revert s. induction H as [m|m m1 m2 H1 _ IH]; intros s Hq.
  - by exists s.
  - destruct (alters_identity _ _ _ _ H1 Hq) as (s1 & Hq1 & Hi1 & Hc1).
    destruct (IH _ Hq1) as (s2 & Hq2 & Hi2 & Hc2).
    exists s2. repeat split; [done|congruence|auto].
Qed.

Lemma alters_registered_open (m m' : Manager) :
  alters m m' → wf m → registered_open m → registered_open m'.
Proof.
  intros H Hwf Hro.
  destruct (alters_shape _ _ H)
    as [(name & p & s' & E & Hc & Hi & Hc' & _ & Hh & Hs & _)
       |[(name & p & E & Hh & Hs & _)|(n & c & cl & x & env & p & E)]].
  - intros name' q Hq. rewrite Hs in Hq. rewrite (deref_insert _ _ _ _ _ Hh).
    destruct (decide (q = p)); [done|by eapply Hro].
  - intros name' q Hq. rewrite Hs in Hq.
    apply lookup_delete_Some in Hq as [Hne Hq].
    rewrite (deref_insert _ _ _ _ _ Hh).
    destruct (decide (q = p)) as [->|N]; [|by eapply Hro].
    destruct (Hwf _ _ Hq) as (t & Ht & Hn).
    rewrite (deref_allocated _ _ _ Ht) in Hne. congruence.
  - apply OpenPort_success in E as (_ & -> & Hh & Hs & _).
    intros name' q Hq. rewrite Hs in Hq. rewrite (deref_insert _ _ _ _ _ Hh).
    destruct (decide (q = _)) as [->|N]; [done|].
    destruct (decide (name' = n)) as [->|Nn].
    + rewrite lookup_insert_eq in Hq. congruence.
    + rewrite lookup_insert_ne in Hq by done. by eapply Hro.
Qed.

Lemma rtc_alters_registered_open (m m' : Manager) :
  rtc alters m m' → wf m → registered_open m → registered_open m'.
Proof. induction 1; eauto using alters_wf, alters_registered_open. Qed.

(** A session that no name leads to is out of reach: no call changes it,
    and no call registers it again. *)
Lemma alters_unregistered (m m' : Manager) (q : nat) (s : Session) :
  alters m m' → heap m !! q = Some s → unregistered q m →
  heap m' !! q = Some s ∧ unregistered q m'.
Proof.
  intros H Hq Hu.
  destruct (alters_shape _ _ H)
    as [(name & p & s' & E & Hc & Hi & Hc' & _ & Hh & Hs & _)
       |[(name & p & E & Hh & Hs & _)|(n & c & cl & x & env & p & E)]].
  - assert (q ≠ p) by (intros ->; by apply (Hu name)).
    split; [by rewrite Hh, lookup_insert_ne|].
    intros name'. rewrite Hs. apply Hu.
  - assert (q ≠ p) by (intros ->; by apply (Hu name)).
    split; [by rewrite Hh, lookup_insert_ne|].
    intros name'. rewrite Hs. intros [_ Hq']%lookup_delete_Some. by apply (Hu name').
  - apply OpenPort_success in E as (_ & -> & Hh & Hs & _).
    assert (q ≠ fresh (dom (heap m)))
      by (intros ->; by rewrite fresh_not_allocated in Hq).
    split; [by rewrite Hh, lookup_insert_ne|].
    intros name'. rewrite Hs. destruct (decide (name' = n)) as [->|Nn].
    + rewrite lookup_insert_eq. congruence.
    + rewrite lookup_insert_ne by done. apply Hu.
Qed.

Lemma rtc_alters_unregistered (m m' : Manager) (q : nat) (s : Session) :
  rtc alters m m' → heap m !! q = Some s → unregistered q m →
  heap m' !! q = Some s ∧ unregistered q m'.
Proof.
  induction 1 as [m|m m1 m2 H1 _ IH]; intros Hq Hu; [done|].
  destruct (alters_unregistered _ _ _ _ H1 Hq Hu). auto.
Qed.

Lemma alters_configs_valid (m m' : Manager) :
  alters m m' → wf m → configs_valid m → configs_valid m'.
Proof.
  intros H Hwf Hcv.
  destruct (alters_shape _ _ H)
    as [(name & p & s' & E & Hc & Hi & Hc' & Hv & Hh & Hs & _)
       |[(name & p & E & Hh & Hs & _)|(n & c & cl & x & env & p & E)]].
  - intros q t. rewrite Hh. destruct (decide (q = p)) as [->|N].
    + rewrite lookup_insert_eq. intros [= <-]. apply Hv.
      destruct (Hwf _ _ E) as (s & Hp & _).
      rewrite (deref_allocated _ _ _ Hp). by eapply Hcv.
    + rewrite lookup_insert_ne by done. apply Hcv.
  - intros q t. rewrite Hh. destruct (decide (q = p)) as [->|N].
    + rewrite lookup_insert_eq. intros [= <-]. simpl.
      destruct (Hwf _ _ E) as (s & Hp & _).
      rewrite (deref_allocated _ _ _ Hp). by eapply Hcv.
    + rewrite lookup_insert_ne by done. apply Hcv.
  - apply OpenPort_success in E as (V & -> & Hh & _).
    intros q t. rewrite Hh. destruct (decide (q = fresh (dom (heap m)))) as [->|N].
    + rewrite lookup_insert_eq. by intros [= <-].
    + rewrite lookup_insert_ne by done. apply Hcv.
Qed.

Lemma rtc_alters_configs_valid (m m' : Manager) :
  rtc alters m m' → wf m → configs_valid m → configs_valid m'.
Proof. induction 1; eauto using alters_wf, alters_configs_valid. Qed.

Lemma NewManager_registered_open (allowShared : bool) (dflt : PortConfig)
    (ops : list mgr_op) :
  let m := apply_ops (NewManager allowShared dflt) ops in
  wf m ∧ registered_open m.
Proof.
  pose proof (apply_ops_alters ops (NewManager allowShared dflt)) as H.
  split.
  - eapply rtc_alters_wf; [done|apply NewManager_wf].
  - eapply rtc_alters_registered_open; [done|apply NewManager_wf|].
    intros name p Hp. unfold NewManager in Hp. simpl in Hp.
    by rewrite lookup_empty in Hp.
Qed.

(** X1. However the calls on a manager follow one another, a session
    still registered under a port name has not been closed: [GetStatus]
    never hands out a closed session, and [ValidateSession] never answers
    [ErrPortClosed]. *)
Theorem ValidateSession_never_PortClosed (allowShared : bool) (dflt : PortConfig)
    (ops : list mgr_op) :
  let m := apply_ops (NewManager allowShared dflt) ops in
  (∀ portName p, GetStatus m portName = inl p → closed (deref m p) = false)
  ∧ (∀ portName sessionID,
       ValidateSession m portName sessionID ≠ inr ErrPortClosed).
Proof.
  intros m.
  destruct (NewManager_registered_open allowShared dflt ops) as [_ Hro].
  fold m in Hro. split.
  - intros portName p. unfold GetStatus.
    destruct (sessions m !! portName) as [q|] eqn:E; [|done].
    intros [= <-]. by eapply Hro.
  - intros portName sessionID. unfold ValidateSession.
    destruct (sessions m !! portName) as [q|] eqn:E; [|done].
    destruct (decide _); [done|]. by rewrite (Hro _ _ E).
Qed.

(** X2. Whatever calls follow, a session keeps the identifier, port
    name, client, exclusive flag, transport handle and opening time it was
    made with, and a closed session is never open again. *)
Theorem session_identity_is_fixed (m : Manager) (ops : list mgr_op) (p : nat)
    (s : Session) :
  heap m !! p = Some s →
  let s' := deref (apply_ops m ops) p in
  heap (apply_ops m ops) !! p = Some s'
  ∧ ID s' = ID s ∧ PortName s' = PortName s ∧ ClientID s' = ClientID s
  ∧ Exclusive s' = Exclusive s ∧ port s' = port s
  ∧ OpenedAt (Statistics s') = OpenedAt (Statistics s)
  ∧ (closed s = true → closed s' = true).
Proof.
  intros Hp s'.
  destruct (rtc_alters_identity _ _ _ _ (apply_ops_alters ops m) Hp)
    as (t & Ht & Hi & Hc).
  unfold s'. rewrite (deref_allocated _ _ _ Ht).
  unfold identity in Hi. injection Hi as -> -> -> -> -> ->. by repeat split.
Qed.

Lemma session_identity_is_fixed_witness :
  let m' := apply_ops m_excl
              [OpWrite "COM1" "s-1" (Some [Byte.x68]) (mkWriteEnv 1 None 250);
               OpConfigure "COM1" "s-1" fast_config (mkConfigureEnv None None);
               OpClosePort "COM1" "s-1" None] in
  heap m_excl !! 0%nat <> None
  ∧ ID (deref m' 0%nat) = "s-1" ∧ ClientID (deref m' 0%nat) = "alice"
  ∧ OpenedAt (Statistics (deref m' 0%nat)) = 100.
Proof.
  assert (heap m_excl !! 0%nat
          = Some (mkSession "s-1" "COM1" "alice" true DefaultConfig
                            (mkStats 0 0 0 100 100) 3%nat false [])) as H
    by (by vm_compute).
  split; [by rewrite H|].
  destruct (session_identity_is_fixed m_excl
              [OpWrite "COM1" "s-1" (Some [Byte.x68]) (mkWriteEnv 1 None 250);
               OpConfigure "COM1" "s-1" fast_config (mkConfigureEnv None None);
               OpClosePort "COM1" "s-1" None] 0%nat _ H)
    as (_ & H1 & _ & H3 & _ & _ & H6 & _).
  by repeat split.
Defined.

Lemma ValidateSession_never_PortClosed_witness :
  let m := apply_ops (NewManager true DefaultConfig)
             [OpOpenPort "COM1" DefaultConfig "alice" true (env_ok "s-1" 100);
              OpClosePort "COM1" "s-1" None;
              OpOpenPort "COM1" DefaultConfig "bob" true (env_ok "s-2" 200)] in
  GetStatus m "COM1" = inl 1%nat ∧ closed (deref m 1%nat) = false
  ∧ closed (deref m 0%nat) = true
  ∧ ValidateSession m "COM1" "s-1" = inr ErrInvalidSession.
Proof.
  intros m.
  assert (GetStatus m "COM1" = inl 1%nat) as H by (by vm_compute).
  split; [done|]. split; [|by vm_compute].
  exact (proj1 (ValidateSession_never_PortClosed true DefaultConfig
           [OpOpenPort "COM1" DefaultConfig "alice" true (env_ok "s-1" 100);
            OpClosePort "COM1" "s-1" None;
            OpOpenPort "COM1" DefaultConfig "bob" true (env_ok "s-2" 200)])
         "COM1" 1%nat H).
Defined.

Lemma closeSessionLocked_unregistered (m : Manager) (portName : string) (p : nat)
    (close_err : option error) :
  wf m → sessions m !! portName = Some p →
  unregistered p (closeSessionLocked m p close_err).1.
Proof.
  intros Hwf Hp name. simpl. intros [Hne Hq]%lookup_delete_Some.
  destruct (Hwf _ _ Hq) as (t & Ht & Hn).
  rewrite (deref_allocated _ _ _ Ht) in Hne. congruence.
Qed.

(** X3. Once [ClosePort] has closed a session, the session is final:
    whatever calls follow, on any port, its record (statistics included)
    stays as the close left it, closed and without readers, and no port
    name leads to it again. *)
Theorem closed_session_is_final (allowShared : bool) (dflt : PortConfig)
    (before after : list mgr_op) (portName sessionID : string)
    (close_err : option error) (p : nat) :
  let m := apply_ops (NewManager allowShared dflt) before in
  sessions m !! portName = Some p →
  ID (deref m p) = sessionID →
  let m1 := (ClosePort m portName sessionID close_err).1 in
  let m2 := apply_ops m1 after in
  deref m1 p = with_readers (with_closed (deref m p) true) []
  ∧ deref m2 p = deref m1 p
  ∧ ∀ name, GetSession m2 name ≠ Some p.
Proof.
  intros m Hp Hid m1 m2.
  destruct (NewManager_registered_open allowShared dflt before) as [Hwf _].
  fold m in Hwf. destruct (Hwf _ _ Hp) as (s & Hs & Hn).
  assert (m1 = (closeSessionLocked m p close_err).1) as Hm1.
  { unfold m1, ClosePort. rewrite Hp. by destruct (decide _). }
  assert (heap m1 !! p = Some (with_readers (with_closed (deref m p) true) [])) as H1.
  { rewrite Hm1. simpl. by rewrite lookup_insert_eq. }
  assert (unregistered p m1) as Hu.
  { rewrite Hm1. by eapply closeSessionLocked_unregistered. }
  destruct (rtc_alters_unregistered _ _ _ _ (apply_ops_alters after m1) H1 Hu)
    as [H2 Hu2].
  split; [by apply deref_allocated|]. split; [|apply Hu2].
  fold m2 in H2. rewrite (deref_allocated _ _ _ H2). symmetry.
  by apply deref_allocated.
Qed.

Lemma closed_session_is_final_witness :
  let m := apply_ops (NewManager true DefaultConfig)
             [OpOpenPort "COM1" DefaultConfig "alice" true (env_ok "s-1" 100)] in
  let m1 := (ClosePort m "COM1" "s-1" None).1 in
  let m2 := apply_ops m1
              [OpOpenPort "COM1" DefaultConfig "bob" true (env_ok "s-1" 200);
               OpWrite "COM1" "s-1" (Some [Byte.x68]) (mkWriteEnv 1 None 250)] in
  sessions m !! "COM1" = Some 0%nat
  ∧ deref m2 0%nat = deref m1 0%nat
  ∧ Statistics (deref m2 1%nat) = mkStats 1 0 0 200 250.
Proof.
  intros m m1 m2.
  assert (sessions m !! "COM1" = Some 0%nat) as H by (by vm_compute).
  split; [done|]. split; [|by vm_compute].
  exact (proj1 (proj2 (closed_session_is_final true DefaultConfig
           [OpOpenPort "COM1" DefaultConfig "alice" true (env_ok "s-1" 100)]
           [OpOpenPort "COM1" DefaultConfig "bob" true (env_ok "s-1" 200);
            OpWrite "COM1" "s-1" (Some [Byte.x68]) (mkWriteEnv 1 None 250)]
           "COM1" "s-1" None 0%nat H eq_refl))).
Defined.

(** X4. Every configuration a session ever carries has passed [Validate]:
    in every state reached from [NewManager], the session under a port name
    has a baud rate of at least 1 and 5 to 8 data bits. *)
Theorem stored_config_is_valid (allowShared : bool) (dflt : PortConfig)
    (ops : list mgr_op) (portName : string) (p : nat) :
  let m := apply_ops (NewManager allowShared dflt) ops in
  GetStatus m portName = inl p →
  Validate (Config (deref m p)) = None
  ∧ 1 ≤ BaudRate (Config (deref m p))
  ∧ 5 ≤ DataBits (Config (deref m p)) ≤ 8.
Proof.
  intros m Hg.
  pose proof (apply_ops_alters ops (NewManager allowShared dflt)) as H.
  assert (wf m) as Hwf by (eapply rtc_alters_wf; [done|apply NewManager_wf]).
  assert (configs_valid m) as Hcv.
  { eapply rtc_alters_configs_valid; [done|apply NewManager_wf|].
    intros q s Hq. unfold NewManager in Hq. simpl in Hq.
    by rewrite lookup_empty in Hq. }
  unfold GetStatus in Hg.
  destruct (sessions m !! portName) as [q|] eqn:E; [|done].
  injection Hg as ->. destruct (Hwf _ _ E) as (s & Hs & _).
  rewrite (deref_allocated _ _ _ Hs). pose proof (Hcv _ _ Hs) as V.
  split; [done|]. unfold Validate in V.
  destruct (BaudRate (Config s) <? 1) eqn:B; [done|].
  destruct (DataBits (Config s) <? 5) eqn:D1; [done|].
  destruct (DataBits (Config s) >? 8) eqn:D2; [done|]. lia.
Qed.

Lemma stored_config_is_valid_witness :
  let m := apply_ops (NewManager true bad_baud)
             [OpOpenPort "COM1" DefaultConfig "alice" true (env_ok "s-1" 100);
              OpConfigure "COM1" "s-1" bad_baud (mkConfigureEnv None None);
              OpConfigure "COM1" "s-1" fast_config (mkConfigureEnv None None)] in
  GetStatus m "COM1" = inl 0%nat
  ∧ Config (deref m 0%nat) = fast_config
  ∧ 1 ≤ BaudRate (Config (deref m 0%nat)).
Proof.
  intros m.
  assert (GetStatus m "COM1" = inl 0%nat) as H by (by vm_compute).
  split; [done|]. split; [by vm_compute|].
  exact (proj1 (proj2 (stored_config_is_valid true bad_baud
           [OpOpenPort "COM1" DefaultConfig "alice" true (env_ok "s-1" 100);
            OpConfigure "COM1" "s-1" bad_baud (mkConfigureEnv None None);
            OpConfigure "COM1" "s-1" fast_config (mkConfigureEnv None None)]
           "COM1" 0%nat H))).
Defined.

(** X5. Shared access replaces the entry of the port: when a second
    [OpenPort] succeeds on a port that already has a session, both were
    opened without exclusivity under shared access, and the port name now
    leads to the second session only. The first session's identifier is
    refused with [ErrInvalidSession], also by [ClosePort]; the session stays
    in the table by identifier, and whatever calls follow it is never
    closed, changed or reached by a port name again. *)
Theorem shared_open_displaces (allowShared : bool) (dflt : PortConfig)
    (before : list mgr_op) (portName : string)
    (config1 config2 : PortConfig) (client1 client2 : string)
    (exclusive1 exclusive2 : bool) (env1 env2 : OpenEnv)
    (m1 m2 : Manager) (p1 p2 : nat) :
  let m := apply_ops (NewManager allowShared dflt) before in
  OpenPort m portName config1 client1 exclusive1 env1 = (m1, inl p1) →
  OpenPort m1 portName config2 client2 exclusive2 env2 = (m2, inl p2) →
  new_uuid env2 ≠ new_uuid env1 →
  (exclusive1 = false ∧ exclusive2 = false ∧ allowSharedAccess m = true)
  ∧ GetSession m2 portName = Some p2 ∧ p2 ≠ p1
  ∧ ValidateSession m2 portName (new_uuid env1) = inr ErrInvalidSession
  ∧ (∀ close_err,
       ClosePort m2 portName (new_uuid env1) close_err = (m2, Some ErrInvalidSession))
  ∧ GetSessionByID m2 (new_uuid env1) = Some p1
  ∧ ∀ after,
      let m3 := apply_ops m2 after in
      deref m3 p1 = deref m1 p1 ∧ closed (deref m3 p1) = false
      ∧ ∀ name, GetSession m3 name ≠ Some p1.
Proof.
  intros m E1 E2 Hne.
  destruct (NewManager_registered_open allowShared dflt before) as [Hwf _].
  fold m in Hwf.
  apply OpenPort_success in E1 as (_ & Hp1 & Hh1 & Hs1 & Hi1 & _ & Ha1 & _).
  apply OpenPort_success in E2 as (_ & Hp2 & Hh2 & Hs2 & Hi2 & _ & _ & Hx).
  set (s1 := mkSession (new_uuid env1) portName client1 exclusive1 config1
               (mkStats 0 0 0 (now_opened env1) (now_activity env1))
               (open_handle env1) false []) in *.
  set (s2 := mkSession (new_uuid env2) portName client2 exclusive2 config2
               (mkStats 0 0 0 (now_opened env2) (now_activity env2))
               (open_handle env2) false []) in *.
  assert (heap m1 !! p1 = Some s1) as A1 by (by rewrite Hh1, lookup_insert_eq).
  assert (p2 ≠ p1) as Np.
  { intros Heq. rewrite Heq in Hp2. rewrite Hp2 in A1.
    by rewrite fresh_not_allocated in A1. }
  assert (heap m2 !! p1 = Some s1) as A2 by (by rewrite Hh2, lookup_insert_ne).
  assert (heap m2 !! p2 = Some s2) as B2 by (by rewrite Hh2, lookup_insert_eq).
  assert (sessions m2 !! portName = Some p2) as S2
    by (by rewrite Hs2, lookup_insert_eq).
  rewrite Hs1, lookup_insert_eq, (deref_allocated _ _ _ A1) in Hx.
  destruct Hx as (X1 & X2 & X3). simpl in X1.
  split; [by rewrite <- Ha1|]. split; [done|]. split; [done|].
  split; [|split; [|split]].
  - unfold ValidateSession. rewrite S2, (deref_allocated _ _ _ B2).
    simpl. by destruct (decide _).
  - intros close_err. unfold ClosePort. rewrite S2, (deref_allocated _ _ _ B2).
    simpl. by destruct (decide _).
  - unfold GetSessionByID.
    by rewrite Hi2, lookup_insert_ne, Hi1, lookup_insert_eq.
  - intros after m3.
    assert (unregistered p1 m2) as Hu.
    { intros name. rewrite Hs2. destruct (decide (name = portName)) as [->|Nn].
      - rewrite lookup_insert_eq. congruence.
      - rewrite lookup_insert_ne, Hs1, lookup_insert_ne by done. intros Hq.
        destruct (Hwf _ _ Hq) as (t & Ht & _).
        rewrite Hp1 in Ht. by rewrite fresh_not_allocated in Ht. }
    destruct (rtc_alters_unregistered _ _ _ _ (apply_ops_alters after m2) A2 Hu)
      as [H3 Hu3].
    fold m3 in H3.
    rewrite (deref_allocated _ _ _ H3), (deref_allocated _ _ _ A1).
    repeat split. apply Hu3.
Qed.

Lemma shared_open_displaces_witness :
  let m1 := (OpenPort (NewManager true DefaultConfig) "COM1" DefaultConfig "alice"
                      false (env_ok "s-1" 100)).1 in
  let m2 := (OpenPort m1 "COM1" fast_config "bob" false (env_ok "s-2" 200)).1 in
  let m3 := apply_ops m2 [OpClosePort "COM1" "s-2" None; OpCloseAll (fun _ => None)] in
  ValidateSession m2 "COM1" "s-1" = inr ErrInvalidSession
  ∧ GetSessionByID m3 "s-1" = Some 0%nat
  ∧ closed (deref m3 0%nat) = false
  ∧ ListOpenPorts m3 = [].
Proof.
  intros m1 m2 m3.
  assert (OpenPort (apply_ops (NewManager true DefaultConfig) []) "COM1"
                   DefaultConfig "alice" false (env_ok "s-1" 100)
          = (m1, inl 0%nat)) as E1 by (by vm_compute).
  assert (OpenPort m1 "COM1" fast_config "bob" false (env_ok "s-2" 200)
          = (m2, inl 1%nat)) as E2 by (by vm_compute).
  assert (new_uuid (env_ok "s-2" 200) ≠ new_uuid (env_ok "s-1" 100)) as N
    by (by vm_compute).
  destruct (shared_open_displaces true DefaultConfig [] "COM1" DefaultConfig
              fast_config "alice" "bob" false false (env_ok "s-1" 100)
              (env_ok "s-2" 200) m1 m2 0%nat 1%nat E1 E2 N)
    as (_ & _ & _ & H4 & _ & _ & H7).
  split; [exact H4|]. split; [by vm_compute|].
  split; [|by vm_compute].
  exact (proj1 (proj2 (H7 [OpClosePort "COM1" "s-2" None;
                           OpCloseAll (fun _ => None)]))).
Defined.

Lemma rtc_alters_ids_distinct_back (m m' : Manager) :
  rtc alters m m' → ids_distinct m' → ids_distinct m.
Proof.
  intros H Hd p q s t Hp Hq Hid.
  destruct (rtc_alters_identity _ _ _ _ H Hp) as (s' & Hp' & Hs' & _).
  destruct (rtc_alters_identity _ _ _ _ H Hq) as (t' & Hq' & Ht' & _).
  apply identity_key in Hs', Ht'. unfold key in Hs', Ht'.
  apply (Hd p q s' t' Hp' Hq'). congruence.
Qed.

Lemma alters_by_id (m m' : Manager) :
  alters m m' → wf m → ids_distinct m → ids_distinct m' →
  by_id_ok m → by_id_ok m'.
Proof.
  intros H Hwf Hd Hd' [Hn Hi].
  destruct (alters_shape _ _ H)
    as [(name & p & s' & E & Hc & Hid & Hc' & _ & Hh & Hs & Hb)
       |[(name & p & E & Hh & Hs & Hb)|(n & c & cl & x & env & p & E)]].
  - apply identity_key in Hid. unfold key in Hid. injection Hid as Hid _.
    split.
    + intros name' q Hq. rewrite Hs in Hq. rewrite Hb.
      rewrite (deref_insert _ _ _ _ _ Hh).
      destruct (decide (q = p)) as [->|N]; [rewrite Hid|]; by eapply Hn.
    + intros id q Hq. rewrite Hb in Hq. rewrite Hh.
      destruct (Hi _ _ Hq) as (t & Ht & Hti & Htc).
      destruct (decide (q = p)) as [->|N].
      * rewrite lookup_insert_eq. exists s'.
        rewrite (deref_allocated _ _ _ Ht) in Hid. repeat split; congruence.
      * rewrite lookup_insert_ne by done. by exists t.
  - destruct (Hwf _ _ E) as (s & Hp & Hpn).
    rewrite (deref_allocated _ _ _ Hp) in Hh, Hs, Hb.
    split.
    + intros name' q Hq. rewrite Hs in Hq.
      apply lookup_delete_Some in Hq as [Hne Hq].
      destruct (Hwf _ _ Hq) as (t & Ht & Htn).
      assert (q ≠ p) as N by (intros ->; congruence).
      rewrite (deref_insert _ _ _ _ _ Hh).
      destruct (decide (q = p)); [done|].
      rewrite Hb, lookup_delete_ne; [by eapply Hn|].
      rewrite (deref_allocated _ _ _ Ht). intros Heq.
      apply N. symmetry. by apply (Hd p q s t).
    + intros id q Hq. rewrite Hb in Hq.
      apply lookup_delete_Some in Hq as [Hne Hq].
      destruct (Hi _ _ Hq) as (t & Ht & Hti & Htc).
      assert (q ≠ p) as N by (intros ->; congruence).
      rewrite Hh, lookup_insert_ne by done. by exists t.
  - apply OpenPort_success in E as (_ & Hp & Hh & Hs & Hb & _).
    set (s1 := mkSession (new_uuid env) n cl x c
                 (mkStats 0 0 0 (now_opened env) (now_activity env))
                 (open_handle env) false []) in *.
    assert (heap m' !! p = Some s1) as A by (by rewrite Hh, lookup_insert_eq).
    split.
    + intros name' q Hq. rewrite Hs in Hq. rewrite Hb.
      destruct (decide (name' = n)) as [->|Nn].
      * rewrite lookup_insert_eq in Hq. injection Hq as <-.
        rewrite (deref_allocated _ _ _ A). simpl. by rewrite lookup_insert_eq.
      * rewrite lookup_insert_ne in Hq by done.
        destruct (Hwf _ _ Hq) as (t & Ht & Htn).
        assert (q ≠ p) as N.
        { intros ->. rewrite Hp in Ht. by rewrite fresh_not_allocated in Ht. }
        assert (heap m' !! q = Some t) as B by (by rewrite Hh, lookup_insert_ne).
        rewrite (deref_allocated _ _ _ B).
        rewrite lookup_insert_ne.
        -- rewrite <- (deref_allocated _ _ _ Ht). by eapply Hn.
        -- intros Heq. apply N. symmetry. by apply (Hd' p q s1 t).
    + intros id q Hq. rewrite Hb in Hq.
      destruct (decide (id = new_uuid env)) as [->|Ni].
      * rewrite lookup_insert_eq in Hq. injection Hq as <-. by exists s1.
      * rewrite lookup_insert_ne in Hq by done.
        destruct (Hi _ _ Hq) as (t & Ht & Hti & Htc).
        assert (q ≠ p) as N.
        { intros ->. rewrite Hp in Ht. by rewrite fresh_not_allocated in Ht. }
        rewrite Hh, lookup_insert_ne by done. by exists t.
Qed.

Lemma rtc_alters_by_id (m m' : Manager) :
  rtc alters m m' → wf m → ids_distinct m' → by_id_ok m → by_id_ok m'.
Proof.
  induction 1 as [m|m m1 m2 H1 H2 IH]; intros Hwf Hd Hb; [done|].
  pose proof (rtc_alters_ids_distinct_back _ _ H2 Hd) as Hd1.
  pose proof (rtc_alters_ids_distinct_back _ _ (rtc_once _ _ H1) Hd1) as Hd0.
  apply IH; [by eapply alters_wf|done|by eapply alters_by_id].
Qed.

(** X6. As long as the identifier generator never repeats itself, the two
    tables of the manager agree: the session [GetSession] finds under a
    port name is the one [GetSessionByID] finds under that session's
    identifier, and a session found by identifier carries that identifier
    and is not closed. *)
Theorem tables_agree (allowShared : bool) (dflt : PortConfig) (ops : list mgr_op) :
  NoDup (uuids ops) →
  let m := apply_ops (NewManager allowShared dflt) ops in
  (∀ portName p, GetSession m portName = Some p →
     GetSessionByID m (ID (deref m p)) = Some p)
  ∧ (∀ sessionID p, GetSessionByID m sessionID = Some p →
       ID (deref m p) = sessionID ∧ closed (deref m p) = false).
Proof.
  intros Hnd m.
  destruct (NewManager_inv allowShared dflt ops Hnd) as (_ & _ & Hd).
  fold m in Hd.
  assert (by_id_ok m) as [Hn Hi].
  { eapply rtc_alters_by_id;
      [apply apply_ops_alters|apply NewManager_wf|done|].
    split; intros ? ? Hq; unfold NewManager in Hq; simpl in Hq;
      by rewrite lookup_empty in Hq. }
  split; [exact Hn|].
  intros sessionID p Hp. destruct (Hi _ _ Hp) as (s & Hs & Hsi & Hsc).
  by rewrite (deref_allocated _ _ _ Hs).
Qed.

Lemma tables_agree_witness :
  let m := apply_ops (NewManager true DefaultConfig)
             [OpOpenPort "COM1" DefaultConfig "alice" true (env_ok "s-1" 100);
              OpOpenPort "COM3" DefaultConfig "bob" false (env_ok "s-2" 200);
              OpClosePort "COM1" "s-1" None] in
  GetSession m "COM3" = Some 1%nat
  ∧ GetSessionByID m (ID (deref m 1%nat)) = Some 1%nat
  ∧ GetSessionByID m "s-1" = None.
Proof.
  intros m.
  assert (GetSession m "COM3" = Some 1%nat) as H by (by vm_compute).
  assert (NoDup (uuids
             [OpOpenPort "COM1" DefaultConfig "alice" true (env_ok "s-1" 100);
              OpOpenPort "COM3" DefaultConfig "bob" false (env_ok "s-2" 200);
              OpClosePort "COM1" "s-1" None])) as Hnd.
  { apply NoDup_cons. split; [|apply NoDup_singleton].
    intros Hin%list_elem_of_singleton. done. }
  split; [done|]. split; [|by vm_compute].
  exact (proj1 (tables_agree true DefaultConfig _ Hnd) "COM3" 1%nat H).
Defined.

(** What a call addressed to a port can write: one session record, the
    one under that port or a new one, and the table entry of that port. *)
Lemma apply_op_footprint (m : Manager) (op : mgr_op) (P : string) :
  wf m → op_port op = Some P →
  ∃ p, (sessions m !! P = Some p ∨ heap m !! p = None)
     ∧ (∀ q, q ≠ p → heap (apply_op m op) !! q = heap m !! q)
     ∧ (∀ Q, Q ≠ P → sessions (apply_op m op) !! Q = sessions m !! Q).
Proof.
  intros Hwf Hop.
  assert (apply_op m op = m → ∃ p, (sessions m !! P = Some p ∨ heap m !! p = None)
     ∧ (∀ q, q ≠ p → heap (apply_op m op) !! q = heap m !! q)
     ∧ (∀ Q, Q ≠ P → sessions (apply_op m op) !! Q = sessions m !! Q)) as same.
  { intros ->. exists (fresh (dom (heap m))).
    split; [right; apply fresh_not_allocated|done]. }
  assert (∀ p f, sessions m !! P = Some p → apply_op m op = update m p f →
     ∃ p, (sessions m !! P = Some p ∨ heap m !! p = None)
     ∧ (∀ q, q ≠ p → heap (apply_op m op) !! q = heap m !! q)
     ∧ (∀ Q, Q ≠ P → sessions (apply_op m op) !! Q = sessions m !! Q)) as upd.
  { intros p f Hp ->. exists p. split; [by left|]. split; [|done].
    intros q N. unfold update. simpl. by rewrite lookup_insert_ne. }
  destruct op; simpl in *; try done; injection Hop as ->.
  - destruct (OpenPort m P config clientID exclusive env) as [m' [p|e]] eqn:E.
    + apply OpenPort_success in E as (_ & Hp & Hh & Hs & _). exists p.
      split; [right; rewrite Hp; apply fresh_not_allocated|]. simpl. split.
      * intros q N. by rewrite Hh, lookup_insert_ne.
      * intros Q N. by rewrite Hs, lookup_insert_ne.
    + apply same. simpl. by apply OpenPort_failure in E.
  - unfold ClosePort in *. destruct (sessions m !! P) as [p|] eqn:E; [|by apply same].
    destruct (decide _); [by apply same|]. exists p. split; [by left|]. simpl.
    split.
    + intros q N. by rewrite lookup_insert_ne.
    + intros Q N. destruct (Hwf _ _ E) as (s & Hs & Hn).
      rewrite (deref_allocated _ _ _ Hs), Hn. by rewrite lookup_delete_ne.
  - unfold Write in *.
    destruct (ValidateSession m P sessionID) as [p|e] eqn:E; [|by apply same].
    apply ValidateSession_inl in E as (E & _).
    destruct (wr_err env); simpl; by eapply upd.
  - unfold Read in *.
    destruct (ValidateSession m P sessionID) as [p|e] eqn:E; [|by apply same].
    apply ValidateSession_inl in E as (E & _).
    destruct (maxBytes <? 0); [by apply same|].
    destruct (port_Read env _) as [[b n] [e|]]; simpl; by eapply upd.
  - unfold Configure in *.
    destruct (ValidateSession m P sessionID) as [p|e] eqn:E; [|by apply same].
    apply ValidateSession_inl in E as (E & _).
    destruct (Validate config); [by apply same|].
    destruct (set_mode_err env); [by apply same|].
    destruct (if ReadTimeoutMs config >? 0 then cfg_timeout_err env else None);
      [by apply same|].
    simpl. by eapply upd.
  - unfold SubscribeToReads in *.
    destruct (ValidateSession m P sessionID) as [p|e] eqn:E; [|by apply same].
    apply ValidateSession_inl in E as (E & _).
    exists p. split; [by left|]. simpl. split; [|done].
    intros q N. by rewrite lookup_insert_ne.
Qed.

Lemma apply_op_other_port (m : Manager) (op : mgr_op) (P Q : string) :
  wf m → op_port op = Some P → P ≠ Q →
  GetSession (apply_op m op) Q = GetSession m Q
  ∧ session_at (apply_op m op) Q = session_at m Q.
Proof.
  intros Hwf Hop N.
  destruct (apply_op_footprint m op P Hwf Hop) as (p & Hp & Hh & Hs).
  assert (sessions (apply_op m op) !! Q = sessions m !! Q) as HQ by (by apply Hs).
  split; [done|]. unfold session_at. rewrite HQ.
  destruct (sessions m !! Q) as [q|] eqn:E; [|done].
  apply Hh. intros ->. destruct (Hwf _ _ E) as (t & Ht & Htn).
  destruct Hp as [Hp|Hp]; [|congruence].
  destruct (Hwf _ _ Hp) as (t' & Ht' & Htn'). congruence.
Qed.

(** X7. Ports are isolated from one another: calls addressed to other
    ports, whatever their arguments and outcomes, leave the session under
    a port name as it is, record and all. Only [CloseAll] names no port. *)
Theorem other_ports_untouched (allowShared : bool) (dflt : PortConfig)
    (before ops : list mgr_op) (portName : string) :
  let m := apply_ops (NewManager allowShared dflt) before in
  Forall (fun op => ∃ P, op_port op = Some P ∧ P ≠ portName) ops →
  GetSession (apply_ops m ops) portName = GetSession m portName
  ∧ session_at (apply_ops m ops) portName = session_at m portName.
Proof.
  intros m.
  assert (wf m) as Hwf.
  { eapply rtc_alters_wf; [apply apply_ops_alters|apply NewManager_wf]. }
  clearbody m. revert m Hwf.
  induction ops as [|op ops IH]; intros m Hwf Hall; [done|].
  apply Forall_cons in Hall as [(P & Hop & N) Hall]. simpl.
  destruct (apply_op_other_port m op P portName Hwf Hop N) as [H1 H2].
  destruct (IH (apply_op m op) (apply_op_wf _ _ Hwf) Hall) as [H3 H4].
  split; congruence.
Qed.

Lemma other_ports_untouched_witness :
  let m := apply_ops (NewManager true DefaultConfig)
             [OpOpenPort "COM1" DefaultConfig "alice" true (env_ok "s-1" 100)] in
  let ops := [OpOpenPort "COM3" DefaultConfig "bob" false (env_ok "s-2" 200);
              OpWrite "COM3" "s-2" (Some [Byte.x68]) (mkWriteEnv 1 None 250);
              OpClosePort "COM3" "s-1" None;
              OpClosePort "COM3" "s-2" None] in
  session_at (apply_ops m ops) "COM1" = session_at m "COM1"
  ∧ session_at m "COM1" <> None.
Proof.
  intros m ops. split; [|by vm_compute].
  apply (other_ports_untouched true DefaultConfig
           [OpOpenPort "COM1" DefaultConfig "alice" true (env_ok "s-1" 100)]
           ops "COM1").
  repeat (apply Forall_cons; split; [by exists "COM3"|]). apply Forall_nil. done.
Defined.

Lemma CloseAll_fold (close_errs : nat → option error)
    (l : list (string * nat)) (m : Manager) :
  wf m → NoDup l.*1 → (∀ n p, (n, p) ∈ l → sessions m !! n = Some p) →
  let r := foldl (fun acc entry =>
                    if decide (sessions acc !! entry.1 = Some entry.2)
                    then (closeSessionLocked acc entry.2
                            (close_errs (port (deref acc entry.2)))).1
                    else acc) m l in
  (∀ n, sessions r !! n = if decide (n ∈ l.*1) then None else sessions m !! n)
  ∧ (∀ n p, (n, p) ∈ l →
       heap r !! p = Some (with_readers (with_closed (deref m p) true) [])).
Proof.
  revert m. induction l as [|[n p] l IH]; intros m Hwf Hnd Hall; simpl.
  { split; [done|]. intros ? ? H. by apply elem_of_nil in H. }
  apply NoDup_cons in Hnd as [Hn Hnd].
  assert (sessions m !! n = Some p) as Hp by (apply Hall; apply list_elem_of_here).
  destruct (decide (sessions m !! n = Some p)) as [_|]; [|done].
  set (e := close_errs (port (deref m p))).
  set (m1 := (closeSessionLocked m p e).1).
  destruct (Hwf _ _ Hp) as (s & Hs & Hsn).
  assert (alters m m1) as Ha by exact (alters_closed m n p e Hp).
  assert (wf m1) as Hwf1 by (by eapply alters_wf).
  assert (∀ x, x ≠ n → sessions m1 !! x = sessions m !! x) as Hother.
  { intros x N. unfold m1. simpl.
    rewrite (deref_allocated _ _ _ Hs), Hsn. by rewrite lookup_delete_ne. }
  assert (∀ n' p', (n', p') ∈ l → n' ≠ n) as Hdiff.
  { intros n' p' Hin ->. apply Hn. apply list_elem_of_fmap. by exists (n, p'). }
  destruct (IH m1 Hwf1 Hnd) as [IH1 IH2].
  { intros n' p' Hin. rewrite Hother by (by eapply Hdiff).
    apply Hall. by apply list_elem_of_further. }
  split.
  - intros x. rewrite IH1. destruct (decide (x = n)) as [->|N].
    + rewrite decide_False by done. rewrite decide_True by apply list_elem_of_here.
      unfold m1. simpl. rewrite (deref_allocated _ _ _ Hs), Hsn.
      by rewrite lookup_delete_eq.
    + rewrite Hother by done.
      destruct (decide (x ∈ l.*1)) as [Hin|Hin].
      * rewrite decide_True; [done|by apply list_elem_of_further].
      * rewrite decide_False; [done|].
        intros [?|?]%elem_of_cons; done.
  - intros n' p' [[= -> ->]|Hin]%elem_of_cons.
    + assert (heap m1 !! p = Some (with_readers (with_closed (deref m p) true) []))
        as H1 by (unfold m1; simpl; by rewrite lookup_insert_eq).
      assert (unregistered p m1) as Hu
        by (by eapply closeSessionLocked_unregistered).
      by destruct (rtc_alters_unregistered _ _ _ _
                     (CloseAll_alters close_errs l m1) H1 Hu).
    + etrans; [exact (IH2 _ _ Hin)|]. do 3 f_equal.
      assert (p' ≠ p) as N.
      { intros ->. pose proof (Hall n' p (list_elem_of_further _ _ _ Hin)) as Hq.
        destruct (Hwf _ _ Hq) as (t & Ht & Htn).
        apply (Hdiff _ _ Hin). congruence. }
      unfold deref, m1. simpl. by rewrite lookup_total_insert_ne.
Qed.

(** X8. [CloseAll] leaves no port open: every session that was registered
    under a port name is closed and loses its readers, the table by name is
    empty, so [ListOpenPorts] lists nothing and every identifier is refused
    with [ErrPortNotOpen] on every port. *)
Theorem CloseAll_closes_every_port (allowShared : bool) (dflt : PortConfig)
    (ops : list mgr_op) (close_errs : nat → option error) :
  let m := apply_ops (NewManager allowShared dflt) ops in
  let m' := CloseAll m close_errs in
  ListOpenPorts m' = []
  ∧ (∀ portName sessionID,
       ValidateSession m' portName sessionID = inr ErrPortNotOpen)
  ∧ (∀ portName p, GetSession m portName = Some p →
       deref m' p = with_readers (with_closed (deref m p) true) []).
Proof.
  intros m m'.
  assert (wf m) as Hwf.
  { eapply rtc_alters_wf; [apply apply_ops_alters|apply NewManager_wf]. }
  destruct (CloseAll_fold close_errs (map_to_list (sessions m)) m Hwf)
    as [H1 H2].
  { apply NoDup_fst_map_to_list. }
  { intros n p. by rewrite elem_of_map_to_list. }
  fold (CloseAll m close_errs) in H1, H2. fold m' in H1, H2.
  assert (sessions m' = ∅) as Hempty.
  { apply map_eq. intros n. rewrite H1, lookup_empty.
    destruct (decide _) as [|Hn]; [done|].
    destruct (sessions m !! n) as [p|] eqn:E; [|done].
    exfalso. apply Hn. apply list_elem_of_fmap. exists (n, p).
    split; [done|]. by apply elem_of_map_to_list. }
  split; [|split].
  - unfold ListOpenPorts. by rewrite Hempty, map_to_list_empty.
  - intros portName sessionID. unfold ValidateSession.
    by rewrite Hempty, lookup_empty.
  - intros portName p Hp. apply deref_allocated. apply (H2 portName).
    by apply elem_of_map_to_list.
Qed.

Lemma CloseAll_closes_every_port_witness :
  let m := apply_ops (NewManager true DefaultConfig)
             [OpOpenPort "COM1" DefaultConfig "alice" true (env_ok "s-1" 100);
              OpOpenPort "COM3" DefaultConfig "bob" false (env_ok "s-2" 200)] in
  let m' := CloseAll m (fun _ => Some (ErrHardware "i/o error")) in
  GetSession m "COM3" = Some 1%nat
  ∧ closed (deref m' 1%nat) = true
  ∧ ListOpenPorts m' = [].
Proof.
  intros m m'.
  assert (GetSession m "COM3" = Some 1%nat) as H by (by vm_compute).
  split; [done|].
  destruct (CloseAll_closes_every_port true DefaultConfig
              [OpOpenPort "COM1" DefaultConfig "alice" true (env_ok "s-1" 100);
               OpOpenPort "COM3" DefaultConfig "bob" false (env_ok "s-2" 200)]
              (fun _ => Some (ErrHardware "i/o error"))) as (H1 & _ & H3).
  split; [|exact H1].
  fold m m' in H3. by rewrite (H3 "COM3" 1%nat H).
Defined.

Lemma close_readers_lookup (l : list nat) (rc : gmap nat bool) (c : nat) :
  foldr (fun ch rc => <[ch := true]> rc) rc l !! c
  = if decide (c ∈ l) then Some true else rc !! c.
Proof.
  induction l as [|x l IH].
  - destruct (decide (c ∈ [])) as [H|_]; [by apply elem_of_nil in H|done].
  - cbn [foldr]. destruct (decide (c = x)) as [->|N].
    + rewrite lookup_insert_eq. rewrite decide_True; [done|]. apply list_elem_of_here.
    + rewrite lookup_insert_ne by done. rewrite IH.
      destruct (decide (c ∈ l)) as [Hin|Hin].
      * rewrite decide_True; [done|]. by apply list_elem_of_further.
      * rewrite decide_False; [done|]. intros [?|?]%elem_of_cons; done.
Qed.

(** What a change does to the readers: nothing, or one channel more for
    the validated session, or the closing of all channels of a session. *)
Lemma alters_readers_shape (m m' : Manager) :
  alters m m' → wf m →
  (rchans m' = rchans m
   ∧ (∀ q s', heap m' !! q = Some s' →
        (∃ s, heap m !! q = Some s ∧ readers s' = readers s ∧ closed s' = closed s)
        ∨ (heap m !! q = None ∧ readers s' = [] ∧ closed s' = false))
   ∧ (∀ q s, heap m !! q = Some s → is_Some (heap m' !! q)))
  ∨ (∃ name p s,
       sessions m !! name = Some p ∧ heap m !! p = Some s ∧ closed s = false
       ∧ heap m' = <[p := with_readers s (readers s ++ [fresh (dom (rchans m))])]>
                     (heap m)
       ∧ rchans m' = <[fresh (dom (rchans m)) := false]> (rchans m))
  ∨ (∃ name p s,
       sessions m !! name = Some p ∧ heap m !! p = Some s
       ∧ heap m' = <[p := with_readers (with_closed s true) []]> (heap m)
       ∧ rchans m' = foldr (fun ch rc => <[ch := true]> rc) (rchans m) (readers s)).
Proof.
  intros [m0 name sid p st E Ho|m0 name sid p c E V|m0 name sid p E
         |m0 name p e E|m0 name c cl x env m1 p E] Hwf.
  - left. apply ValidateSession_inl in E as (E1 & E2 & E3).
    destruct (Hwf _ _ E1) as (s & Hs & _). rewrite (deref_allocated _ _ _ Hs) in *.
    unfold update. simpl. rewrite (deref_allocated _ _ _ Hs).
    split; [done|]. split.
    + intros q s'. destruct (decide (q = p)) as [->|N].
      * rewrite lookup_insert_eq. intros [= <-]. left. by exists s.
      * rewrite lookup_insert_ne by done. intros Hq. left. by exists s'.
    + intros q t Hq. destruct (decide (q = p)) as [->|N].
      * by rewrite lookup_insert_eq.
      * by rewrite lookup_insert_ne.
  - left. apply ValidateSession_inl in E as (E1 & E2 & E3).
    destruct (Hwf _ _ E1) as (s & Hs & _). rewrite (deref_allocated _ _ _ Hs) in *.
    unfold update. simpl. rewrite (deref_allocated _ _ _ Hs).
    split; [done|]. split.
    + intros q s'. destruct (decide (q = p)) as [->|N].
      * rewrite lookup_insert_eq. intros [= <-]. left. by exists s.
      * rewrite lookup_insert_ne by done. intros Hq. left. by exists s'.
    + intros q t Hq. destruct (decide (q = p)) as [->|N].
      * by rewrite lookup_insert_eq.
      * by rewrite lookup_insert_ne.
  - right. left. unfold SubscribeToReads. rewrite E. simpl.
    apply ValidateSession_inl in E as (E1 & E2 & E3).
    destruct (Hwf _ _ E1) as (s & Hs & _). rewrite (deref_allocated _ _ _ Hs) in *.
    by exists name, p, s.
  - right. right. destruct (Hwf _ _ E) as (s & Hs & _). simpl.
    rewrite (deref_allocated _ _ _ Hs). by exists name, p, s.
  - left. apply OpenPort_success in E as (_ & -> & Hh & _ & _ & Hr & _).
    split; [done|]. split.
    + intros q s'. rewrite Hh.
      destruct (decide (q = fresh (dom (heap m0)))) as [->|N].
      * rewrite lookup_insert_eq. intros [= <-]. right.
        split; [apply fresh_not_allocated|done].
      * rewrite lookup_insert_ne by done. intros Hq. left. by exists s'.
    + intros q t Hq. rewrite Hh.
      destruct (decide (q = fresh (dom (heap m0)))) as [->|N].
      * by rewrite lookup_insert_eq.
      * by rewrite lookup_insert_ne.
Qed.

Lemma fresh_channel (m : Manager) : rchans m !! fresh (dom (rchans m)) = None.
Proof. apply not_elem_of_dom. apply is_fresh. Qed.

Lemma alters_readers_ok (m m' : Manager) :
  alters m m' → wf m → readers_ok m → readers_ok m'.
Proof.
  intros H Hwf [Hr Hd].
  destruct (alters_readers_shape _ _ H Hwf)
    as [(Hrc & Hsame & _)
       |[(name & p & s & E & Hs & Hc & Hh & Hrc)
        |(name & p & s & E & Hs & Hh & Hrc)]].
  - split.
    + intros q s' Hq. rewrite Hrc.
      destruct (Hsame _ _ Hq) as [(s & Hs & -> & _)|(_ & -> & _)].
      * by eapply Hr.
      * split; [apply NoDup_nil_2|]. intros ch Hin. by apply elem_of_nil in Hin.
    + intros q1 q2 s1 s2 ch H1 H2 I1 I2.
      destruct (Hsame _ _ H1) as [(t1 & Ht1 & R1 & _)|(_ & R1 & _)];
        [|rewrite R1 in I1; by apply elem_of_nil in I1].
      destruct (Hsame _ _ H2) as [(t2 & Ht2 & R2 & _)|(_ & R2 & _)];
        [|rewrite R2 in I2; by apply elem_of_nil in I2].
      rewrite R1 in I1. rewrite R2 in I2. by eapply Hd.
  - set (c := fresh (dom (rchans m))) in *.
    assert (∀ q t, heap m !! q = Some t → c ∉ readers t) as Hfresh.
    { intros q t Hq Hin. destruct (Hr _ _ Hq) as [_ Ho].
      pose proof (Ho _ Hin) as Hc'. unfold c in Hc'.
      by rewrite fresh_channel in Hc'. }
    split.
    + intros q s'. rewrite Hh, Hrc. destruct (decide (q = p)) as [->|N].
      * rewrite lookup_insert_eq. intros [= <-]. simpl.
        destruct (Hr _ _ Hs) as [Hnd Ho]. split.
        -- apply NoDup_app. split; [done|]. split; [|apply NoDup_singleton].
           intros x Hx ->%list_elem_of_singleton. by apply (Hfresh p s).
        -- intros ch [Hin | ->%list_elem_of_singleton]%elem_of_app.
           ++ rewrite lookup_insert_ne; [by apply Ho|].
              intros <-. by apply (Hfresh p s).
           ++ by rewrite lookup_insert_eq.
      * rewrite lookup_insert_ne by done. intros Hq.
        destruct (Hr _ _ Hq) as [Hnd Ho]. split; [done|].
        intros ch Hin. rewrite lookup_insert_ne; [by apply Ho|].
        intros <-. by apply (Hfresh q s').
    + intros q1 q2 s1 s2 ch. rewrite Hh.
      destruct (decide (q1 = p)) as [->|N1]; destruct (decide (q2 = p)) as [->|N2];
        try done.
      * rewrite lookup_insert_eq, lookup_insert_ne by done.
        intros [= <-] H2. simpl.
        intros [Hin | ->%list_elem_of_singleton]%elem_of_app I2.
        -- by apply (Hd p q2 s s2 ch).
        -- exfalso. by apply (Hfresh q2 s2 H2).
      * rewrite lookup_insert_eq, lookup_insert_ne by done.
        intros H1 [= <-] I1. simpl.
        intros [Hin | ->%list_elem_of_singleton]%elem_of_app.
        -- by apply (Hd q1 p s1 s ch).
        -- exfalso. by apply (Hfresh q1 s1 H1).
      * rewrite !lookup_insert_ne by done. apply Hd.
  - split.
    + intros q s'. rewrite Hh, Hrc. destruct (decide (q = p)) as [->|N].
      * rewrite lookup_insert_eq. intros [= <-]. simpl.
        split; [apply NoDup_nil_2|]. intros ch Hin. by apply elem_of_nil in Hin.
      * rewrite lookup_insert_ne by done. intros Hq.
        destruct (Hr _ _ Hq) as [Hnd Ho]. split; [done|].
        intros ch Hin. rewrite close_readers_lookup.
        rewrite decide_False; [by apply Ho|].
        intros Hin'. apply N. by apply (Hd q p s' s ch).
    + intros q1 q2 s1 s2 ch. rewrite Hh.
      destruct (decide (q1 = p)) as [->|N1]; destruct (decide (q2 = p)) as [->|N2];
        try done.
      * rewrite lookup_insert_eq. intros [= <-] _ I1. by apply elem_of_nil in I1.
      * rewrite lookup_insert_ne, lookup_insert_eq by done.
        intros _ [= <-] _ I2. by apply elem_of_nil in I2.
      * rewrite !lookup_insert_ne by done. apply Hd.
Qed.

Lemma alters_channel_of (m m' : Manager) (ch p : nat) :
  alters m m' → wf m → registered_open m → readers_ok m →
  channel_of ch p m → channel_of ch p m'.
Proof.
  intros H Hwf Hro [Hr Hd] (s0 & Hp & Hch & Hin).
  destruct (alters_readers_shape _ _ H Hwf)
    as [(Hrc & Hsame & Hmono)
       |[(name & q & s & E & Hs & Hc & Hh & Hrc)
        |(name & q & s & E & Hs & Hh & Hrc)]].
  - destruct (Hmono _ _ Hp) as [s' Hp'].
    destruct (Hsame _ _ Hp') as [(t & Ht & R & C)|(Hnone & _)]; [|congruence].
    assert (t = s0) as -> by congruence.
    exists s'. rewrite Hrc, R, C. by repeat split.
  - assert (ch ≠ fresh (dom (rchans m))) as Nc.
    { intros ->. by rewrite fresh_channel in Hch. }
    unfold channel_of. rewrite Hh, Hrc. destruct (decide (p = q)) as [->|N].
    + assert (s = s0) as -> by congruence.
      eexists. rewrite lookup_insert_eq. split; [done|]. simpl.
      rewrite lookup_insert_ne by done. split; [done|].
      intros C. apply elem_of_app. left. by apply Hin.
    + exists s0. rewrite !lookup_insert_ne by done. by repeat split.
  - unfold channel_of. rewrite Hh, Hrc. destruct (decide (p = q)) as [->|N].
    + assert (s = s0) as -> by congruence.
      eexists. rewrite lookup_insert_eq. split; [done|]. simpl.
      split; [|done]. rewrite close_readers_lookup.
      pose proof (Hro _ _ E) as C. rewrite (deref_allocated _ _ _ Hs) in C.
      rewrite decide_True; [done|by apply Hin].
    + exists s0. rewrite lookup_insert_ne by done. split; [done|].
      split; [|done]. rewrite close_readers_lookup.
      destruct (decide (ch ∈ readers s)) as [I|I]; [|done].
      destruct (closed s0) eqn:C; [done|].
      exfalso. apply N. apply (Hd p q s0 s ch); auto.
Qed.

Lemma rtc_alters_channel_of (m m' : Manager) (ch p : nat) :
  rtc alters m m' → wf m → registered_open m → readers_ok m →
  channel_of ch p m → channel_of ch p m'.
Proof.
  induction 1 as [m|m m1 m2 H1 _ IH]; intros Hwf Hro Hok Hch; [done|].
  apply IH;
    eauto using alters_wf, alters_registered_open, alters_readers_ok,
                alters_channel_of.
Qed.

Lemma rtc_alters_readers_ok (m m' : Manager) :
  rtc alters m m' → wf m → readers_ok m → readers_ok m'.
Proof. induction 1; eauto using alters_wf, alters_readers_ok. Qed.

(** X9. The channel handed out by [SubscribeToReads] lives as long as its
    session: it is new and open when handed out and, whatever calls
    follow, it is closed exactly if the session has been closed. No other
    session's close touches it. *)
Theorem subscription_lives_with_session (allowShared : bool) (dflt : PortConfig)
    (before after : list mgr_op) (portName sessionID : string)
    (m1 : Manager) (ch : nat) :
  let m := apply_ops (NewManager allowShared dflt) before in
  SubscribeToReads m portName sessionID = (m1, inl ch) →
  ∃ p, ValidateSession m portName sessionID = inl p
     ∧ rchans m !! ch = None
     ∧ rchans m1 !! ch = Some false
     ∧ readers (deref m1 p) = readers (deref m p) ++ [ch]
     ∧ let m2 := apply_ops m1 after in
       rchans m2 !! ch = Some (closed (deref m2 p)).
Proof.
  intros m. unfold SubscribeToReads.
  destruct (ValidateSession m portName sessionID) as [p|e] eqn:E; [|done].
  intros [= <- <-]. exists p. split; [done|].
  destruct (NewManager_registered_open allowShared dflt before) as [Hwf Hro].
  fold m in Hwf, Hro.
  assert (readers_ok m) as Hok.
  { eapply rtc_alters_readers_ok; [apply apply_ops_alters|apply NewManager_wf|].
    split; [intros q s Hq|intros q1 q2 s1 s2 c Hq];
      unfold NewManager in Hq; simpl in Hq; by rewrite lookup_empty in Hq. }
  pose proof (alters_readers m portName sessionID p E) as Ha.
  unfold SubscribeToReads in Ha. rewrite E in Ha. simpl in Ha.
  set (m1 := mkManager _ _ _ _ _ _) in *.
  pose proof (ValidateSession_inl _ _ _ _ E) as (E1 & E2 & E3).
  destruct (Hwf _ _ E1) as (s & Hs & _).
  assert (heap m1 !! p
          = Some (with_readers (deref m p)
                    (readers (deref m p) ++ [fresh (dom (rchans m))]))) as Hp1
    by (unfold m1; simpl; by rewrite lookup_insert_eq).
  assert (rchans m1 !! fresh (dom (rchans m)) = Some false) as Hc1
    by (unfold m1; simpl; by rewrite lookup_insert_eq).
  split; [apply fresh_channel|]. split; [done|].
  split; [by rewrite (deref_allocated _ _ _ Hp1)|].
  set (m2 := apply_ops m1 after).
  assert (channel_of (fresh (dom (rchans m))) p m1) as Hch.
  { eexists. split; [exact Hp1|]. simpl. rewrite E3. split; [done|].
    intros _. apply elem_of_app. right. apply list_elem_of_here. }
  destruct (rtc_alters_channel_of m1 m2 (fresh (dom (rchans m))) p
              (apply_ops_alters after m1))
    as (s2 & Hs2 & Hc2 & _);
    eauto using alters_wf, alters_registered_open, alters_readers_ok.
  by rewrite (deref_allocated _ _ _ Hs2).
Qed.

Lemma subscription_lives_with_session_witness :
  let m := apply_ops (NewManager true DefaultConfig)
             [OpOpenPort "COM1" DefaultConfig "alice" true (env_ok "s-1" 100);
              OpOpenPort "COM3" DefaultConfig "bob" true (env_ok "s-2" 200)] in
  let r := SubscribeToReads m "COM1" "s-1" in
  r.2 = inl 0%nat
  ∧ rchans (apply_ops r.1 [OpClosePort "COM3" "s-2" None]) !! 0%nat = Some false
  ∧ rchans (apply_ops r.1 [OpClosePort "COM1" "s-1" None]) !! 0%nat = Some true.
Proof.
  intros m r.
  assert (SubscribeToReads m "COM1" "s-1" = (r.1, inl 0%nat)) as H by (by vm_compute).
  split; [by vm_compute|]. split; [by vm_compute|].
  destruct (subscription_lives_with_session true DefaultConfig
              [OpOpenPort "COM1" DefaultConfig "alice" true (env_ok "s-1" 100);
               OpOpenPort "COM3" DefaultConfig "bob" true (env_ok "s-2" 200)]
              [OpClosePort "COM1" "s-1" None] "COM1" "s-1" r.1 0%nat H)
    as (p & Hp & _ & _ & _ & H5).
  assert (p = 0%nat) as -> by (vm_compute in Hp; congruence).
  etrans; [exact H5|]. by vm_compute.
Defined.

(** ** The default configuration *)










(** ** Opening and closing *)

(** X28. Opening a free port and closing it again is a round trip for
    the registry: after a successful [OpenPort] on a port without a
    session (with an identifier not in use), [ClosePort] with the
    identifier returned closes the session, returns what the transport
    answers, and leaves both tables exactly as they were before the open;
    only the closed session record remains behind. *)
Theorem OpenPort_ClosePort_round_trip (m m1 : Manager) (portName : string)
    (config : PortConfig) (clientID : string) (exclusive : bool) (env : OpenEnv)
    (p : nat) (close_err : option error) :
  GetSession m portName = None →
  GetSessionByID m (new_uuid env) = None →
  OpenPort m portName config clientID exclusive env = (m1, inl p) →
  let r := ClosePort m1 portName (ID (deref m1 p)) close_err in
  r.2 = close_err
  ∧ sessions r.1 = sessions m ∧ sessionsByID r.1 = sessionsByID m
  ∧ rchans r.1 = rchans m
  ∧ closed (deref r.1 p) = true
  ∧ ∀ q, q ≠ p → heap r.1 !! q = heap m !! q.
Proof.
  unfold GetSession, GetSessionByID. intros Hn Hi Ho.
  apply OpenPort_success in Ho as (_ & -> & Hh & Hs & Hb & Hr & _).
  set (p := fresh (dom (heap m))) in *.
  assert (deref m1 p
          = mkSession (new_uuid env) portName clientID exclusive config
                      (mkStats 0 0 0 (now_opened env) (now_activity env))
                      (open_handle env) false []) as Hd.
  { unfold deref. by rewrite Hh, lookup_total_insert_eq. }
  cbn zeta. unfold ClosePort. rewrite Hs, lookup_insert_eq, Hd. simpl.
  destruct (decide (new_uuid env ≠ new_uuid env)); [done|]. simpl.
  rewrite Hd. simpl. rewrite Hs, Hb, Hh.
  repeat split; try done.
  - by apply delete_insert_id.
  - by apply delete_insert_id.
  - unfold deref. simpl. by rewrite lookup_total_insert_eq.
  - intros q N. by rewrite !lookup_insert_ne.
Qed.

Lemma OpenPort_ClosePort_round_trip_witness :
  let m := m_excl in
  let m1 := (OpenPort m "COM3" fast_config "bob" false (env_ok "s-2" 200)).1 in
  let r := ClosePort m1 "COM3" "s-2" (Some (ErrHardware "i/o error")) in
  GetSession m "COM3" = None
  ∧ r.2 = Some (ErrHardware "i/o error")
  ∧ sessions r.1 = sessions m ∧ sessionsByID r.1 = sessionsByID m.
Proof.
  intros m m1 r.
  assert (GetSession m "COM3" = None) as Hn by (by vm_compute).
  assert (GetSessionByID m (new_uuid (env_ok "s-2" 200)) = None) as Hi
    by (by vm_compute).
  assert (OpenPort m "COM3" fast_config "bob" false (env_ok "s-2" 200)
          = (m1, inl 1%nat)) as Ho by (by vm_compute).
  destruct (OpenPort_ClosePort_round_trip m m1 "COM3" fast_config "bob" false
              (env_ok "s-2" 200) 1%nat (Some (ErrHardware "i/o error")) Hn Hi Ho)
    as (H1 & H2 & H3 & _).
  split; [done|]. split; [|split].
  - etrans; [|exact H1]. by vm_compute.
  - etrans; [|exact H2]. by vm_compute.
  - etrans; [|exact H3]. by vm_compute.
Defined.

(** ** The reader over runs *)

Lemma Read_returns (m : Manager) (portName sessionID : string) (maxBytes : Z)
    (env : ReadEnv) :
  0 ≤ maxBytes →
  ∃ m' data err, Read m portName sessionID maxBytes env = (m', Returns (data, err)).
Proof.
  intros H. unfold Read.
  destruct (ValidateSession m portName sessionID) as [p|e0]; [|by eauto].
  destruct (maxBytes <? 0) eqn:E; [lia|].
  destruct (port_Read env _) as [[b n] [e|]]; by eauto.
Qed.

Local Ltac sound_split := split; [|split; [|split; [|split]]].

Lemma stop_and_return_sound (w : World) :
  sound w → loop w ≠ NotStarted → sound (stop_and_return w).
Proof.
  intros (Hp & Ho & Hb & Hs & Hn) Hl.
  pose proof (stop_and_return_open w Ho) as Ho'. unfold stop_and_return in *.
  destruct (running (rdr w)) eqn:R.
  - destruct (stopChan (rdr w)) eqn:S; [by specialize (Hs eq_refl)|].
    destruct Ho as [Hnd Hfl].
    destruct (Stop_running (rdr w) (echans w) R S Hnd Hfl) as (ec & E & _).
    rewrite E in *. by sound_split.
  - unfold Stop in *. rewrite R in *. simpl in *. by sound_split.
Qed.

Lemma readLoop_turn_sound (w : World) (pick_ctx : bool) (env : ReadEnv) (now : Z) :
  sound w → loop w = Looping → sound (readLoop_turn w pick_ctx env now).
Proof.
  intros Hsound L. pose proof Hsound as (Hp & Ho & Hb & Hs & Hn).
  unfold readLoop_turn.
  destruct (running (rdr w)) eqn:R; simpl; [|by sound_split].
  destruct (ctx_done w && (negb (stopChan (rdr w)) || pick_ctx)).
  { apply stop_and_return_sound; [done|congruence]. }
  destruct (stopChan (rdr w)) eqn:S; [by specialize (Hs eq_refl)|].
  destruct (Read_returns (mgr w) (r_portName (rdr w)) (r_sessionID (rdr w))
              (bufferSize (rdr w)) env) as (m & data & err & E); [lia|].
  rewrite E.
  destruct (match err with None => true | Some _ => false end && (len data =? 0)).
  { sound_split; try done; simpl; congruence. }
  cbn zeta. unfold broadcast. cbn [with_mgr rdr echans sequence].
  destruct Ho as [Hnd Hfl].
  destruct (broadcast_to_open (mkEvent data now (AddUint32 (sequence w) 1) err)
              (subscribers (rdr w)) (echans w) Hfl) as [ec Hbc].
  rewrite Hbc.
  set (w1 := mkWorld m (rdr w) ec (ctx_done w) (loop w) (AddUint32 (sequence w) 1)
                     (slept w)
                     (broadcasts w ++ [mkEvent data now (AddUint32 (sequence w) 1) err])
                     (received w) (panicked w)).
  assert (subscribers_open w1) as Ho1
    by (by eapply (broadcast_open w w1); [split| |]).
  assert (sound w1) as H1.
  { sound_split; try done; simpl; congruence. }
  destruct err as [e|]; [|exact H1].
  destruct (is_fatal e).
  - apply (stop_and_return_sound w1 H1). simpl. congruence.
  - sound_split; try done; simpl; try congruence; apply Ho1.
Qed.

Lemma Unsubscribe_returns (w : World) (ch : nat) :
  subscribers_open w →
  ∃ r ec, Unsubscribe (rdr w) (echans w) ch = Returns (r, ec)
        ∧ running r = running (rdr w) ∧ stopChan r = stopChan (rdr w)
        ∧ bufferSize r = bufferSize (rdr w).
Proof.
  intros [Hnd Hfl]. unfold Unsubscribe.
  destruct (remove_first ch (subscribers (rdr w))) as [subs|] eqn:E;
    [|by exists (rdr w), (echans w)].
  apply remove_first_spec in E as (l1 & l2 & Hsubs & ->).
  destruct (close_chan_open (echans w) ch) as (ec & Hc & _).
  { apply Hfl. rewrite Hsubs. apply elem_of_app. right. apply list_elem_of_here. }
  rewrite Hc. simpl. by eexists _, _.
Qed.

Lemma step_sound (w : World) (h : happening) : sound w → sound (step w h).
Proof.
  intros Hsound. pose proof Hsound as (Hp & Ho & Hb & Hs & Hn).
  pose proof (step_subscribers_open w h Ho) as Ho'.
  unfold step in *. rewrite Hp in *.
  destruct h as [pick_ctx env now| |ch| | |ch|op].
  - destruct (loop w) eqn:L; [done| |done]. by apply readLoop_turn_sound.
  - destruct (Subscribe (rdr w) (echans w)) as [[r ec] c] eqn:E.
    unfold Subscribe in E. injection E as <- <- <-. by sound_split.
  - destruct (Unsubscribe_returns w ch Ho) as (r & ec & E & R1 & R2 & R3).
    rewrite E in *. sound_split; try done; simpl; rewrite ?R1, ?R2, ?R3; done.
  - destruct (running (rdr w)) eqn:R.
    + destruct (stopChan (rdr w)) eqn:S; [by specialize (Hs eq_refl)|].
      destruct Ho as [Hnd Hfl].
      destruct (Stop_running (rdr w) (echans w) R S Hnd Hfl) as (ec & E & _).
      rewrite E in *. sound_split; try done. simpl.
      intros L. destruct (Hn L). congruence.
    + unfold Stop in *. rewrite R in *. simpl in *. sound_split; try done.
      simpl. intros L. split; [by destruct (Hn L)|done].
  - by sound_split.
  - unfold receive in *.
    destruct (echans w !! ch) as [[[|event rest] cl]|]; by sound_split.
  - by sound_split.
Qed.

Lemma run_sound (hs : list happening) (w : World) : sound w → sound (run w hs).
Proof.
  revert w. induction hs as [|h hs IH]; intros w H; [done|].
  simpl. by apply IH, step_sound.
Qed.

Lemma run_not_started (hs : list happening) (w : World) :
  loop w = NotStarted → loop (run w hs) = NotStarted.
Proof.
  revert w. induction hs as [|h hs IH]; intros w H; [done|].
  simpl. apply IH. by apply step_idle.
Qed.

Lemma NewWorld_sound (m : Manager) (portName sessionID : string) (bufSize : Z) :
  sound (NewWorld m (NewReader portName sessionID bufSize)).
Proof.
  sound_split; try done; simpl.
  - split; [apply NoDup_nil_2|]. intros ch H. by apply elem_of_nil in H.
  - destruct (bufSize <=? 0) eqn:E; lia.
Qed.

Lemma Start_sound (w : World) :
  sound w → loop w = NotStarted → sound (Start w).1.
Proof.
  intros Hsound L. pose proof Hsound as (Hp & Ho & Hb & Hs & Hn).
  destruct (Hn L) as [S R]. unfold Start. rewrite R.
  destruct (ValidateSession _ _ _); [|done]. simpl.
  sound_split; try done; simpl; try congruence; apply Ho.
Qed.

Lemma started_sound (m : Manager) (portName sessionID : string) (bufSize : Z)
    (pre hs : list happening) :
  sound (run (Start (run (NewWorld m (NewReader portName sessionID bufSize)) pre)).1
             hs).
Proof.
  apply run_sound, Start_sound.
  - apply run_sound, NewWorld_sound.
  - by apply run_not_started.
Qed.

(** X10. A reader never panics during its life: from [NewReader] through
    one [Start] and any interleaving of loop turns, [Subscribe],
    [Unsubscribe], [Stop], cancellation, receipts and manager calls (each
    taken as a whole), no channel is closed twice, nothing is sent on a
    closed channel and no buffer of negative size is made. *)
Theorem reader_never_panics (m : Manager) (portName sessionID : string)
    (bufSize : Z) (pre hs : list happening) :
  let w := run (Start (run (NewWorld m (NewReader portName sessionID bufSize))
                           pre)).1 hs in
  panicked w = None
  ∧ 0 < bufferSize (rdr w)
  ∧ (stopChan (rdr w) = true → running (rdr w) = false)
  ∧ (∀ ch, ch ∈ subscribers (rdr w) → flag (echans w) ch = Some false).
Proof.
  intros w.
  destruct (started_sound m portName sessionID bufSize pre hs)
    as (Hp & [_ Ho] & Hb & Hs & _).
  by repeat split.
Qed.

Lemma try_send_queue (event : DataEvent) (ec ec' : gmap nat EventChan) (ch : nat)
    (c : EventChan) :
  ec !! ch = Some c → try_send event ec ch = Returns ec' →
  queue <$> ec' !! ch
  = Some (if Z.of_nat (length (queue c)) <? subscriberCap
          then queue c ++ [event] else queue c).
Proof.
  intros Hc. unfold try_send. rewrite Hc.
  destruct (ch_closed c); [done|].
  destruct (Z.of_nat (length (queue c)) <? subscriberCap); intros [= <-].
  - by rewrite lookup_insert_eq.
  - by rewrite Hc.
Qed.

Lemma broadcast_to_delivers (event : DataEvent) (chs : list nat)
    (ec ec' : gmap nat EventChan) :
  NoDup chs → broadcast_to event ec chs = Returns ec' →
  ∀ ch c, ch ∈ chs → ec !! ch = Some c →
    queue <$> ec' !! ch
    = Some (if Z.of_nat (length (queue c)) <? subscriberCap
            then queue c ++ [event] else queue c).
Proof.
  revert ec. induction chs as [|x chs IH]; intros ec Hnd Hb ch c Hin Hc.
  { by apply elem_of_nil in Hin. }
  apply NoDup_cons in Hnd as [Hx Hnd]. simpl in Hb.
  destruct (try_send event ec x) as [ec1|] eqn:E; [|done]. simpl in Hb.
  apply elem_of_cons in Hin as [->|Hin].
  - rewrite (broadcast_to_other _ _ _ _ _ Hx Hb). by eapply try_send_queue.
  - apply (IH ec1 Hnd Hb ch c Hin).
    destruct (try_send_lookup _ _ _ _ E) as [Hother _].
    rewrite Hother; [done|]. by intros ->.
Qed.

Lemma stop_and_return_queue (w : World) (ch : nat) :
  queue_of (stop_and_return w) ch = queue_of w ch
  ∧ received (stop_and_return w) = received w.
Proof.
  unfold stop_and_return, queue_of.
  destruct (Stop (rdr w) (echans w)) as [[r ec]|] eqn:E; [|done].
  apply Stop_returns in E as [Hq _]. simpl. by rewrite Hq.
Qed.

(** X11. An event the loop produces reaches every subscriber that has
    room: in a turn whose read gives data or an error, each subscribed
    channel holding fewer than 100 events gets the event appended once,
    behind those waiting, and each full channel is left as it is (the
    event is dropped for that subscriber only). This holds also when the
    error stops the reader: the event is queued before the channel is
    closed. *)
Theorem broadcast_reaches_subscribers (m0 : Manager) (portName sessionID : string)
    (bufSize : Z) (pre hs : list happening) (pick_ctx : bool) (env : ReadEnv)
    (now : Z) (m : Manager) (data : slice) (err : option error) :
  let w := run (Start (run (NewWorld m0 (NewReader portName sessionID bufSize))
                           pre)).1 hs in
  loop w = Looping →
  running (rdr w) = true → ctx_done w = false → stopChan (rdr w) = false →
  Read (mgr w) (r_portName (rdr w)) (r_sessionID (rdr w)) (bufferSize (rdr w)) env
    = (m, Returns (data, err)) →
  err ≠ None ∨ 0 < len data →
  let w' := step w (Turn pick_ctx env now) in
  let event := mkEvent data now (AddUint32 (sequence w) 1) err in
  broadcasts w' = broadcasts w ++ [event]
  ∧ ∀ ch, ch ∈ subscribers (rdr w) →
      queue_of w' ch
      = if Z.of_nat (length (queue_of w ch)) <? subscriberCap
        then queue_of w ch ++ [event] else queue_of w ch.
Proof.
  intros w L R C S E Hev w' event.
  destruct (started_sound m0 portName sessionID bufSize pre hs)
    as (Hp & Ho & _).
  fold w in Hp, Ho. pose proof Ho as [Hnd Hfl].
  pose proof (readLoop_turn_default w pick_ctx env now m data err Hp L R C S E)
    as Hstep.
  fold w' in Hstep.
  assert (match err with None => true | Some _ => false end && (len data =? 0)
          = false) as Hne.
  { destruct Hev as [Hev|Hev]; [by destruct err|].
    apply andb_false_iff. right. apply Z.eqb_neq. lia. }
  rewrite Hne in Hstep. cbn zeta in Hstep. fold event in Hstep.
  destruct (broadcast_to_open event (subscribers (rdr w)) (echans w) Hfl)
    as [ec Hbc].
  rewrite Hbc in Hstep.
  set (w1 := mkWorld m (rdr w) ec (ctx_done w) (loop w) (AddUint32 (sequence w) 1)
                     (slept w) (broadcasts w ++ [event]) (received w)
                     (panicked w)) in *.
  assert (broadcasts w' = broadcasts w ++ [event]
          ∧ ∀ ch, queue_of w' ch = queue_of w1 ch) as [Hb Hq].
  { rewrite Hstep. destruct err as [e|]; [|done].
    destruct (is_fatal e); [|done]. split.
    - by rewrite stop_and_return_broadcasts.
    - intros ch. apply stop_and_return_queue. }
  split; [done|]. intros ch Hch. rewrite Hq.
  destruct (subscribers_allocated w ch Ho Hch) as [c Hc].
  pose proof (broadcast_to_delivers event _ _ _ Hnd Hbc ch c Hch Hc) as Hd.
  unfold queue_of. simpl. rewrite Hd, Hc. done.
Qed.

Lemma broadcast_reaches_subscribers_witness :
  let w' := step w_started (Turn false one_byte 300) in
  loop w_started = Looping
  ∧ broadcasts w' = [mkEvent (Some [Byte.x41]) 300 1 None]
  ∧ queue_of w' 0%nat = [mkEvent (Some [Byte.x41]) 300 1 None].
Proof.
  split; [done|].
  assert (Read (mgr w_started) (r_portName (rdr w_started))
               (r_sessionID (rdr w_started)) (bufferSize (rdr w_started)) one_byte
          = ((Read (mgr w_started) "COM1" "s-1" 1024 one_byte).1,
             Returns (Some [Byte.x41], None))) as E by (by vm_compute).
  destruct (broadcast_reaches_subscribers m_excl
              "COM1" "s-1" 0 [DoSubscribe] [] false one_byte 300 _ _ _
              eq_refl eq_refl eq_refl eq_refl E) as [H1 H2].
  { right. simpl. lia. }
  split; [exact H1|]. apply H2. vm_compute. apply list_elem_of_here.
Defined.

Lemma queue_of_same (w w' : World) (c : nat) :
  queue <$> echans w' !! c = queue <$> echans w !! c → queue_of w' c = queue_of w c.
Proof. unfold queue_of. by intros ->. Qed.

Lemma events_same (w w' : World) :
  received w' = received w → (∀ c, queue_of w' c = queue_of w c) →
  ∀ ch, events_of w' ch = events_of w ch.
Proof. intros Hr Hq ch. unfold events_of, taken_by. by rewrite Hr, Hq. Qed.

Lemma stop_and_return_events (w : World) (ch : nat) :
  events_of (stop_and_return w) ch = events_of w ch.
Proof.
  destruct (stop_and_return_queue w ch) as [Hq Hr].
  unfold events_of, taken_by. by rewrite Hq, Hr.
Qed.

Lemma readLoop_turn_events (w : World) (pick_ctx : bool) (env : ReadEnv) (now : Z) :
  subscribers_open w →
  ∃ evs, broadcasts (readLoop_turn w pick_ctx env now) = broadcasts w ++ evs
    ∧ ∀ ch, events_of (readLoop_turn w pick_ctx env now) ch = events_of w ch
            ∨ events_of (readLoop_turn w pick_ctx env now) ch
              = events_of w ch ++ evs.
Proof.
  intros [Hnd Hfl].
  assert (∀ w', broadcasts w' = broadcasts w →
                (∀ ch, events_of w' ch = events_of w ch) →
    ∃ evs, broadcasts w' = broadcasts w ++ evs
      ∧ ∀ ch, events_of w' ch = events_of w ch
              ∨ events_of w' ch = events_of w ch ++ evs) as same.
  { intros w' Hb He. exists []. rewrite app_nil_r. split; [done|]. by left. }
  unfold readLoop_turn.
  destruct (negb (running (rdr w))); [by apply same|].
  destruct (ctx_done w && (negb (stopChan (rdr w)) || pick_ctx)).
  { apply same; [apply stop_and_return_broadcasts|apply stop_and_return_events]. }
  destruct (stopChan (rdr w)); [by apply same|].
  destruct (Read (mgr w) (r_portName (rdr w)) (r_sessionID (rdr w))
              (bufferSize (rdr w)) env) as [m [[data err]|msg]]; [|by apply same].
  destruct (match err with None => true | Some _ => false end && (len data =? 0));
    [by apply same|].
  cbn zeta. unfold broadcast. cbn [with_mgr rdr echans sequence].
  set (event := mkEvent data now (AddUint32 (sequence w) 1) err).
  destruct (broadcast_to event (echans w) (subscribers (rdr w))) as [ec|msg] eqn:Hb;
    [|by apply same].
  set (w1 := mkWorld m (rdr w) ec (ctx_done w) (loop w) (AddUint32 (sequence w) 1)
                     (slept w) (broadcasts w ++ [event]) (received w) (panicked w)).
  assert (∀ ch, events_of w1 ch = events_of w ch
                ∨ events_of w1 ch = events_of w ch ++ [event]) as H1.
  { intros ch. unfold events_of, queue_of, taken_by. simpl.
    destruct (broadcast_to_queue event _ _ _ Hnd Hb ch) as [-> | ->];
      [by left|right]. by rewrite app_assoc. }
  exists [event].
  destruct err as [e|]; [|by split].
  destruct (is_fatal e); [|by split]. split.
  - by rewrite stop_and_return_broadcasts.
  - intros ch. rewrite stop_and_return_events. apply H1.
Qed.

Lemma Subscribe_queue (r : Reader) (ec : gmap nat EventChan) (c : nat) :
  default [] (queue <$> (Subscribe r ec).1.2 !! c) = default [] (queue <$> ec !! c).
Proof.
  unfold Subscribe. simpl.
  destruct (decide (c = fresh (dom ec))) as [->|N].
  - rewrite lookup_insert_eq.
    assert (ec !! fresh (dom ec) = None) as -> by apply not_elem_of_dom, is_fresh.
    done.
  - by rewrite lookup_insert_ne.
Qed.

Lemma Unsubscribe_queue (r r' : Reader) (ec ec' : gmap nat EventChan) (ch : nat) :
  Unsubscribe r ec ch = Returns (r', ec') →
  ∀ c, queue <$> ec' !! c = queue <$> ec !! c.
Proof.
  unfold Unsubscribe.
  destruct (remove_first ch (subscribers r)); [|by intros [= <- <-]].
  destruct (close_chan ec ch) as [ec1|] eqn:E; [|done]. simpl.
  intros [= <- <-]. by eapply close_chan_queue.
Qed.

Lemma receive_events (w : World) (ch c : nat) :
  events_of (receive w ch) c = events_of w c.
Proof.
  unfold receive.
  destruct (echans w !! ch) as [[[|event rest] cl]|] eqn:E; [done| |done].
  unfold events_of, taken_by, queue_of. simpl.
  rewrite filter_app, fmap_app.
  destruct (decide (c = ch)) as [->|N].
  - rewrite lookup_insert_eq, E. simpl.
    rewrite filter_cons_True by done. simpl. by rewrite <- app_assoc.
  - rewrite lookup_insert_ne by done.
    rewrite filter_cons_False by (simpl; congruence).
    simpl. by rewrite app_nil_r.
Qed.

Lemma step_events (w : World) (h : happening) :
  subscribers_open w →
  ∃ evs, broadcasts (step w h) = broadcasts w ++ evs
    ∧ ∀ ch, events_of (step w h) ch = events_of w ch
            ∨ events_of (step w h) ch = events_of w ch ++ evs.
Proof.
  intros Ho.
  assert (∀ w', broadcasts w' = broadcasts w →
                (∀ ch, events_of w' ch = events_of w ch) →
    ∃ evs, broadcasts w' = broadcasts w ++ evs
      ∧ ∀ ch, events_of w' ch = events_of w ch
              ∨ events_of w' ch = events_of w ch ++ evs) as same.
  { intros w' Hb He. exists []. rewrite app_nil_r. split; [done|]. by left. }
  unfold step. destruct (panicked w); [by apply same|].
  destruct h as [pick_ctx env now| |ch| | |ch|op].
  - destruct (loop w); [by apply same| |by apply same].
    by apply readLoop_turn_events.
  - pose proof (Subscribe_queue (rdr w) (echans w)) as Hq.
    destruct (Subscribe (rdr w) (echans w)) as [[r ec] c0].
    apply same; [done|]. apply events_same; [done|]. intros c. apply Hq.
  - destruct (Unsubscribe (rdr w) (echans w) ch) as [[r ec]|] eqn:E;
      [|by apply same].
    apply same; [done|]. apply events_same; [done|].
    intros c. apply queue_of_same. simpl. by eapply Unsubscribe_queue.
  - destruct (Stop (rdr w) (echans w)) as [[r ec]|] eqn:E; [|by apply same].
    apply Stop_returns in E as [Hq _].
    apply same; [done|]. apply events_same; [done|].
    intros c. apply queue_of_same. apply Hq.
  - by apply same.
  - apply same; [|intros c; apply receive_events].
    unfold receive. by destruct (echans w !! ch) as [[[|event rest] cl]|].
  - by apply same.
Qed.

Lemma run_events (hs : list happening) (w : World) :
  subscribers_open w →
  (∀ ch, sublist (events_of w ch) (broadcasts w)) →
  ∀ ch, sublist (events_of (run w hs) ch) (broadcasts (run w hs)).
Proof.
  revert w. induction hs as [|h hs IH]; intros w Ho Hs; [done|].
  simpl. apply IH; [by apply step_subscribers_open|].
  destruct (step_events w h Ho) as (evs & Hb & He).
  intros ch. rewrite Hb. destruct (He ch) as [-> | ->].
  - by apply sublist_inserts_r.
  - by apply sublist_app.
Qed.

(** X12. What a subscriber gets is a subsequence of what the loop
    produced: in every run, the events a subscriber has taken from its
    channel followed by those still waiting in it occur among the events
    handed to [broadcast], in the same order. Events may be missing
    (dropped on a full channel, or produced before the subscription), but
    none is invented, repeated or out of order. *)
Theorem subscriber_sees_subsequence (m : Manager) (portName sessionID : string)
    (bufSize : Z) (pre hs : list happening) (ch : nat) :
  let w := run (Start (run (NewWorld m (NewReader portName sessionID bufSize))
                           pre)).1 hs in
  sublist (taken_by ch w ++ queue_of w ch) (broadcasts w)
  ∧ sublist (taken_by ch w) (broadcasts w).
Proof.
  intros w.
  set (w0 := NewWorld m (NewReader portName sessionID bufSize)).
  assert (subscribers_open w0) as Ho0.
  { split; simpl; [apply NoDup_nil_2|]. intros c H. by apply elem_of_nil in H. }
  assert (∀ c, sublist (events_of w0 c) (broadcasts w0)) as Hs0.
  { intros c. apply sublist_nil_l. }
  pose proof (run_subscribers_open pre w0 Ho0) as Ho1.
  pose proof (run_events pre w0 Ho0 Hs0) as Hs1.
  set (w1 := run w0 pre) in *.
  assert (subscribers_open (Start w1).1
          ∧ ∀ c, sublist (events_of (Start w1).1 c) (broadcasts (Start w1).1))
    as [Ho2 Hs2].
  { unfold Start. destruct (running (rdr w1)); [done|].
    destruct (ValidateSession _ _ _); [|done]. simpl. split; [apply Ho1|apply Hs1]. }
  pose proof (run_events hs _ Ho2 Hs2 ch) as H. fold w in H.
  split; [exact H|].
  etrans; [|exact H]. apply sublist_inserts_r. done.
Qed.

Lemma receive_queue (w : World) (ch c : nat) :
  queue_of (receive w ch) c `suffix_of` queue_of w c.
Proof.
  unfold receive.
  destruct (echans w !! ch) as [[[|event rest] cl]|] eqn:E; [done| |done].
  unfold queue_of. simpl. destruct (decide (c = ch)) as [->|N].
  - rewrite lookup_insert_eq, E. simpl. by apply suffix_cons_r.
  - by rewrite lookup_insert_ne.
Qed.

(** A reader that does not run reads nothing and sends nothing. *)
Lemma step_not_running (w : World) (h : happening) :
  running (rdr w) = false →
  running (rdr (step w h)) = false
  ∧ stopChan (rdr (step w h)) = stopChan (rdr w)
  ∧ broadcasts (step w h) = broadcasts w
  ∧ (∀ ch, queue_of (step w h) ch `suffix_of` queue_of w ch)
  ∧ ((∀ op, h ≠ ManagerCall op) → mgr (step w h) = mgr w).
Proof.
  intros R. unfold step. destruct (panicked w); [done|].
  destruct h as [pick_ctx env now| |ch| | |ch|op].
  - destruct (loop w); [done| |done]. unfold readLoop_turn. by rewrite R.
  - pose proof (Subscribe_queue (rdr w) (echans w)) as Hq.
    unfold Subscribe in *. simpl in *. repeat split; try done.
    intros ch. unfold queue_of. simpl. by rewrite Hq.
  - destruct (Unsubscribe (rdr w) (echans w) ch) as [[r ec]|] eqn:E; [|done].
    pose proof (Unsubscribe_queue _ _ _ _ _ E) as Hq.
    unfold Unsubscribe in E.
    destruct (remove_first ch (subscribers (rdr w))).
    + destruct (close_chan (echans w) ch); [|done]. simpl in E.
      injection E as <- <-. repeat split; try done.
      intros c. unfold queue_of. simpl. by rewrite Hq.
    + injection E as <- <-. by repeat split.
  - unfold Stop. rewrite R. simpl. by repeat split.
  - by repeat split.
  - repeat split; try done;
      try (unfold receive; by destruct (echans w !! ch) as [[[|event rest] cl]|]).
    intros c. apply receive_queue.
  - repeat split; try done. intros H. by destruct (H op).
Qed.

Lemma run_not_running (hs : list happening) (w : World) :
  running (rdr w) = false →
  running (rdr (run w hs)) = false
  ∧ stopChan (rdr (run w hs)) = stopChan (rdr w)
  ∧ broadcasts (run w hs) = broadcasts w
  ∧ (∀ ch, queue_of (run w hs) ch `suffix_of` queue_of w ch)
  ∧ (Forall (fun h => ∀ op, h ≠ ManagerCall op) hs → mgr (run w hs) = mgr w).
Proof.
  revert w. induction hs as [|h hs IH]; intros w R; [done|]. simpl.
  destruct (step_not_running w h R) as (R1 & S1 & B1 & Q1 & M1).
  destruct (IH _ R1) as (R2 & S2 & B2 & Q2 & M2).
  repeat split; [done|congruence|congruence| |].
  - intros ch. etrans; [apply Q2|apply Q1].
  - intros [H1 H2]%Forall_cons. rewrite M2, M1; done.
Qed.

Lemma Stop_stops (w : World) :
  sound w →
  let w1 := step w DoStop in
  panicked w1 = None ∧ running (rdr w1) = false
  ∧ broadcasts w1 = broadcasts w ∧ mgr w1 = mgr w
  ∧ (∀ ch, queue_of w1 ch = queue_of w ch)
  ∧ (running (rdr w) = true →
     stopChan (rdr w1) = true ∧ subscribers (rdr w1) = []
     ∧ ∀ ch, ch ∈ subscribers (rdr w) → flag (echans w1) ch = Some true).
Proof.
  intros (Hp & [Hnd Hfl] & Hb & Hs & Hn). simpl. unfold step. rewrite Hp.
  destruct (running (rdr w)) eqn:R.
  - destruct (stopChan (rdr w)) eqn:S; [by specialize (Hs eq_refl)|].
    destruct (Stop_running (rdr w) (echans w) R S Hnd Hfl) as (ec & E & Hc & _).
    pose proof (Stop_returns _ _ _ _ E) as [Hq _].
    rewrite E. repeat split; try done.
    intros ch. apply queue_of_same. apply Hq.
  - unfold Stop. rewrite R. simpl. by repeat split.
Qed.



(** X14. A reader cannot be restarted. After [Stop], a further [Start]
    (with the session still valid) reports success and [IsRunning] turns
    true, but the stop channel stays closed: the new loop leaves at its
    first turn, the manager untouched and no event produced, and the next
    [Stop] panics with a close of a closed channel. *)
Theorem restarted_reader_is_dead (m : Manager) (portName sessionID : string)
    (bufSize : Z) (pre hs later : list happening) (w3 : World) :
  let w := run (Start (run (NewWorld m (NewReader portName sessionID bufSize))
                           pre)).1 hs in
  IsRunning (rdr w) = true →
  let w2 := run (step w DoStop) later in
  Start w2 = (w3, None) →
  IsRunning (rdr w3) = true
  ∧ (ctx_done w3 = false →
     ∀ pick_ctx env now,
       let w4 := step w3 (Turn pick_ctx env now) in
       loop w4 = Exited ∧ mgr w4 = mgr w3 ∧ broadcasts w4 = broadcasts w3
       ∧ echans w4 = echans w3 ∧ IsRunning (rdr w4) = true)
  ∧ panicked (step w3 DoStop) = Some "close of closed channel".
Proof.
  intros w R w2 HS.
  pose proof (started_sound m portName sessionID bufSize pre hs) as Hsound.
  fold w in Hsound.
  destruct (Stop_stops w Hsound) as (P1 & R1 & B1 & M1 & Q1 & C1).
  destruct (C1 R) as (S1 & _).
  destruct (run_not_running later _ R1) as (R2 & S2 & _).
  fold w2 in R2, S2. rewrite S1 in S2.
  assert (sound w2) as (P2 & _) by (apply run_sound, step_sound, Hsound).
  unfold Start in HS. rewrite R2 in HS.
  destruct (ValidateSession _ _ _); [|done]. injection HS as <-.
  unfold IsRunning. simpl. split; [done|]. split.
  - intros C pick_ctx env now. unfold step. simpl. rewrite P2.
    unfold readLoop_turn. simpl. rewrite C, S2. simpl. done.
  - unfold step. simpl. rewrite P2. unfold Stop. simpl. by rewrite S2.
Qed.

Lemma restarted_reader_is_dead_witness :
  let w3 := (Start (step w_started DoStop)).1 in
  IsRunning (rdr w_started) = true
  ∧ (Start (step w_started DoStop)).2 = None
  ∧ IsRunning (rdr w3) = true
  ∧ loop (step w3 (Turn false one_byte 300)) = Exited
  ∧ panicked (step w3 DoStop) = Some "close of closed channel".
Proof.
  intros w3.
  assert (Start (run (step w_started DoStop) []) = (w3, None)) as HS
    by (by vm_compute).
  destruct (restarted_reader_is_dead m_excl "COM1" "s-1" 0 [DoSubscribe] [] [] w3
              eq_refl HS) as (H1 & H2 & H3).
  split; [done|]. split; [by vm_compute|]. split; [exact H1|].
  split; [|exact H3].
  apply (H2 eq_refl false one_byte 300).
Defined.

(** X15. Cancelling the context stops the reader at the next turn of its
    loop: the turn leaves the manager as it is and produces no event, the
    loop leaves, the reader is stopped and the channel of every subscriber
    is closed, the events waiting in it kept. *)
Theorem cancellation_stops_reader (m : Manager) (portName sessionID : string)
    (bufSize : Z) (pre hs : list happening) (pick_ctx : bool) (env : ReadEnv)
    (now : Z) :
  let w := run (Start (run (NewWorld m (NewReader portName sessionID bufSize))
                           pre)).1 hs in
  loop w = Looping → IsRunning (rdr w) = true →
  let w' := step (step w Cancel) (Turn pick_ctx env now) in
  panicked w' = None ∧ loop w' = Exited ∧ IsRunning (rdr w') = false
  ∧ subscribers (rdr w') = []
  ∧ (∀ ch, ch ∈ subscribers (rdr w) → flag (echans w') ch = Some true)
  ∧ mgr w' = mgr w ∧ broadcasts w' = broadcasts w
  ∧ ∀ ch, queue_of w' ch = queue_of w ch.
Proof.
  intros w L R.
  pose proof (started_sound m portName sessionID bufSize pre hs)
    as (Hp & [Hnd Hfl] & Hb & Hs & Hn).
  fold w in Hp, Hnd, Hfl, Hb, Hs, Hn. unfold IsRunning in R.
  destruct (stopChan (rdr w)) eqn:S; [by rewrite (Hs eq_refl) in R|].
  destruct (Stop_running (rdr w) (echans w) R S Hnd Hfl) as (ec & E & Hc & _).
  pose proof (Stop_returns _ _ _ _ E) as [Hq _].
  simpl. unfold step. rewrite Hp. simpl. rewrite L.
  unfold readLoop_turn. simpl. rewrite R, S. simpl.
  unfold stop_and_return. simpl. rewrite E. simpl.
  repeat split; try done. intros ch. apply queue_of_same. apply Hq.
Qed.

Lemma cancellation_stops_reader_witness :
  let w' := step (step w_started Cancel) (Turn false one_byte 300) in
  loop w_started = Looping
  ∧ loop w' = Exited ∧ IsRunning (rdr w') = false
  ∧ flag (echans w') 0%nat = Some true ∧ broadcasts w' = [].
Proof.
  intros w'.
  destruct (cancellation_stops_reader m_excl "COM1" "s-1" 0 [DoSubscribe] []
              false one_byte 300 eq_refl eq_refl)
    as (_ & H2 & H3 & _ & H5 & _ & H7 & _).
  split; [done|]. split; [exact H2|]. split; [exact H3|]. split; [|exact H7].
  apply H5. vm_compute. apply list_elem_of_here.
Defined.

Lemma remove_first_None (ch : nat) (subs : list nat) :
  remove_first ch subs = None ↔ ch ∉ subs.
Proof.
  induction subs as [|x subs IH]; simpl.
  - split; [intros _; apply not_elem_of_nil|done].
  - destruct (decide (x = ch)) as [->|N].
    + split; [done|]. intros H. exfalso. apply H. apply list_elem_of_here.
    + destruct (remove_first ch subs) as [subs'|].
      * split; [done|]. intros H. exfalso.
        assert (ch ∉ subs) as H' by (intros ?; apply H; by apply list_elem_of_further).
        by apply IH in H'.
      * split; [|done]. intros _ [?|?]%elem_of_cons; [done|].
        by apply (proj1 IH).
Qed.

(** X16. [Unsubscribe] closes the channel it is given and no other: the
    channel leaves the list of subscribers with the events it holds still
    waiting in it, and every other channel and subscription is as before.
    For a channel that is not subscribed (never was, was unsubscribed
    already, or was closed by [Stop]) the call changes nothing, so a
    second [Unsubscribe] does not close the channel twice. *)
Theorem Unsubscribe_closes_one_channel (m : Manager) (portName sessionID : string)
    (bufSize : Z) (pre hs : list happening) (ch : nat) :
  let w := run (Start (run (NewWorld m (NewReader portName sessionID bufSize))
                           pre)).1 hs in
  let w' := step w (DoUnsubscribe ch) in
  panicked w' = None
  ∧ (ch ∈ subscribers (rdr w) →
     flag (echans w') ch = Some true
     ∧ queue_of w' ch = queue_of w ch
     ∧ (ch ∉ subscribers (rdr w'))
     ∧ ∀ c, c ≠ ch →
         (c ∈ subscribers (rdr w') ↔ c ∈ subscribers (rdr w))
         ∧ echans w' !! c = echans w !! c)
  ∧ ((ch ∉ subscribers (rdr w)) → w' = w)
  ∧ step w' (DoUnsubscribe ch) = w'.
Proof.
  intros w w'.
  pose proof (started_sound m portName sessionID bufSize pre hs) as Hsound.
  fold w in Hsound. pose proof Hsound as (Hp & [Hnd Hfl] & _).
  assert (sound w') as (Hp' & _) by (by apply step_sound).
  assert ((ch ∉ subscribers (rdr w)) → w' = w) as Hout.
  { intros Hin. unfold w', step, Unsubscribe. rewrite Hp.
    apply remove_first_None in Hin. rewrite Hin. by destruct w. }
  assert (ch ∈ subscribers (rdr w) →
     flag (echans w') ch = Some true
     ∧ queue_of w' ch = queue_of w ch
     ∧ (ch ∉ subscribers (rdr w'))
     ∧ ∀ c, c ≠ ch →
         (c ∈ subscribers (rdr w') ↔ c ∈ subscribers (rdr w))
         ∧ echans w' !! c = echans w !! c) as Hin.
  { intros Hin. unfold w', step, Unsubscribe. rewrite Hp.
    destruct (remove_first ch (subscribers (rdr w))) as [subs|] eqn:E;
      [|apply remove_first_None in E; done].
    apply remove_first_spec in E as (l1 & l2 & Hsubs & ->).
    destruct (close_chan_open (echans w) ch (Hfl ch Hin)) as (ec & Hc & Hf & Ho).
    pose proof (close_chan_queue _ _ _ Hc) as Hq.
    rewrite Hc. simpl. rewrite Hsubs in Hnd.
    apply NoDup_app in Hnd as (N1 & N2 & N3). apply NoDup_cons in N3 as [N3 N4].
    split; [done|]. split; [by apply queue_of_same|]. split.
    - intros [H|H]%elem_of_app; [|done]. apply (N2 ch H). apply list_elem_of_here.
    - intros c Nc. split; [|by apply Ho]. rewrite Hsubs.
      rewrite !elem_of_app, elem_of_cons.
      split; [intros [?|?]; [by left|right; by right]|].
      intros [?|[?|?]]; [by left|done|by right]. }
  split; [done|]. split; [done|]. split; [done|].
  destruct (decide (ch ∈ subscribers (rdr w))) as [H|H].
  - destruct (Hin H) as (_ & _ & H3 & _).
    unfold step, Unsubscribe. rewrite Hp'.
    apply remove_first_None in H3. rewrite H3. by destruct w'.
  - rewrite (Hout H). exact (Hout H).
Qed.

Lemma Unsubscribe_closes_one_channel_witness :
  let w := run w_started [DoSubscribe; Turn false one_byte 300] in
  let w' := step w (DoUnsubscribe 0%nat) in
  subscribers (rdr w) = [0%nat; 1%nat]
  ∧ subscribers (rdr w') = [1%nat]
  ∧ flag (echans w') 0%nat = Some true
  ∧ flag (echans w') 1%nat = Some false
  ∧ step w' (DoUnsubscribe 0%nat) = w'.
Proof.
  intros w w'.
  destruct (Unsubscribe_closes_one_channel m_excl "COM1" "s-1" 0 [DoSubscribe]
              [DoSubscribe; Turn false one_byte 300] 0%nat)
    as (_ & H2 & _ & H4).
  split; [by vm_compute|]. split; [by vm_compute|].
  split; [|split; [by vm_compute|exact H4]].
  apply H2. vm_compute. apply list_elem_of_here.
Defined.

(** ** Lines *)

Lemma elems_append (s d : slice) : elems (append s d) = elems s ++ elems d.
Proof.
  unfold append. destruct (elems d) eqn:E; [by rewrite app_nil_r|done].
Qed.

Lemma len_elems (s : slice) : len s = Z.of_nat (length (elems s)).
Proof. by destruct s. Qed.

Lemma index_of_app (delim : Byte.byte) (l1 l2 : list Byte.byte) :
  delim ∉ l1 → index_of delim (l1 ++ delim :: l2) = Some (length l1).
Proof.
  induction l1 as [|b l1 IH]; intros Hn; simpl.
  - by rewrite Byte.byte_dec_lb.
  - destruct (Byte.eqb b delim) eqn:E.
    + exfalso. apply Hn. apply Byte.byte_dec_bl in E as ->. apply list_elem_of_here.
    + rewrite IH; [done|]. intros H. apply Hn. by apply list_elem_of_further.
Qed.

(** The account of one call: the events taken are a prefix of those
    pending; an event that carries an error is taken and its data dropped. *)
Lemma ReadLine_account (pending : list DataEvent) (lr : LineReader)
    (chan_closed : bool) (lr' : LineReader) (rest : list DataEvent)
    (res : option (slice * option error * exit_point)) :
  ReadLine lr pending chan_closed = (lr', rest, res) →
  delimiter lr' = delimiter lr ∧ maxLine lr' = maxLine lr
  ∧ (res = None → rest = [])
  ∧ ∃ taken failed,
      pending = taken ++ failed ++ rest
      ∧ Forall (fun event => Error event = None) taken
      ∧ match res with
        | Some (_, Some err, AtError) =>
            ∃ event, failed = [event] ∧ Error event = Some err
        | _ => failed = []
        end
      ∧ accounted (delimiter lr) (elems (buffer lr) ++ bytes_of taken)
                  (elems (buffer lr')) res.
Proof.
  revert lr. induction pending as [|event pending IH]; intros lr H.
  - simpl in H.
    destruct (index_of (delimiter lr) (elems (buffer lr))) as [i|] eqn:Ei.
    + injection H as <- <- <-. split; [done|]. split; [done|]. split; [done|].
      exists [], []. repeat split; try done; simpl.
      * apply index_of_spec in Ei as [Hi _]. rewrite app_nil_r.
        symmetry. by apply take_drop_middle.
      * by apply index_of_spec in Ei as [_ Hn].
    + destruct chan_closed.
      * destruct (len (buffer lr) >? 0) eqn:El; injection H as <- <- <-;
          (split; [done|]); (split; [done|]); (split; [done|]); exists [], [];
          repeat split; try done; simpl; by rewrite app_nil_r.
      * injection H as <- <- <-. split; [done|]. split; [done|]. split; [done|].
        exists [], []. repeat split; try done. simpl. by rewrite app_nil_r.
  - simpl in H.
    destruct (index_of (delimiter lr) (elems (buffer lr))) as [i|] eqn:Ei.
    + injection H as <- <- <-. split; [done|]. split; [done|]. split; [done|].
      exists [], []. repeat split; try done; simpl.
      * apply index_of_spec in Ei as [Hi _]. rewrite app_nil_r.
        symmetry. by apply take_drop_middle.
      * by apply index_of_spec in Ei as [_ Hn].
    + destruct (Error event) as [err|] eqn:Ee.
      * injection H as <- <- <-. split; [done|]. split; [done|]. split; [done|].
        exists [], [event]. repeat split; try done; simpl.
        -- by exists event.
        -- by rewrite app_nil_r.
      * destruct (len (append (buffer lr) (Data event)) >? maxLine lr) eqn:Eo.
        -- injection H as <- <- <-. split; [done|]. split; [done|]. split; [done|].
           exists [event], []. repeat split; try done; simpl.
           ++ by apply Forall_singleton.
           ++ unfold bytes_of. simpl. by rewrite app_nil_r, elems_append.
        -- destruct (IH _ H)
             as (Hd & Hm & Hn & taken & failed & Hp & Hf & Hfail & Ha).
           simpl in Hd, Hm, Hfail, Ha.
           split; [done|]. split; [done|]. split; [done|].
           exists (event :: taken), failed. split; [by rewrite Hp|].
           split; [by apply Forall_cons|]. split; [done|].
           unfold bytes_of in *. simpl.
           rewrite elems_append, <- app_assoc in Ha. exact Ha.
Qed.

(** X17. [ReadLine] neither loses nor invents a byte. It takes events
    from the front of the channel; at every return, the bytes buffered
    before the call followed by the data of the events taken are exactly
    the line returned, the delimiter that ended it (if one did), and the
    bytes left in the buffer. The one exception is stated by the code: an
    event that carries an error is taken and its data discarded, and the
    buffer is kept. *)
Theorem ReadLine_conserves_bytes (lr : LineReader) (pending : list DataEvent)
    (chan_closed : bool) (lr' : LineReader) (rest : list DataEvent)
    (res : option (slice * option error * exit_point)) :
  ReadLine lr pending chan_closed = (lr', rest, res) →
  ∃ taken failed,
    pending = taken ++ failed ++ rest
    ∧ Forall (fun event => Error event = None) taken
    ∧ let stream := elems (buffer lr) ++ bytes_of taken in
      match res with
      | Some (line, None, AtDelimiter) =>
          failed = [] ∧ stream = elems line ++ delimiter lr :: elems (buffer lr')
      | Some (line, None, _) =>
          failed = [] ∧ stream = elems line ∧ elems (buffer lr') = []
      | Some (line, Some err, AtError) =>
          (∃ event, failed = [event] ∧ Error event = Some err)
          ∧ line = None ∧ elems (buffer lr') = stream
      | Some (line, Some err, _) =>
          failed = [] ∧ line = None ∧ elems (buffer lr') = stream
      | None => failed = [] ∧ rest = [] ∧ elems (buffer lr') = stream
      end.
Proof.
  intros H.
  destruct (ReadLine_account _ _ _ _ _ _ H)
    as (_ & _ & Hn & taken & failed & Hp & Hf & Hfail & Ha).
  exists taken, failed. split; [done|]. split; [done|]. cbn zeta.
  destruct res as [[[line [err|]] pt]|]; simpl in Ha.
  - destruct Ha as [-> <-]. by destruct pt.
  - destruct pt; destruct Ha; by subst.
  - by rewrite Hn.
Qed.

Lemma ReadLine_conserves_bytes_witness :
  let lr := mkLineReader (NewReader "COM1" "s-1" 0) Byte.x0a (Some [Byte.x61]) 4096 in
  let pending := [mkEvent (Some [Byte.x62]) 300 1 None;
                  mkEvent (Some [Byte.x0a; Byte.x63]) 301 2 None;
                  mkEvent (Some [Byte.x64]) 302 3 None] in
  ∃ lr', ReadLine lr pending false
         = (lr', [mkEvent (Some [Byte.x64]) 302 3 None],
            Some (Some [Byte.x61; Byte.x62], None, AtDelimiter))
       ∧ [Byte.x61; Byte.x62; Byte.x0a; Byte.x63]
         = [Byte.x61; Byte.x62] ++ Byte.x0a :: elems (buffer lr').
Proof.
  intros lr pending.
  exists (with_buffer lr (Some [Byte.x63])).
  assert (ReadLine lr pending false
          = (with_buffer lr (Some [Byte.x63]),
             [mkEvent (Some [Byte.x64]) 302 3 None],
             Some (Some [Byte.x61; Byte.x62], None, AtDelimiter))) as H
    by (by vm_compute).
  split; [exact H|].
  destruct (ReadLine_conserves_bytes _ _ _ _ _ _ H)
    as (taken & failed & Hp & _ & Hf & Hs).
  done.
Defined.

(** X18. A line ends at the first delimiter of the byte stream, however
    the stream was cut into events: when [ReadLine] returns a
    delimiter-terminated line, the line is the part of the stream (the
    buffer, then the data of the events taken) before its first delimiter,
    and the part behind that delimiter is kept for the next call. *)
Theorem ReadLine_splits_at_first_delimiter (lr : LineReader)
    (pending : list DataEvent) (chan_closed : bool) (lr' : LineReader)
    (rest : list DataEvent) (line : slice) (err : option error) :
  ReadLine lr pending chan_closed = (lr', rest, Some (line, err, AtDelimiter)) →
  ∃ taken i,
    pending = taken ++ rest
    ∧ let stream := elems (buffer lr) ++ bytes_of taken in
      index_of (delimiter lr) stream = Some i
      ∧ line = Some (take i stream)
      ∧ buffer lr' = Some (drop (S i) stream)
      ∧ err = None.
Proof.
  intros H.
  destruct (ReadLine_account _ _ _ _ _ _ H)
    as (_ & _ & _ & taken & failed & Hp & _ & Hfail & Ha).
  assert (err = None ∧ ∃ l b, line = Some l ∧ buffer lr' = Some b) as (-> & l & b & -> & Hb).
  { clear -H. revert lr H. induction pending as [|event pending IH]; intros lr H;
      simpl in H;
      destruct (index_of (delimiter lr) (elems (buffer lr))) as [i|];
      try (injection H as <- <- <- <-; by eauto).
    - destruct chan_closed; [destruct (len (buffer lr) >? 0)|]; done.
    - destruct (Error event); [done|].
      destruct (len (append (buffer lr) (Data event)) >? maxLine lr); [done|].
      by apply IH in H. }
  simpl in Ha, Hfail. subst failed. destruct Ha as [Hs Hn]. rewrite Hb in Hs.
  simpl in Hs, Hn. exists taken, (length l). split; [done|]. cbn zeta.
  rewrite Hs. split; [by apply index_of_app|].
  split; [by rewrite take_app_length|].
  rewrite Hb. f_equal. rewrite (cons_middle (delimiter lr)), app_assoc.
  rewrite drop_app_length'; [done|]. rewrite length_app. simpl. lia.
Qed.

Lemma ReadLine_splits_at_first_delimiter_witness :
  let lr := mkLineReader (NewReader "COM1" "s-1" 0) Byte.x0a (Some [Byte.x61]) 4096 in
  let whole := [mkEvent (Some [Byte.x62; Byte.x0a; Byte.x63]) 300 1 None] in
  let cut := [mkEvent (Some [Byte.x62]) 300 1 None;
              mkEvent (Some [Byte.x0a; Byte.x63]) 301 2 None] in
  (ReadLine lr whole false).2 = Some (Some [Byte.x61; Byte.x62], None, AtDelimiter)
  ∧ (ReadLine lr cut false).2 = (ReadLine lr whole false).2
  ∧ buffer (ReadLine lr cut false).1.1 = Some [Byte.x63].
Proof.
  intros lr whole cut.
  assert (ReadLine lr cut false
          = (with_buffer lr (Some [Byte.x63]), [],
             Some (Some [Byte.x61; Byte.x62], None, AtDelimiter))) as H
    by (by vm_compute).
  split; [by vm_compute|]. split; [by vm_compute|].
  destruct (ReadLine_splits_at_first_delimiter _ _ _ _ _ _ _ H)
    as (taken & i & Hp & _).
  by rewrite H.
Defined.

(** X19. The line reader keeps its buffer within [maxLine], and the exit
    tells the length of the line: a delimiter-terminated line is shorter
    than [maxLine], the last line of a closed channel is at most [maxLine]
    long, and only the overflow exit returns more than [maxLine] bytes,
    after which the buffer is empty. *)
Theorem ReadLine_keeps_buffer_bounded (lr : LineReader) (pending : list DataEvent)
    (chan_closed : bool) (lr' : LineReader) (rest : list DataEvent)
    (res : option (slice * option error * exit_point)) :
  len (buffer lr) ≤ maxLine lr →
  ReadLine lr pending chan_closed = (lr', rest, res) →
  maxLine lr' = maxLine lr
  ∧ len (buffer lr') ≤ maxLine lr
  ∧ match res with
    | Some (line, _, AtDelimiter) => len line < maxLine lr
    | Some (line, _, AtOverflow) => maxLine lr < len line ∧ buffer lr' = None
    | Some (line, _, _) => len line ≤ maxLine lr
    | None => True
    end.
Proof.
  revert lr. induction pending as [|event pending IH]; intros lr Hb H;
    simpl in H;
    destruct (index_of (delimiter lr) (elems (buffer lr))) as [i|] eqn:Ei.
  - injection H as <- <- <-. simpl. split; [done|].
    apply index_of_spec in Ei as [Hi%lookup_lt_Some _].
    rewrite len_elems in Hb. rewrite length_drop, length_take. lia.
  - assert (0 ≤ maxLine lr) by (rewrite len_elems in Hb; lia).
    destruct chan_closed; [destruct (len (buffer lr) >? 0)|];
      injection H as <- <- <-; simpl; repeat split; done.
  - injection H as <- <- <-. simpl. split; [done|].
    apply index_of_spec in Ei as [Hi%lookup_lt_Some _].
    rewrite len_elems in Hb. rewrite length_drop, length_take. lia.
  - assert (0 ≤ maxLine lr) by (rewrite len_elems in Hb; lia).
    destruct (Error event).
    { injection H as <- <- <-. simpl. repeat split; done. }
    destruct (len (append (buffer lr) (Data event)) >? maxLine lr) eqn:Eo.
    { injection H as <- <- <-. simpl. repeat split; try done. lia. }
    apply IH in H; [done|]. simpl. lia.
Qed.

Lemma ReadLine_keeps_buffer_bounded_witness :
  let lr := NewLineReader (NewReader "COM1" "s-1" 0) Byte.x0a 2 in
  let r := ReadLine lr [mkEvent (Some [Byte.x61; Byte.x62; Byte.x63]) 300 1 None]
                    false in
  len (buffer lr) ≤ maxLine lr
  ∧ r.2 = Some (Some [Byte.x61; Byte.x62; Byte.x63], None, AtOverflow)
  ∧ len (buffer r.1.1) ≤ 2.
Proof.
  intros lr r.
  assert (len (buffer lr) ≤ maxLine lr) as Hb by (by vm_compute).
  assert (ReadLine lr [mkEvent (Some [Byte.x61; Byte.x62; Byte.x63]) 300 1 None] false
          = (with_buffer lr None, [],
             Some (Some [Byte.x61; Byte.x62; Byte.x63], None, AtOverflow))) as H
    by (by vm_compute).
  split; [exact Hb|]. split; [by vm_compute|].
  destruct (ReadLine_keeps_buffer_bounded lr _ false _ _ _ Hb H) as (_ & H2 & _).
  unfold r. rewrite H. exact H2.
Defined.

(** ** What a scan lists *)

Lemma portsEqual_spec (a b : list PortInfo) :
  portsEqual a b = true ↔ watch_key <$> a = watch_key <$> b.
Proof.
  split.
  - unfold portsEqual. destruct (length a =? length b)%nat eqn:El; [|done].
    apply Nat.eqb_eq in El. simpl. intros H.
    apply list_eq_same_length with (length a); [by rewrite length_fmap
                                                |by rewrite length_fmap|].
    intros i x y Hi. rewrite !list_lookup_fmap.
    destruct (a !! i) as [pa|] eqn:Ea; [|done].
    destruct (b !! i) as [pb|] eqn:Eb; [|done]. simpl. intros [= <-] [= <-].
    rewrite forallb_forall in H. specialize (H i).
    rewrite (list_lookup_total_correct _ _ _ Ea),
            (list_lookup_total_correct _ _ _ Eb) in H.
    assert (In i (seq 0 (length a))) as Hin by (apply in_seq; lia).
    apply H in Hin. apply negb_true_iff, orb_false_iff in Hin as [H1 H2].
    apply negb_false_iff, String.eqb_eq in H1.
    apply negb_false_iff, Bool.eqb_prop in H2.
    unfold watch_key. by rewrite H1, H2.
  - intros H. apply portsEqual_keys.
    + assert (Name <$> a = fst <$> (watch_key <$> a)) as ->
        by (by rewrite <- list_fmap_compose).
      rewrite H. by rewrite <- list_fmap_compose.
    + assert (IsOpen <$> a = snd <$> (watch_key <$> a)) as ->
        by (by rewrite <- list_fmap_compose).
      rewrite H. by rewrite <- list_fmap_compose.
Qed.

(** X20. [portsEqual] is exactly equality of the two listings of names
    with their open flags, position by position; it sees no other field
    of a port, so a change of the locking client, the description or the
    type alone is no change for the watch loop. *)
Theorem portsEqual_compares_names_and_open_flags (a b : list PortInfo) :
  (portsEqual a b = true
   ↔ (Name <$> a = Name <$> b ∧ IsOpen <$> a = IsOpen <$> b))
  ∧ portsEqual a a = true
  ∧ portsEqual b a = portsEqual a b
  ∧ ∀ c, portsEqual a b = true → portsEqual b c = portsEqual a c.
Proof.
  assert (∀ x y : list PortInfo, watch_key <$> x = watch_key <$> y
                 ↔ Name <$> x = Name <$> y ∧ IsOpen <$> x = IsOpen <$> y) as Hk.
  { intros x y. split.
    - intros H. split.
      + assert (Name <$> x = fst <$> (watch_key <$> x)) as ->
          by (by rewrite <- list_fmap_compose).
        rewrite H. by rewrite <- list_fmap_compose.
      + assert (IsOpen <$> x = snd <$> (watch_key <$> x)) as ->
          by (by rewrite <- list_fmap_compose).
        rewrite H. by rewrite <- list_fmap_compose.
    - intros [H1 H2]. apply portsEqual_spec. by apply portsEqual_keys. }
  split; [by rewrite portsEqual_spec|]. split; [by apply portsEqual_spec|].
  split.
  - destruct (portsEqual a b) eqn:E1; destruct (portsEqual b a) eqn:E2; try done.
    + apply portsEqual_spec in E1. symmetry in E1. apply portsEqual_spec in E1.
      congruence.
    + apply portsEqual_spec in E2. symmetry in E2. apply portsEqual_spec in E2.
      congruence.
  - intros c Hab. apply portsEqual_spec in Hab.
    destruct (portsEqual b c) eqn:E1; destruct (portsEqual a c) eqn:E2; try done.
    + apply portsEqual_spec in E1. rewrite <- Hab in E1.
      apply portsEqual_spec in E1. congruence.
    + apply portsEqual_spec in E2. rewrite Hab in E2.
      apply portsEqual_spec in E2. congruence.
Qed.

Lemma portsEqual_compares_names_and_open_flags_witness :
  let a := [mkPortInfo "COM1" "Serial Port" "" "" "" "" "" "" PortTypeNative
                       true "alice"] in
  let b := [mkPortInfo "COM1" "FT232R" "" "" "FT232R" "" "" "" PortTypeUSB
                       true "bob"] in
  a ≠ b ∧ portsEqual a b = true.
Proof.
  intros a b. split; [done|].
  apply (proj1 (portsEqual_compares_names_and_open_flags a b)). done.
Defined.

Section ScanContents.
Variable GOOS : string.
Variable regexp_MatchString : string → string → bool.
Variable sort_Slice : (PortInfo → PortInfo → bool) → list PortInfo → list PortInfo.

(** [sort.Slice] permutes the slice. *)
Hypothesis sort_Slice_perm : ∀ less l, sort_Slice less l ≡ₚ l.

Local Abbreviation scan := (Scan GOOS regexp_MatchString sort_Slice).
Local Abbreviation info := (port_info GOOS regexp_MatchString).
Local Abbreviation excluded := (isExcluded regexp_MatchString).
Local Abbreviation get_port := (GetPort GOOS regexp_MatchString sort_Slice).

Lemma Scan_elements (s s' : Scanner) (m : option Manager)
    (ports : list PortDetails) (result : list PortInfo) :
  scan s m (inl ports) = (s', inl result) →
  s' = mkScanner (excludePatterns s) result
  ∧ result ≡ₚ info m <$> filter (fun port => excluded s (pd_Name port) = false) ports
  ∧ ∀ pi, pi ∈ result ↔
      ∃ port, port ∈ ports ∧ excluded s (pd_Name port) = false ∧ pi = info m port.
Proof.
  unfold Scan. intros [= <- <-]. split; [done|]. split; [apply sort_Slice_perm|].
  intros pi. rewrite sort_Slice_perm, list_elem_of_fmap. split.
  - intros (port & -> & [Hx Hin]%list_elem_of_filter). by exists port.
  - intros (port & Hin & Hx & ->). exists port. split; [done|].
    by apply list_elem_of_filter.
Qed.

(** X21. A scan lists exactly the ports the enumerator reports and no
    exclusion pattern matches, each as often as it is reported, and caches
    the list; a failed enumeration returns its error and leaves the cache
    as it was. [sort.Slice] is taken to permute the slice. *)
Theorem Scan_lists_ports_not_excluded (s : Scanner) (m : option Manager)
    (ports : list PortDetails) :
  ∃ result,
    scan s m (inl ports) = (mkScanner (excludePatterns s) result, inl result)
    ∧ GetCached (scan s m (inl ports)).1 = result
    ∧ Name <$> result
      ≡ₚ filter (fun name => excluded s name = false) (pd_Name <$> ports)
    ∧ (∀ name, name ∈ Name <$> result
               ↔ name ∈ pd_Name <$> ports ∧ excluded s name = false)
    ∧ (length result ≤ length ports)%nat
    ∧ ∀ err,
        scan (mkScanner (excludePatterns s) result) m (inr err)
        = (mkScanner (excludePatterns s) result, inr err).
Proof.
  destruct (scan s m (inl ports)) as [s' [result|e]] eqn:E; [|done].
  destruct (Scan_elements _ _ _ _ _ E) as (-> & Hperm & Hin).
  exists result. split; [done|]. split; [done|].
  assert (Name <$> result
          ≡ₚ filter (fun name => excluded s name = false) (pd_Name <$> ports))
    as Hnames.
  { rewrite Hperm, <- list_fmap_compose.
    clear. induction ports as [|port ports IH]; [done|]. simpl.
    rewrite !filter_cons. simpl.
    destruct (decide (excluded s (pd_Name port) = false)); simpl; by rewrite IH. }
  split; [done|]. split; [|split; [|done]].
  - intros name. rewrite Hnames, list_elem_of_filter. tauto.
  - rewrite <- (length_fmap Name), Hnames, <- (length_fmap pd_Name ports).
    apply length_filter.
Qed.

(** X22. A scan reports what the manager knows: after a successful
    [OpenPort] every scan that lists the port shows it open and locked by
    the client that opened it; a port without a session, and every port
    when the scanner has no manager, is shown not open and locked by
    nobody. [sort.Slice] is taken to permute the slice. *)
Theorem Scan_reports_open_ports (s s' : Scanner) (ports : list PortDetails)
    (result : list PortInfo) (pi : PortInfo) :
  (∀ mg portName config clientID exclusive env mg' p,
     OpenPort mg portName config clientID exclusive env = (mg', inl p) →
     scan s (Some mg') (inl ports) = (s', inl result) →
     pi ∈ result → Name pi = portName →
     IsOpen pi = true ∧ LockedBy pi = clientID)
  ∧ (∀ mg, scan s (Some mg) (inl ports) = (s', inl result) →
       pi ∈ result → GetSession mg (Name pi) = None →
       IsOpen pi = false ∧ LockedBy pi = "")
  ∧ (scan s None (inl ports) = (s', inl result) →
     pi ∈ result → IsOpen pi = false ∧ LockedBy pi = "").
Proof.
  split; [|split].
  - intros mg portName config clientID exclusive env mg' p Ho Hs Hin Hn.
    apply Scan_elements in Hs as (_ & _ & Hel).
    apply Hel in Hin as (port & _ & _ & ->). simpl in *. subst portName.
    apply OpenPort_success in Ho as (_ & _ & Hh & Hse & _).
    unfold GetSession. rewrite Hse, lookup_insert_eq.
    unfold deref. rewrite Hh, lookup_total_insert_eq. done.
  - intros mg Hs Hin Hg.
    apply Scan_elements in Hs as (_ & _ & Hel).
    apply Hel in Hin as (port & _ & _ & ->). simpl in *. by rewrite Hg.
  - intros Hs Hin.
    apply Scan_elements in Hs as (_ & _ & Hel).
    by apply Hel in Hin as (port & _ & _ & ->).
Qed.

(** X23. What a scan never reports: a port type [Unknown], a
    manufacturer, or an empty description. A USB descriptor is always typed
    [USB], the type [Virtual] is given on Linux only, and the hardware
    identifier is empty exactly if the vendor or the product identifier
    is. [sort.Slice] is taken to permute the slice. *)
Theorem Scan_port_fields (s s' : Scanner) (m : option Manager)
    (ports : list PortDetails) (result : list PortInfo) (pi : PortInfo) :
  scan s m (inl ports) = (s', inl result) → pi ∈ result →
  ∃ port,
    port ∈ ports ∧ excluded s (pd_Name port) = false
    ∧ Name pi = pd_Name port ∧ Product pi = pd_Product port
    ∧ SerialNumber pi = pd_SerialNumber port
    ∧ VID pi = pd_VID port ∧ PID pi = pd_PID port
    ∧ Manufacturer pi = "" ∧ Description pi ≠ ""
    ∧ (HardwareID pi = "" ↔ VID pi = "" ∨ PID pi = "")
    ∧ PortTypeOf pi ≠ PortTypeUnknown
    ∧ (pd_IsUSB port = true → PortTypeOf pi = PortTypeUSB)
    ∧ (PortTypeOf pi = PortTypeVirtual → GOOS = "linux").
Proof.
  intros Hs Hin. apply Scan_elements in Hs as (_ & _ & Hel).
  apply Hel in Hin as (port & Hin & Hx & ->). exists port.
  repeat split; try done; simpl.
  - unfold buildDescription.
    destruct (String.eqb (pd_Product port) "") eqn:E; simpl.
    + by destruct (pd_IsUSB port).
    + by apply String.eqb_neq in E.
  - destruct (String.eqb (pd_VID port) "") eqn:E1; simpl.
    { apply String.eqb_eq in E1. by left. }
    destruct (String.eqb (pd_PID port) "") eqn:E2; simpl.
    { apply String.eqb_eq in E2. by right. }
    done.
  - intros [H|H]; rewrite H; simpl; [done|].
    by rewrite andb_false_r.
  - unfold detectPortType. by repeat case_match.
  - intros H. unfold detectPortType. by rewrite H.
  - unfold detectPortType. destruct (pd_IsUSB port); [done|].
    destruct (String.eqb GOOS "linux") eqn:EL; [intros _; by apply String.eqb_eq|].
    simpl. by repeat case_match.
Qed.

(** X24. [GetPort] scans again and looks the name up in the result: it
    returns a port of that name out of the fresh scan if the enumerator
    reports the name and no exclusion pattern matches it, and
    [ErrPortNotFound] otherwise, so also for a port that exists but is
    excluded; either way the cache holds the fresh scan. A failed
    enumeration is returned as it is. [sort.Slice] is taken to permute the
    slice. *)
Theorem GetPort_finds_listed_ports (s : Scanner) (m : option Manager)
    (ports : list PortDetails) (name : string) :
  ∃ result,
    scan s m (inl ports) = (mkScanner (excludePatterns s) result, inl result)
    ∧ (get_port s m (inl ports) name).1 = mkScanner (excludePatterns s) result
    ∧ (name ∈ pd_Name <$> ports ∧ excluded s name = false →
       ∃ pi, (get_port s m (inl ports) name).2 = inl pi
             ∧ Name pi = name ∧ pi ∈ result)
    ∧ (¬ (name ∈ pd_Name <$> ports ∧ excluded s name = false) →
       (get_port s m (inl ports) name).2 = inr ErrPortNotFound)
    ∧ ∀ err, get_port s m (inr err) name = (s, inr err).
Proof.
  destruct (scan s m (inl ports)) as [s' [result|e]] eqn:E; [|done].
  destruct (Scan_elements _ _ _ _ _ E) as (-> & Hperm & Hel).
  exists result. split; [done|]. unfold GetPort. rewrite E.
  destruct (find (fun port => String.eqb (Name port) name) result) as [pi|] eqn:F.
  - apply find_some in F as [Hin Hn]. apply String.eqb_eq in Hn.
    apply list_elem_of_In in Hin.
    split; [done|]. split; [by exists pi|]. split; [|done].
    intros Hnot. exfalso. apply Hnot.
    apply Hel in Hin as (port & Hp & Hx & ->). simpl in Hn. subst name.
    split; [|done]. apply list_elem_of_fmap. by exists port.
  - split; [done|]. split; [|done].
    intros [(port & -> & Hp)%list_elem_of_fmap Hx]. exfalso.
    pose proof (find_none _ _ F (info m port)) as Hnone.
    simpl in Hnone. rewrite String.eqb_refl in Hnone.
    assert (info m port ∈ result) as Hin by (apply Hel; by exists port).
    apply list_elem_of_In in Hin. by apply Hnone in Hin.
Qed.

End ScanContents.

Lemma Scan_lists_ports_not_excluded_witness :
  ∃ result,
    Scan "linux" prefix_match sort_by (mkScanner ["/dev/ttyS"] []) (Some m_excl)
         (inl [com3; ttyS0; com1])
    = (mkScanner ["/dev/ttyS"] result, inl result)
    ∧ Name <$> result ≡ₚ ["COM3"; "COM1"].
Proof.
  destruct (Scan_lists_ports_not_excluded "linux" prefix_match sort_by sort_by_perm
              (mkScanner ["/dev/ttyS"] []) (Some m_excl) [com3; ttyS0; com1])
    as (result & H1 & _ & H3 & _).
  exists result. split; [exact H1|]. exact H3.
Defined.

Lemma Scan_reports_open_ports_witness :
  ∃ s' result pi,
    Scan "linux" no_match sort_by (mkScanner [] []) (Some m_excl) (inl [com3; com1])
    = (s', inl result)
    ∧ pi ∈ result ∧ Name pi = "COM1"
    ∧ IsOpen pi = true ∧ LockedBy pi = "alice".
Proof.
  set (pi := port_info "linux" no_match (Some m_excl) com1).
  set (result := [pi; port_info "linux" no_match (Some m_excl) com3]).
  assert (Scan "linux" no_match sort_by (mkScanner [] []) (Some m_excl)
               (inl [com3; com1])
          = (mkScanner [] result, inl result)) as Hs by (by vm_compute).
  assert (OpenPort (NewManager true DefaultConfig) "COM1" DefaultConfig "alice" true
                   (env_ok "s-1" 100) = (m_excl, inl 0%nat)) as Ho by (by vm_compute).
  assert (pi ∈ result) as Hin by apply list_elem_of_here.
  exists (mkScanner [] result), result, pi.
  split; [exact Hs|]. split; [exact Hin|]. split; [done|].
  destruct (Scan_reports_open_ports "linux" no_match sort_by sort_by_perm
              (mkScanner [] []) (mkScanner [] result) [com3; com1] result pi)
    as (H1 & _).
  exact (H1 _ _ _ _ _ _ _ _ Ho Hs Hin eq_refl).
Defined.

Lemma Scan_port_fields_witness :
  ∃ s' result pi,
    Scan "linux" no_match sort_by (mkScanner [] []) None (inl [com3; com1])
    = (s', inl result)
    ∧ pi ∈ result ∧ Name pi = "COM3"
    ∧ Manufacturer pi = "" ∧ Description pi = "FT232R"
    ∧ PortTypeOf pi = PortTypeUSB.
Proof.
  set (pi := port_info "linux" no_match None com3).
  set (result := [port_info "linux" no_match None com1; pi]).
  assert (Scan "linux" no_match sort_by (mkScanner [] []) None (inl [com3; com1])
          = (mkScanner [] result, inl result)) as Hs by (by vm_compute).
  assert (pi ∈ result) as Hin
    by (apply list_elem_of_further, list_elem_of_here).
  exists (mkScanner [] result), result, pi.
  split; [exact Hs|]. split; [exact Hin|]. split; [done|].
  destruct (Scan_port_fields "linux" no_match sort_by sort_by_perm
              (mkScanner [] []) (mkScanner [] result) None [com3; com1] result pi
              Hs Hin)
    as (port & _ & _ & _ & _ & _ & _ & _ & H1 & _).
  split; [exact H1|]. done.
Defined.

Lemma GetPort_finds_listed_ports_witness :
  let s := mkScanner ["/dev/ttyS"] [] in
  (∃ pi, (GetPort "linux" prefix_match sort_by s None (inl [com3; ttyS0; com1])
                  "COM3").2 = inl pi ∧ Name pi = "COM3")
  ∧ (GetPort "linux" prefix_match sort_by s None (inl [com3; ttyS0; com1])
             "/dev/ttyS0").2 = inr ErrPortNotFound.
Proof.
  intros s. split.
  - destruct (GetPort_finds_listed_ports "linux" prefix_match sort_by sort_by_perm
                s None [com3; ttyS0; com1] "COM3")
      as (result & _ & _ & H3 & _).
    destruct H3 as (pi & Hp & Hn & _); [|by exists pi].
    split; [|done]. apply list_elem_of_here.
  - destruct (GetPort_finds_listed_ports "linux" prefix_match sort_by sort_by_perm
                s None [com3; ttyS0; com1] "/dev/ttyS0")
      as (result & _ & _ & _ & H4 & _).
    apply H4. by intros [_ Hx].
Defined.

Section NewScannerProperties.
Variable regexp_Compile : string → option error.
Variable regexp_MatchString : string → string → bool.

Local Abbreviation new_scanner := (NewScanner regexp_Compile).

Lemma compile_all_inl (patterns res : list string) :
  compile_all regexp_Compile patterns = inl res →
  res = patterns ∧ Forall (fun pattern => regexp_Compile pattern = None) patterns.
Proof.
  revert res. induction patterns as [|pattern patterns IH]; intros res; simpl.
  { by intros [= <-]. }
  destruct (regexp_Compile pattern) eqn:E; [done|].
  destruct (compile_all regexp_Compile patterns) as [res'|]; [|done].
  intros [= <-]. destruct (IH res' eq_refl) as [-> Hall].
  split; [done|]. by apply Forall_cons.
Qed.

Lemma compile_all_inr (patterns : list string) (err : error) :
  compile_all regexp_Compile patterns = inr err →
  ∃ before pattern after,
    patterns = before ++ pattern :: after
    ∧ Forall (fun pattern => regexp_Compile pattern = None) before
    ∧ regexp_Compile pattern = Some err.
Proof.
  induction patterns as [|pattern patterns IH]; simpl; [done|].
  destruct (regexp_Compile pattern) as [e|] eqn:E.
  - intros [= <-]. by exists [], pattern, patterns.
  - destruct (compile_all regexp_Compile patterns) as [res'|e]; [done|].
    intros [= <-]. destruct (IH eq_refl) as (before & p & after & -> & Hall & Hp).
    exists (pattern :: before), p, after. repeat split; [|done].
    by apply Forall_cons.
Qed.

(** X25. [NewScanner] makes a scanner exactly if every exclusion pattern
    compiles: the scanner then excludes a name if and only if one of the
    given patterns matches it, and its cache is empty. Otherwise the error
    returned is that of the first pattern that does not compile. *)
Theorem NewScanner_compiles_every_pattern (patterns : list string) :
  (∀ s, new_scanner patterns = inl s →
     Forall (fun pattern => regexp_Compile pattern = None) patterns
     ∧ GetCached s = []
     ∧ ∀ name, isExcluded regexp_MatchString s name = true
               ↔ ∃ pattern, pattern ∈ patterns
                            ∧ regexp_MatchString pattern name = true)
  ∧ (∀ err, new_scanner patterns = inr err →
       ∃ before pattern after,
         patterns = before ++ pattern :: after
         ∧ Forall (fun pattern => regexp_Compile pattern = None) before
         ∧ regexp_Compile pattern = Some err)
  ∧ (Forall (fun pattern => regexp_Compile pattern = None) patterns →
     new_scanner patterns = inl (mkScanner patterns [])).
Proof.
  unfold NewScanner. split; [|split].
  - intros s. destruct (compile_all regexp_Compile patterns) as [res|e] eqn:E; [|done].
    intros [= <-]. apply compile_all_inl in E as [-> Hall].
    split; [done|]. split; [done|]. intros name. unfold isExcluded. simpl.
    rewrite existsb_exists. by setoid_rewrite list_elem_of_In.
  - intros err. destruct (compile_all regexp_Compile patterns) as [res|e] eqn:E; [done|].
    intros [= <-]. by apply compile_all_inr.
  - intros Hall. destruct (compile_all regexp_Compile patterns) as [res|e] eqn:E.
    + by apply compile_all_inl in E as [-> _].
    + apply compile_all_inr in E as (before & p & after & -> & _ & Hp).
      apply Forall_app in Hall as [_ Hall]. apply Forall_cons in Hall as [Hp' _].
      congruence.
Qed.

End NewScannerProperties.

Lemma NewScanner_compiles_every_pattern_witness :
  NewScanner rejects_empty ["/dev/ttyS"; ""; "COM9"]
  = inr (ErrHardware "empty pattern")
  ∧ NewScanner rejects_empty ["/dev/ttyS"] = inl (mkScanner ["/dev/ttyS"] []).
Proof.
  split; [by vm_compute|].
  apply (NewScanner_compiles_every_pattern rejects_empty prefix_match ["/dev/ttyS"]).
  apply Forall_singleton. done.
Defined.

(** ** What the watch loop reports *)

Lemma calls_of_snoc (stop stop' : nat) (called : list (nat * list PortInfo))
    (ports : list PortInfo) :
  calls_of stop' (called ++ [(stop, ports)])
  = calls_of stop' called ++ (if decide (stop = stop') then [ports] else []).
Proof.
  unfold calls_of. rewrite filter_app, fmap_app. f_equal.
  destruct (decide (stop = stop')) as [->|N].
  - by rewrite filter_cons_True.
  - by rewrite filter_cons_False.
Qed.

Lemma default_last_cons {A : Type} (prev x : A) (l : list A) :
  default prev (last (x :: l)) = default x (last l).
Proof.
  revert x prev. induction l as [|y l IH]; intros x prev; [done|].
  change (last (x :: y :: l)) with (last (y :: l)). by rewrite !IH.
Qed.

Lemma changes_snoc (prev : list PortInfo) (calls : list (list PortInfo))
    (ports : list PortInfo) :
  changes prev calls → portsEqual (default prev (last calls)) ports = false →
  changes prev (calls ++ [ports]).
Proof.
  revert prev. induction calls as [|x calls IH]; intros prev Hc Hp; simpl in *.
  - done.
  - destruct Hc as [H1 H2]. split; [done|]. apply IH; [done|].
    by rewrite <- (default_last_cons prev).
Qed.

Lemma changes_lookup (prev : list PortInfo) (calls : list (list PortInfo)) :
  changes prev calls →
  (∀ ports, head calls = Some ports → portsEqual prev ports = false)
  ∧ ∀ i a b, calls !! i = Some a → calls !! S i = Some b → portsEqual a b = false.
Proof.
  revert prev. induction calls as [|x calls IH]; intros prev Hc; simpl in *.
  - by split.
  - destruct Hc as [H1 H2]. split; [by intros ports [= <-]|].
    destruct (IH x H2) as [IH1 IH2].
    intros [|i] a b; simpl.
    + intros [= <-] Hb. apply IH1. by rewrite head_lookup.
    + apply IH2.
Qed.

Lemma calls_of_fresh (stop : nat) (called : list (nat * list PortInfo)) :
  Forall (fun c => c.1 ≠ stop) called → calls_of stop called = [].
Proof.
  intros H. unfold calls_of.
  induction called as [|c called IH]; [done|].
  apply Forall_cons in H as [H1 H2].
  rewrite filter_cons_False by done. by apply IH.
Qed.

Section WatchChanges.
Variable GOOS : string.
Variable regexp_MatchString : string → string → bool.
Variable sort_Slice : (PortInfo → PortInfo → bool) → list PortInfo → list PortInfo.

Local Abbreviation watch_step := (scan_step GOOS regexp_MatchString sort_Slice).
Local Abbreviation watch_run := (scan_run GOOS regexp_MatchString sort_Slice).
Local Abbreviation turn := (watch_turn GOOS regexp_MatchString sort_Slice).

Lemma watching_same (sw sw' : ScanWorld) :
  watchers sw' = watchers sw → called sw' = called sw →
  watching sw → watching sw'.
Proof. unfold watching. by intros -> ->. Qed.

Lemma watching_returned (sw sw' : ScanWorld) (i : nat) (wt : Watcher) :
  watchers sw !! i = Some wt →
  watchers sw' = <[i := mkWatcher (w_stop wt) (w_interval wt) (lastPorts wt) true]>
                   (watchers sw) →
  called sw' = called sw →
  watching sw → watching sw'.
Proof.
  intros Hi Hw Hc (Hnd & Hl & Hch). unfold watching. rewrite Hw, Hc.
  split; [|split; [|done]].
  - rewrite list_fmap_insert. simpl. rewrite list_insert_id; [done|].
    by rewrite list_lookup_fmap, Hi.
  - intros wt' [j Hj]%list_elem_of_lookup_1.
    apply list_lookup_insert_Some in Hj as [(-> & <- & _)|[_ Hj]].
    + simpl. apply Hl. by eapply list_elem_of_lookup_2.
    + apply Hl. by eapply list_elem_of_lookup_2.
Qed.

Lemma watching_callback (sw sw' : ScanWorld) (i : nat) (wt : Watcher)
    (ports : list PortInfo) :
  watchers sw !! i = Some wt →
  portsEqual (lastPorts wt) ports = false →
  watchers sw' = <[i := mkWatcher (w_stop wt) (w_interval wt) ports false]>
                   (watchers sw) →
  called sw' = called sw ++ [(w_stop wt, ports)] →
  watching sw → watching sw'.
Proof.
  intros Hi Hne Hw Hc (Hnd & Hl & Hch). unfold watching. rewrite Hw, Hc.
  assert (wt ∈ watchers sw) as Hin by (by eapply list_elem_of_lookup_2).
  split; [|split].
  - rewrite list_fmap_insert. simpl. rewrite list_insert_id; [done|].
    by rewrite list_lookup_fmap, Hi.
  - intros wt' [j Hj]%list_elem_of_lookup_1. rewrite calls_of_snoc.
    apply list_lookup_insert_Some in Hj as [(-> & <- & _)|[Nj Hj]].
    + simpl. rewrite decide_True by done. by rewrite last_snoc.
    + rewrite decide_False, app_nil_r.
      * apply Hl. by eapply list_elem_of_lookup_2.
      * intros Heq.
        apply Nj. apply (NoDup_lookup _ i j (w_stop wt) Hnd).
        -- by rewrite list_lookup_fmap, Hi.
        -- by rewrite list_lookup_fmap, Hj, Heq.
  - intros stop. rewrite calls_of_snoc.
    destruct (decide (w_stop wt = stop)) as [<-|N]; [|by rewrite app_nil_r].
    apply changes_snoc; [done|]. by rewrite <- (Hl wt Hin).
Qed.

Lemma scan_step_watching (sw : ScanWorld) (h : scan_happening) :
  tagged sw → watching sw → watching (watch_step sw h).
Proof.
  intros (Ht1 & Ht2 & Ht3) Hw.
  destruct h as [i tick pick_stop enum|stop|interval|enum|op]; simpl;
    try (by apply (watching_same sw)).
  - unfold watch_turn. destruct (watchers sw !! i) as [wt|] eqn:Hi; [|done].
    destruct (w_returned wt); [done|].
    destruct (default false (stops sw !! w_stop wt) && (negb tick || pick_stop)).
    { by eapply (watching_returned sw). }
    destruct (negb tick); [done|].
    destruct (Scan GOOS regexp_MatchString sort_Slice (scanner sw) (smanager sw) enum)
      as [s [ports|e]]; [|by apply (watching_same sw)].
    destruct (portsEqual (lastPorts wt) ports) eqn:E; simpl.
    + by apply (watching_same sw).
    + by eapply (watching_callback sw).
  - unfold WatchPorts. destruct (interval <=? 0); [by apply (watching_same sw)|].
    destruct Hw as (Hnd & Hl & Hch). unfold watching. simpl.
    set (stop := fresh (dom (stops sw))).
    assert (stop ∉ dom (stops sw)) as Hfresh by apply is_fresh.
    split; [|split; [|done]].
    + rewrite fmap_app. apply NoDup_app. split; [done|].
      split; [|apply NoDup_singleton].
      intros x Hx Hx2. simpl in Hx2. apply list_elem_of_singleton in Hx2 as ->.
      apply list_elem_of_fmap in Hx as (wt & Heq & Hin).
      rewrite Forall_forall in Ht1. apply Hfresh. rewrite Heq. by apply (Ht1 wt).
    + intros wt [Hin | ->%list_elem_of_singleton]%elem_of_app; [by apply Hl|].
      simpl. rewrite calls_of_fresh; [done|].
      eapply Forall_impl; [exact Ht3|]. intros c Hc Heq. apply Hfresh.
      by rewrite <- Heq.
Qed.

Lemma scan_run_watching (hs : list scan_happening) (sw : ScanWorld) :
  tagged sw → watching sw → watching (watch_run sw hs).
Proof.
  revert sw. induction hs as [|h hs IH]; intros sw Ht Hw; [done|].
  simpl. apply IH; [by apply scan_step_tagged|by apply scan_step_watching].
Qed.

(** X26. The watch loop calls back on changes only. Whatever happens
    around a scanner (passes of any watcher, scans by others, manager
    calls, stops), the lists handed to the callback of one [WatchPorts]
    call are such that the first is not empty and each differs from the
    one before it in its names or open flags; and every watcher holds the
    list of its latest callback to compare the next scan with. *)
Theorem WatchPorts_reports_changes_only (s : Scanner) (m : option Manager)
    (hs : list scan_happening) (stop : nat) :
  let sw := watch_run (NewScanWorld s m) hs in
  let calls := calls_of stop (called sw) in
  (∀ ports, head calls = Some ports → ports ≠ [])
  ∧ (∀ i a b, calls !! i = Some a → calls !! S i = Some b →
       portsEqual a b = false)
  ∧ ∀ wt, wt ∈ watchers sw → w_stop wt = stop →
      lastPorts wt = default [] (last calls).
Proof.
  intros sw calls.
  assert (tagged (NewScanWorld s m)) as Ht.
  { repeat split; apply Forall_nil; done. }
  assert (watching (NewScanWorld s m)) as Hw.
  { split; [apply NoDup_nil_2|]. split; [|done].
    intros wt H. by apply elem_of_nil in H. }
  destruct (scan_run_watching hs _ Ht Hw) as (_ & Hl & Hch). fold sw in Hl, Hch.
  destruct (changes_lookup _ _ (Hch stop)) as [H1 H2]. fold calls in H1, H2.
  split; [|split; [exact H2|]].
  - intros ports Hh -> . by apply H1 in Hh.
  - intros wt Hin <-. by apply Hl.
Qed.

End WatchChanges.

Lemma WatchPorts_reports_changes_only_witness :
  let sw := scan_run "linux" no_match sort_by (NewScanWorld (mkScanner [] []) None)
              [CallWatchPorts 5;
               WatchTurn 0%nat true false (inl []);
               WatchTurn 0%nat true false (inl [com1]);
               WatchTurn 0%nat true false (inl [com1]);
               WatchTurn 0%nat true false (inl [com1; com3])] in
  (fun ports : list PortInfo => Name <$> ports) <$> calls_of 0%nat (called sw)
  = [["COM1"]; ["COM1"; "COM3"]]
  ∧ ∀ i a b, calls_of 0%nat (called sw) !! i = Some a →
             calls_of 0%nat (called sw) !! S i = Some b → portsEqual a b = false.
Proof.
  intros sw. split; [by vm_compute|].
  exact (proj1 (proj2 (WatchPorts_reports_changes_only "linux" no_match sort_by
           (mkScanner [] []) None
           [CallWatchPorts 5;
            WatchTurn 0%nat true false (inl []);
            WatchTurn 0%nat true false (inl [com1]);
            WatchTurn 0%nat true false (inl [com1]);
            WatchTurn 0%nat true false (inl [com1; com3])] 0%nat))).
Defined.
